(** * slam-constructor: numeric tolerance utilities, grid viewer export and
      the laser scan generator fixture

    The development follows the layout of the repository:

    - [Double]: IEEE-754 binary64 values, as the C++ type [double], built on
      the executable specification of the Standard Library ([spec_float]),
      with the [<cmath>] / [<algorithm>] functions the sources call;
    - [Int32]: the C++ types [int] and [unsigned] with their wrap-around;
    - [MathUtils], [MathUtilsAngles]: [src/core/math_utils.h];
    - [RvizGridViewer], [RvizGridViewerRun]: [src/ros/rviz_grid_viewer.h];
    - [PlainGridMap], [LaserScanGenerator]: the grid map and the scan
      generator that the test fixture exercises, over the real numbers;
    - [LaserScanGeneratorTest]: the fixture of
      [test/utils/data_generation/laser_scan_generator_test.cpp].

    Definitions come first, the properties proved about them follow. *)

From Stdlib Require Import Ascii String.
From Stdlib Require Import Reals Lra.
From Stdlib Require Import ZArith Bool List Lia.
From Stdlib Require Import Floats.SpecFloat.
Import ListNotations.

Local Open Scope Z_scope.

(* ================================================================== *)
(** * IEEE-754 binary64 *)
(* ================================================================== *)

Module Double.

Definition prec : Z := 53.
Definition emax : Z := 1024.

(** A C++ [double]: signed zeros, signed infinities, NaN and the finite
    values [(-1)^s * m * 2^e]. *)
Definition double : Type := spec_float.

Definition add : double -> double -> double := SFadd prec emax.
Definition sub : double -> double -> double := SFsub prec emax.
Definition mul : double -> double -> double := SFmul prec emax.
Definition div : double -> double -> double := SFdiv prec emax.

(** [a < b], [a <= b], [a == b] on doubles: false as soon as one side is NaN. *)
Definition ltb : double -> double -> bool := SFltb.
Definition leb : double -> double -> bool := SFleb.
Definition eqb : double -> double -> bool := SFeqb.

(** An integer literal converted to [double] (round to nearest even). *)
Definition of_Z (z : Z) : double := binary_normalize prec emax z 0 false.

Definition zero : double := S754_zero false.
Definition one : double := S754_finite false 4503599627370496 (-52).
Definition minus_one : double := S754_finite true 4503599627370496 (-52).
Definition hundred : double := S754_finite false 7036874417766400 (-46).

(** [std::abs(double)]: clears the sign, NaN stays NaN. *)
Definition std_abs (x : double) : double := SFabs x.

(** [std::max(a, b)] of [<algorithm>]: [(a < b) ? b : a]. *)
Definition std_max (a b : double) : double := if ltb a b then b else a.

(** [std::trunc] of [<cmath>]: the integral value nearest to the argument
    and not larger in magnitude; zeros, infinities and NaN are returned
    unchanged.  A finite [m * 2^e] with [e < 0] loses its [-e] low bits. *)
Definition std_trunc (x : double) : double :=
  match x with
  | S754_finite s m e =>
      if 0 <=? e then x
      else match Z.shiftr (Zpos m) (- e) with
           | Zpos m' => binary_normalize prec emax (if s then Zneg m' else Zpos m') 0 s
           | _ => S754_zero s
           end
  | _ => x
  end.

(** The doubles that denote a real number. *)
Definition is_real (x : double) : bool :=
  match x with
  | S754_zero _ | S754_finite _ _ _ => true
  | _ => false
  end.

(** The doubles whose value is an integer. *)
Definition is_integral (x : double) : bool :=
  match x with
  | S754_zero _ => true
  | S754_finite _ m e => (0 <=? e) || (Zpos m mod 2 ^ (- e) =? 0)
  | _ => false
  end.

Definition is_nan (x : double) : bool :=
  match x with S754_nan => true | _ => false end.

(** The order of [SFcompare] is the lexicographic order of a rank. *)
Definition rank (x : double) : option (Z * Z * Z) :=
  match x with
  | S754_nan => None
  | S754_infinity true => Some (-2, 0, 0)
  | S754_infinity false => Some (2, 0, 0)
  | S754_zero _ => Some (0, 0, 0)
  | S754_finite true m e => Some (-1, - e, Zneg m)
  | S754_finite false m e => Some (1, e, Zpos m)
  end.

Definition rank_le (r1 r2 : Z * Z * Z) : Prop :=
  let '(c1, e1, m1) := r1 in
  let '(c2, e2, m2) := r2 in
  c1 < c2 \/ (c1 = c2 /\ (e1 < e2 \/ (e1 = e2 /\ m1 <= m2))).

End Double.

(* ================================================================== *)
(** * The C++ types [int] and [unsigned] (32 bits) *)
(* ================================================================== *)

Module Int32.

Definition INT_MAX : Z := 2147483647.
Definition INT_MIN : Z := -2147483648.

(** Conversion to [unsigned]: the value modulo [2^32]. *)
Definition to_unsigned (z : Z) : Z := z mod 4294967296.

(** Conversion to [int]: the two's complement value of the low 32 bits. *)
Definition to_int (z : Z) : Z := (z + 2147483648) mod 4294967296 - 2147483648.

(** [p *= N] for [int p] and [unsigned N]: the usual arithmetic conversions
    make the product an [unsigned] one, which is then stored in the [int]. *)
Definition mul_assign (p N : Z) : Z :=
  to_int (to_unsigned (to_unsigned p * to_unsigned N)).

(** [a / b] on [int]: truncation towards zero. *)
Definition div (a b : Z) : Z := Z.quot a b.

End Int32.

(* ================================================================== *)
(** * src/core/math_utils.h *)
(* ================================================================== *)

Module MathUtils.
Import Double.

(** [constexpr double Eps = 1e-7]: the binary64 value nearest to [10^-7]. *)
Definition Eps : double := S754_finite false 7555786372591432 (-76).

(** [are_equal]:
<<
  double eps_scale = std::max(1.0, std::max(std::abs(a), std::abs(b)));
  constexpr double Eps = 1e-7;
  return std::abs(a - b) <= Eps * eps_scale;
>> *)
Definition are_equal (a b : double) : bool :=
  let eps_scale := std_max one (std_max (std_abs a) (std_abs b)) in
  leb (std_abs (sub a b)) (mul Eps eps_scale).

(** [is_multiple_of]:
<<
  double ratio = value / factor;
  return are_equal(ratio, std::trunc(ratio));
>> *)
Definition is_multiple_of (value factor : double) : bool :=
  let ratio := div value factor in
  are_equal ratio (std_trunc ratio).

(** [less_or_equal]: [are_equal(a, b) || (a < b)]. *)
Definition less_or_equal (a b : double) : bool :=
  are_equal a b || ltb a b.

(** [are_ordered]: [less_or_equal(a, b) && less_or_equal(b, c)]. *)
Definition are_ordered (a b c : double) : bool :=
  less_or_equal a b && less_or_equal b c.

(** [ge_pow<N>]:
<<
  int ge_p = 1;
  while (ge_p < i) { ge_p *= N; }
  return ge_p;
>>
    The loop runs on fuel: [None] when the fuel is used up before the loop
    exits. *)
Fixpoint ge_pow_loop (fuel : nat) (N i ge_p : Z) : option Z :=
  if ge_p <? i then
    match fuel with
    | O => None
    | S fuel' => ge_pow_loop fuel' N i (Int32.mul_assign ge_p N)
    end
  else Some ge_p.

Definition ge_pow (N i : Z) (fuel : nat) : option Z := ge_pow_loop fuel N i 1.

(** The accumulator values of [ge_pow<2>]: the powers of two that fit an
    [int], then [INT_MIN], then [0]. *)
Definition ge_pow2_orbit : list Z :=
  Eval vm_compute in
    (fix go (n : nat) (p : Z) : list Z :=
       match n with O => [] | S n' => p :: go n' (Int32.mul_assign p 2) end) 33%nat 1.

(** The scale of the specification, in its own words: [m] is
    [max(x, y, z)] when it is one of the three and no smaller than any. *)
Definition is_max3 (m x y z : double) : Prop :=
  (m = x \/ m = y \/ m = z) /\
  leb x m = true /\ leb y m = true /\ leb z m = true.

End MathUtils.
(** The angle conversions of [math_utils.h], on doubles. *)
Module MathUtilsAngles.
Import Double.

(** [M_PI] of [<cmath>]: the binary64 value nearest to pi,
    [3.141592653589793]. *)
Definition M_PI : double := S754_finite false 7074237752028440 (-51).

(** [deg2rad]: [angle_deg * M_PI / 180]. *)
Definition deg2rad (angle_deg : double) : double :=
  div (mul angle_deg M_PI) (of_Z 180).

(** [rad2deg]: [angle_rad * 180 / M_PI]. *)
Definition rad2deg (angle_rad : double) : double :=
  div (mul angle_rad (of_Z 180)) M_PI.

End MathUtilsAngles.


(* ================================================================== *)
(** * src/ros/rviz_grid_viewer.h *)
(* ================================================================== *)

Module RvizGridViewer.
Import Double.

(** Conversion of a [double] to [int]: the fractional part is discarded;
    NaN, the infinities and values outside the range of [int] have no
    defined result. *)
Definition double_to_int (x : double) : option Z :=
  match x with
  | S754_zero _ => Some 0
  | S754_finite s m e =>
      let mag := if 0 <=? e then Zpos m * 2 ^ e else Z.shiftr (Zpos m) (- e) in
      let z := if s then - mag else mag in
      if (Int32.INT_MIN <=? z) && (z <=? Int32.INT_MAX) then Some z else None
  | _ => None
  end.

(** Conversion of an [int] to the [int8_t] elements of
    [nav_msgs::OccupancyGrid::data]. *)
Definition int_to_int8 (z : Z) : Z := (z + 128) mod 256 - 128.

(** What the viewer reads of a [GridCell]: the result of [value()]. *)
Record GridCell : Type := { value : double }.

(** What the viewer reads of a [GridMap] ([core/maps/grid_map.h]). *)
Record GridMap : Type := {
  width : Z;
  height : Z;
  scale : double;
  map_center_x : Z;
  map_center_y : Z;
  cells : list (list GridCell)
}.

(** The fields of [nav_msgs::OccupancyGrid] that are filled from the cells
    and the extent of the map ([info.resolution] and [info.origin], which
    are copies of [scale()] and of the map centre, are left out). *)
Record OccupancyGrid (Time : Type) : Type := {
  map_load_time : Time;
  info_width : Z;
  info_height : Z;
  data : list Z
}.
Arguments map_load_time {Time}.
Arguments info_width {Time}.
Arguments info_height {Time}.
Arguments data {Time}.

(** The viewer: the messages handed to [_map_pub] so far, the time of the
    last publication and the publishing period. *)
Record Viewer (Time : Type) : Type := {
  published : list (OccupancyGrid Time);
  last_pub_time : Time;
  map_publishing_rate : double
}.
Arguments published {Time}.
Arguments last_pub_time {Time}.
Arguments map_publishing_rate {Time}.

(** [int cell_value = cell->value() == -1 ? -1 : cell->value() * 100;]
    both branches have type [double]; the initialisation converts to [int]. *)
Definition cell_value (cell : GridCell) : option Z :=
  double_to_int
    (if eqb (value cell) minus_one then minus_one else mul (value cell) hundred).

(** One round of the inner loop: [map_msg.data.push_back(cell_value)]. *)
Definition push_cell (acc : option (list Z)) (cell : GridCell) : option (list Z) :=
  match acc, cell_value cell with
  | Some d, Some v => Some (d ++ [int_to_int8 v])
  | _, _ => None
  end.

(** The two nested loops over [map.cells()]. *)
Definition push_row (acc : option (list Z)) (row : list GridCell) : option (list Z) :=
  fold_left push_cell row acc.

Definition push_cells (rows : list (list GridCell)) : option (list Z) :=
  fold_left push_row rows (Some []).

Section OnMapUpdate.
(** [ros::Time] and [(a - b).toSec()]. *)
Variable Time : Type.
Variable elapsed_sec : Time -> Time -> double.

(** [on_map_update]; the three readings of [ros::Time::now()] are
    arguments.  [None]: a cell value had no defined conversion. *)
Definition on_map_update (v : Viewer Time) (now_start now_load now_done : Time)
           (map : GridMap) : option (Viewer Time) :=
  if ltb (elapsed_sec now_start (last_pub_time v)) (map_publishing_rate v) then
    Some v
  else
    match push_cells (cells map) with
    | Some d =>
        let map_msg := {| map_load_time := now_load;
                          info_width := width map;
                          info_height := height map;
                          data := d |} in
        Some {| published := published v ++ [map_msg];
                last_pub_time := now_done;
                map_publishing_rate := map_publishing_rate v |}
    | None => None
    end.
End OnMapUpdate.




End RvizGridViewer.
(** Successive calls of [on_map_update] on one viewer. *)
Module RvizGridViewerRun.
Import Double RvizGridViewer.

(** One call: the three readings of [ros::Time::now()] and the map. *)
Record MapUpdate (Time : Type) : Type := {
  now_start : Time;
  now_load : Time;
  now_done : Time;
  update_map : GridMap
}.
Arguments now_start {Time}.
Arguments now_load {Time}.
Arguments now_done {Time}.
Arguments update_map {Time}.

Section Run.
Variable Time : Type.
Variable elapsed_sec : Time -> Time -> double.

Definition on_map_update_call (v : Viewer Time) (c : MapUpdate Time)
  : option (Viewer Time) :=
  on_map_update Time elapsed_sec v (now_start c) (now_load c) (now_done c) (update_map c).

(** The calls of a list, in order; [None] as soon as one of them has no
    defined result. *)
Fixpoint on_map_updates (v : Viewer Time) (calls : list (MapUpdate Time))
  : option (Viewer Time) :=
  match calls with
  | [] => Some v
  | c :: calls' =>
      match on_map_update_call v c with
      | Some v' => on_map_updates v' calls'
      | None => None
      end
  end.
End Run.

End RvizGridViewerRun.


(* ================================================================== *)
(** * Poses, the grid map and the scan generator, over the reals

    The fixture of [laser_scan_generator_test.cpp] drives
    [core/robot_pose.h], [core/maps/plain_grid_map.h] and
    [utils/data_generation/laser_scan_generator.h].  Its expectations are
    trigonometric expressions, so this part reads [double] as a real
    number. *)
(* ================================================================== *)

Module RobotPoseModel.
Local Open Scope R_scope.

(** [deg2rad] of [math_utils.h], [angle_deg * M_PI / 180], on the reals. *)
Definition deg2rad (angle_deg : R) : R := angle_deg * PI / 180.

(** Modelled from the spec: the pose and the pose delta of
    [core/robot_pose.h]. *)
Record RobotPose : Type := { x : R; y : R; theta : R }.
Record RobotPoseDelta : Type := { d_x : R; d_y : R; d_theta : R }.

(** Modelled from the spec: [pose += delta] of [core/robot_pose.h], which
    adds the delta coordinate by coordinate and does not normalise the
    heading. *)
Definition pose_add (p : RobotPose) (d : RobotPoseDelta) : RobotPose :=
  {| x := x p + d_x d; y := y p + d_y d; theta := theta p + d_theta d |}.

End RobotPoseModel.

Module PlainGridMap.
Local Open Scope R_scope.

Definition DiscretePoint2D : Type := (Z * Z)%type.

(** Modelled from the spec: the grid map of [core/maps/plain_grid_map.h],
    as the generator reads it: the size of a cell and the value of every
    cell ([operator[]]); a cell beyond the observed extent is not occupied. *)
Record GridMap : Type := {
  scale : R;
  cell_value : DiscretePoint2D -> R
}.

(** Modelled from the spec: [world_to_cell] maps a world point to the cell
    that encloses it; cell [(0, 0)] has its lower left corner at the origin
    (the fixture starts its robot at [(scale / 2, scale / 2)], the middle of
    a cell). *)
Definition world_to_cell (m : GridMap) (wx wy : R) : DiscretePoint2D :=
  (Zfloor (wx / scale m), Zfloor (wy / scale m)).


(** The occupied test of the generator: the reported value is [1]. *)
Definition occupied (m : GridMap) (c : DiscretePoint2D) : Prop :=
  cell_value m c = 1.

Definition point_eqb (a b : DiscretePoint2D) : bool :=
  (fst a =? fst b)%Z && (snd a =? snd b)%Z.

(** Modelled from the spec: fusing an observation of probability [1] and
    confidence [1] into a cell ([map[c] += obs]) leaves a cell whose value
    is [1]; the other cells keep their value. *)
Definition observe_occupied (m : GridMap) (c : DiscretePoint2D) : GridMap :=
  {| scale := scale m;
     cell_value := fun c' => if point_eqb c' c then 1 else cell_value m c' |}.

(** The closed square of the plane that a cell covers. *)
Definition in_cell (m : GridMap) (c : DiscretePoint2D) (p : R * R) : Prop :=
  IZR (fst c) * scale m <= fst p <= (IZR (fst c) + 1) * scale m /\
  IZR (snd c) * scale m <= snd p <= (IZR (snd c) + 1) * scale m.

End PlainGridMap.

Module LaserScanGenerator.
Import RobotPoseModel PlainGridMap.
Local Open Scope R_scope.

(** Modelled from the spec: the scan point and the scanner parameters of
    [core/sensor_data.h]. *)
Record ScanPoint : Type := { range : R; angle : R; is_occupied : bool }.

Record LaserScannerParams : Type := {
  max_range : R;
  angle_step : R;
  max_angle : R
}.

(** Modelled from the spec: the beams of a scanner are at
    [-max_angle + k * angle_step]; these are the first [n] of them. *)
Definition beam_angles (p : LaserScannerParams) (n : nat) : list R :=
  List.map (fun k => - max_angle p + INR k * angle_step p) (seq 0 n).

(** The point of the ray of absolute direction [a] at distance [t] from the
    sensor. *)
Definition ray_point (pose : RobotPose) (a t : R) : R * R :=
  (x pose + t * cos a, y pose + t * sin a).

(** The ray passes through cell [c] at distance [t]. *)
Definition passes_through (m : GridMap) (pose : RobotPose) (a : R)
           (c : DiscretePoint2D) (t : R) : Prop :=
  0 <= t /\ in_cell m c (ray_point pose a t).

(** The ray enters cell [c] at distance [t]: the first point of the ray in
    the cell. *)
Definition enters_at (m : GridMap) (pose : RobotPose) (a : R)
           (c : DiscretePoint2D) (t : R) : Prop :=
  passes_through m pose a c t /\
  forall t', passes_through m pose a c t' -> t <= t'.

(** Modelled from the spec: the march of a ray visits, in order of
    distance, every cell the ray passes through and stops at the first
    occupied one; the range is the distance from the sensor to the entry
    point of the ray into that cell. *)
Definition first_hit (m : GridMap) (pose : RobotPose) (a r : R) : Prop :=
  (exists c, occupied m c /\ enters_at m pose a c r) /\
  (forall c t, occupied m c -> passes_through m pose a c t -> r <= t).

(** Modelled from the spec: the outcome of one beam of relative angle
    [beta]: a scan point when an occupied cell is met within [max_range],
    nothing when none is.  The point carries the angle of the beam as it is:
    the beams of the fixture lie in [[-pi, pi)] and the fixture expects them
    unchanged, [-pi] included. *)
Inductive beam_outcome (m : GridMap) (pose : RobotPose) (max_range beta : R)
  : option ScanPoint -> Prop :=
| beam_hit (r : R) :
    first_hit m pose (theta pose + beta) r -> r <= max_range ->
    beam_outcome m pose max_range beta
      (Some {| range := r; angle := beta; is_occupied := true |})
| beam_miss :
    (forall r, first_hit m pose (theta pose + beta) r -> max_range < r) ->
    beam_outcome m pose max_range beta None.

(** Modelled from the spec: [generate_2D_laser_scan], beam after beam; only
    the beams that hit contribute a point, in the order of the beams. *)
Inductive generate_2D_laser_scan (m : GridMap) (pose : RobotPose) (max_range : R)
  : list R -> list ScanPoint -> Prop :=
| scan_done :
    generate_2D_laser_scan m pose max_range [] []
| scan_hit (beta : R) (beams : list R) (sp : ScanPoint) (points : list ScanPoint) :
    beam_outcome m pose max_range beta (Some sp) ->
    generate_2D_laser_scan m pose max_range beams points ->
    generate_2D_laser_scan m pose max_range (beta :: beams) (sp :: points)
| scan_miss (beta : R) (beams : list R) (points : list ScanPoint) :
    beam_outcome m pose max_range beta None ->
    generate_2D_laser_scan m pose max_range beams points ->
    generate_2D_laser_scan m pose max_range (beta :: beams) points.

End LaserScanGenerator.

(** Flat walls, for the oblique incidence law of the specification. *)
Module FlatWall.
Import RobotPoseModel PlainGridMap LaserScanGenerator.
Local Open Scope R_scope.

Inductive Axis : Type := AxisX | AxisY.

Definition other_axis (ax : Axis) : Axis :=
  match ax with AxisX => AxisY | AxisY => AxisX end.

Definition coord (ax : Axis) (p : R * R) : R :=
  match ax with AxisX => fst p | AxisY => snd p end.

Definition cell_coord (ax : Axis) (c : DiscretePoint2D) : Z :=
  match ax with AxisX => fst c | AxisY => snd c end.

Definition make_cell (ax : Axis) (along across : Z) : DiscretePoint2D :=
  match ax with AxisX => (along, across) | AxisY => (across, along) end.

(** The component of the unit direction [a] along an axis. *)
Definition dir_cos (ax : Axis) (a : R) : R :=
  match ax with AxisX => cos a | AxisY => sin a end.

(** The face of a wall: the grid line [coord = wall_line * scale], normal
    to [wall_axis]. *)
Record Wall : Type := { wall_axis : Axis; wall_line : Z }.

Definition wall_plane (m : GridMap) (w : Wall) : R :=
  IZR (wall_line w) * scale m.

(** The distance from the sensor to the face, along the normal. *)
Definition perpendicular_distance (m : GridMap) (pose : RobotPose) (w : Wall) : R :=
  Rabs (wall_plane m w - coord (wall_axis w) (x pose, y pose)).

(** The cosine of the incidence angle, between the ray and the normal. *)
Definition cos_incidence (w : Wall) (a : R) : R :=
  Rabs (dir_cos (wall_axis w) a).

(** The distance at which the ray of direction [a] meets the plane. *)
Definition arrival (m : GridMap) (pose : RobotPose) (a : R) (w : Wall) : R :=
  (wall_plane m w - coord (wall_axis w) (x pose, y pose)) / dir_cos (wall_axis w) a.

(** The cell behind the face where the ray arrives. *)
Definition struck_cell (m : GridMap) (pose : RobotPose) (a : R) (w : Wall)
  : DiscretePoint2D :=
  make_cell (wall_axis w)
    (if Rlt_dec 0 (dir_cos (wall_axis w) a) then wall_line w else (wall_line w - 1)%Z)
    (Zfloor (coord (other_axis (wall_axis w))
                   (ray_point pose a (arrival m pose a w)) / scale m)).

(** A cell is behind the face, seen along the ray. *)
Definition behind (w : Wall) (a : R) (c : DiscretePoint2D) : Prop :=
  if Rlt_dec 0 (dir_cos (wall_axis w) a)
  then (wall_line w <= cell_coord (wall_axis w) c)%Z
  else (cell_coord (wall_axis w) c < wall_line w)%Z.

(** The beam of direction [a] strikes the wall: it travels towards the
    face, the cell behind the face where it arrives is occupied, and every
    occupied cell on its way is behind the face. *)
Definition strikes (m : GridMap) (pose : RobotPose) (a : R) (w : Wall) : Prop :=
  dir_cos (wall_axis w) a <> 0 /\
  0 <= arrival m pose a w /\
  occupied m (struck_cell m pose a w) /\
  (forall c t, occupied m c -> passes_through m pose a c t -> behind w a c).

End FlatWall.

(* ================================================================== *)
(** * test/utils/data_generation/laser_scan_generator_test.cpp *)
(* ================================================================== *)

Module LaserScanGeneratorTest.
Import RobotPoseModel PlainGridMap LaserScanGenerator.
Local Open Scope R_scope.

Definition Cecum_Corridor_Map_Patch : list string :=
  ["+-+"; "| |"; "| |"]%string.

Definition Cecum_Patch_W : Z := 3.
Definition Cecum_Patch_H : Z := 3.
Definition Cecum_Free_W : Z := 1.
Definition Cecum_Free_H : Z := 2.
(* wrt top-left *)
Definition Cecum_Free_X_Start : Z := 1.
Definition Cecum_Free_Y_Start : Z := -1.

Definition Map_Width : Z := 100.
Definition Map_Height : Z := 100.
Definition Map_Scale : R := 1.
Definition Patch_Scale : Z := 10.

(** The character of a text raster at a row and a column. *)
Definition raster_char (raster : list string) (row col : Z) : option ascii :=
  match nth_error raster (Z.to_nat row) with
  | Some line => String.get (Z.to_nat col) line
  | None => None
  end.

(** Modelled from the spec: [GridMapPatcher::apply_text_raster] on the empty
    map of the fixture, by the fixture's own layout (its constants are
    "wrt top-left" and [dbg_print_map_pose] walks [x] upwards from [0] and
    [y] downwards from [0]): the character of row [i] and column [j] fills
    the cells [x] in [[j * w_zoom, (j + 1) * w_zoom)], [y] in
    [(-(i + 1) * h_zoom, -i * h_zoom]]; a blank is a free cell, any other
    character an occupied one; the cells of the empty map are free. *)
Definition apply_text_raster (raster : list string) (w_zoom h_zoom : Z)
           (c : DiscretePoint2D) : R :=
  if (0 <=? fst c)%Z && (snd c <=? 0)%Z then
    match raster_char raster (- snd c / h_zoom) (fst c / w_zoom) with
    | Some ch => if Ascii.eqb ch " "%char then 0 else 1
    | None => 0
    end
  else 0.

(** [patch_map_with_cecum(scale)]. *)
Definition patch_map_with_cecum (scale : Z) : GridMap :=
  {| PlainGridMap.scale := Map_Scale;
     cell_value := apply_text_raster Cecum_Corridor_Map_Patch scale scale |}.

(** The map of the tests that call [prepare_map_and_robot_pose]. *)
Definition map : GridMap := patch_map_with_cecum Patch_Scale.

(** The pose of the fixture before a test moves it: the middle of a cell. *)
Definition rpose_initial : RobotPose :=
  {| x := Map_Scale / 2; y := Map_Scale / 2; theta := 0 |}.

(** [prepare_map_and_robot_pose]: [rpose += rpd]. *)
Definition prepare_robot_pose (rpd : RobotPoseDelta) : RobotPose :=
  pose_add rpose_initial rpd.

(** [lsg{LaserScannerParams{150, deg2rad(90), deg2rad(180)}}]. *)
Definition lsg : LaserScannerParams :=
  {| max_range := 150; angle_step := deg2rad 90; max_angle := deg2rad 180 |}.

(** [ScanPoint{range, angle}]. *)
Definition SP (range angle : R) : ScanPoint :=
  {| range := range; angle := angle; is_occupied := true |}.

(** [ASSERT_NEAR(expected, actual, abs_error)]. *)
Definition near (expected actual abs_error : R) : Prop :=
  Rabs (expected - actual) <= abs_error.

(** [check_scan_point]; the range is compared with the error
    [|abs_err.range / cos(rpose.theta + actual.angle)|], which is written
    here multiplied out, so that a beam across the heading, whose cosine is
    null on the reals and tiny on doubles, is accepted at any range. *)
Definition check_scan_point (rpose : RobotPose)
           (expected actual abs_err : ScanPoint) : Prop :=
  near (angle expected) (angle actual) (angle abs_err) /\
  Rabs (range expected - range actual) * Rabs (cos (theta rpose + angle actual))
    <= Rabs (range abs_err).


(** The default [sp_err = {Map_Scale / 2, 0.001}]. *)
Definition sp_err_default : ScanPoint := SP (Map_Scale / 2) 0.001.

Module insideObstacle4beams.
(** The map of the fixture before any patch: every cell free. *)
Definition empty_map : GridMap :=
  {| PlainGridMap.scale := Map_Scale; cell_value := fun _ => 0 |}.
(** [map[map.world_to_cell(rpose.x, rpose.y)] += occ_obs] with
    [Occupancy{1.0, 1.0}]. *)
Definition map : GridMap :=
  observe_occupied empty_map
    (world_to_cell empty_map (x rpose_initial) (y rpose_initial)).
Definition Expected_SPs : list ScanPoint :=
  [ SP 0 (deg2rad (-180)); SP 0 (deg2rad (-90));
    SP 0 (deg2rad 0); SP 0 (deg2rad 90) ].
End insideObstacle4beams.

Module leftOfCecumEntranceFacingRight4beams.
Definition pose_delta : RobotPoseDelta :=
  {| d_x := IZR (Cecum_Free_X_Start * Patch_Scale) * scale map;
     d_y := IZR (- Cecum_Patch_H * Patch_Scale + 1) * scale map;
     d_theta := deg2rad 0 |}.
Definition rpose : RobotPose := prepare_robot_pose pose_delta.
Definition scale : R := PlainGridMap.scale map * IZR Patch_Scale.
Definition Expected_SPs : list ScanPoint :=
  [ SP (PlainGridMap.scale map) (deg2rad (-180));
    SP (IZR Cecum_Free_W * scale) (deg2rad 0);
    SP (IZR Cecum_Free_H * scale) (deg2rad 90) ].
End leftOfCecumEntranceFacingRight4beams.

Module rightOfCecumEndFacingLeftBot45deg4beams.
Definition pose_delta : RobotPoseDelta :=
  {| d_x := IZR ((Cecum_Free_X_Start + Cecum_Free_W) * Patch_Scale - 1) * scale map;
     d_y := IZR (Cecum_Free_Y_Start * Patch_Scale) * scale map;
     d_theta := deg2rad 225 |}.
Definition rpose : RobotPose := prepare_robot_pose pose_delta.
Definition scale : R := PlainGridMap.scale map * IZR Patch_Scale.
Definition Expected_SPs : list ScanPoint :=
  [ SP (PlainGridMap.scale map) (deg2rad (-180));
    SP (PlainGridMap.scale map) (deg2rad (-90));
    SP (IZR Cecum_Free_W * scale / cos (deg2rad 45)) (deg2rad 0);
    SP (PlainGridMap.scale map) (deg2rad 90) ].
End rightOfCecumEndFacingLeftBot45deg4beams.

Module leftOfCecumEndFacingRightBot30deg4beams.
Definition pose_delta : RobotPoseDelta :=
  {| d_x := IZR (Cecum_Free_X_Start * Patch_Scale) * scale map;
     d_y := IZR (Cecum_Free_Y_Start * Patch_Scale) * scale map;
     d_theta := deg2rad (-30) |}.
Definition rpose : RobotPose := prepare_robot_pose pose_delta.
Definition scale : R := PlainGridMap.scale map * IZR Patch_Scale.
Definition Expected_SPs : list ScanPoint :=
  [ SP (PlainGridMap.scale map) (deg2rad (-180));
    SP (PlainGridMap.scale map) (deg2rad (-90));
    SP (IZR Cecum_Free_W * scale / cos (deg2rad 30)) (deg2rad 0);
    SP (PlainGridMap.scale map) (deg2rad 90) ].
End leftOfCecumEndFacingRightBot30deg4beams.

Module cecumCenterFacingDown8beams240FoW.
Definition pose_delta : RobotPoseDelta :=
  {| d_x := IZR (Cecum_Patch_W * Patch_Scale) * scale map / 2;
     d_y := IZR (Cecum_Free_Y_Start * Patch_Scale
                 - Int32.div (Cecum_Free_H * Patch_Scale) 2) * scale map;
     d_theta := deg2rad (-90) |}.
Definition rpose : RobotPose := prepare_robot_pose pose_delta.
(** [LaserScannerParams{15, deg2rad(270 / 8), deg2rad(270 / 2)}]: the
    quotients are those of [int]. *)
Definition lsgen : LaserScannerParams :=
  {| max_range := 15;
     angle_step := deg2rad (IZR (Int32.div 270 8));
     max_angle := deg2rad (IZR (Int32.div 270 2)) |}.
(** [constexpr double A_Step = 270 / 8;] *)
Definition A_Step : R := IZR (Int32.div 270 8).
Definition left_w : R :=
  IZR (Int32.div (Patch_Scale * Cecum_Free_W) 2 + 1) * scale map.
Definition right_w : R :=
  IZR (Int32.div (Patch_Scale * Cecum_Free_W + 1) 2) * scale map.
Definition Expected_SPs : list ScanPoint :=
  [ SP (left_w / cos (deg2rad (45 - 0 * A_Step))) (deg2rad (-135 + 0 * A_Step));
    SP (left_w / cos (deg2rad (45 - 1 * A_Step))) (deg2rad (-135 + 1 * A_Step));
    SP (left_w / cos (deg2rad (45 - 2 * A_Step))) (deg2rad (-135 + 2 * A_Step));
    SP (left_w / cos (deg2rad (45 - 3 * A_Step))) (deg2rad (-135 + 3 * A_Step));
    (* 0.0 angle *)
    SP (right_w / cos (deg2rad (45 - 3 * A_Step))) (deg2rad (-135 + 5 * A_Step));
    SP (right_w / cos (deg2rad (45 - 2 * A_Step))) (deg2rad (-135 + 6 * A_Step));
    SP (right_w / cos (deg2rad (45 - 1 * A_Step))) (deg2rad (-135 + 7 * A_Step));
    SP (right_w / cos (deg2rad (45 - 0 * A_Step))) (deg2rad (-135 + 8 * A_Step)) ].
End cecumCenterFacingDown8beams240FoW.

End LaserScanGeneratorTest.

(** The cecum-centre scenario as the specification words it. *)
Module CecumCenterScenario.
Import RobotPoseModel LaserScanGenerator FlatWall.
Local Open Scope R_scope.


(** Modelled from the spec: the scanner of the scenario, a field of view of
    270 degrees in steps of [270 / 8 = 33.75] degrees, the quotient being
    that of the reals; the maximal range is the one of the fixture. *)
Definition lsgen : LaserScannerParams :=
  {| max_range := 15; angle_step := deg2rad (270 / 8); max_angle := deg2rad (270 / 2) |}.


(** The faces of the side walls of the corridor: the grid lines [x = 10]
    and [x = 20]. *)
Definition left_wall : Wall := {| wall_axis := AxisX; wall_line := 10 |}.
Definition right_wall : Wall := {| wall_axis := AxisX; wall_line := 20 |}.

End CecumCenterScenario.

(* ================================================================== *)
(** * Properties: the order on doubles *)
(* ================================================================== *)

Import Double MathUtils.

Lemma compare_cont_Eq m n : Pos.compare_cont Eq m n = Pos.compare m n.
Proof. reflexivity. Qed.

Lemma compare_cont_Eq_refl m : Pos.compare_cont Eq m m = Eq.
Proof. apply Pos.compare_refl. Qed.

Lemma SFcompare_antisym x y :
  SFcompare y x = option_map CompOpp (SFcompare x y).
Proof.
  destruct x as [[]|[]| |[] mx ex], y as [[]|[]| |[] my ey]; simpl; try reflexivity;
    rewrite (Z.compare_antisym ey ex); destruct (ey ?= ex); simpl; try reflexivity;
    change (Pos.compare_cont Eq ?a ?b) with (Pos.compare a b);
    rewrite (Pos.compare_antisym mx my); try reflexivity;
    destruct (mx ?= my)%positive; reflexivity.
Qed.

Lemma leb_refl x : is_nan x = false -> leb x x = true.
Proof.
  unfold leb, SFleb. destruct x as [[]|[]| |[] m e]; simpl; try reflexivity; try discriminate;
  intros _; rewrite Z.compare_refl, compare_cont_Eq_refl; reflexivity.
Qed.

Lemma ltb_leb x y : ltb x y = true -> leb x y = true.
Proof. unfold ltb, leb, SFltb, SFleb. destruct (SFcompare x y) as [[]|]; congruence. Qed.

Lemma not_ltb_leb x y : is_nan x = false -> is_nan y = false -> ltb x y = false -> leb y x = true.
Proof.
  unfold ltb, leb, SFltb, SFleb. intros Hx Hy. rewrite (SFcompare_antisym x y).
  destruct (SFcompare x y) as [[]|] eqn:E; simpl; try congruence.
  destruct x, y; simpl in *; congruence.
Qed.

Lemma leb_rank x y :
  leb x y = true <->
  exists rx ry, rank x = Some rx /\ rank y = Some ry /\ rank_le rx ry.
Proof.
  unfold leb, SFleb.
  destruct x as [[]|[]| |[] mx ex], y as [[]|[]| |[] my ey]; simpl;
    try (split; [ intros _; do 2 eexists; repeat split; simpl; lia
                | reflexivity ]);
    try (split; [ discriminate
                | intros (rx & ry & Hx & Hy & H); inversion Hx; inversion Hy; subst;
                  simpl in H; lia ]).
  all: change (Pos.compare_cont Eq ?a ?b) with (Pos.compare a b).
  all: destruct (Z.compare_spec ex ey); destruct (Pos.compare_spec mx my); simpl.
  all: try (split; [ intros _; do 2 eexists; repeat split; simpl; lia
                | reflexivity ]);
    try (split; [ discriminate
                | intros (rx & ry & Hx & Hy & HH); inversion Hx; inversion Hy; subst;
                  simpl in HH; lia ]).
Qed.

Lemma leb_trans x y z : leb x y = true -> leb y z = true -> leb x z = true.
Proof.
  rewrite !leb_rank. intros (rx & ry & Hx & Hy & H1) (ry' & rz & Hy' & Hz & H2).
  rewrite Hy in Hy'. inversion Hy'; subst ry'.
  exists rx, rz. repeat split; trivial.
  destruct rx as [[? ?] ?], ry as [[? ?] ?], rz as [[? ?] ?]. simpl in *. lia.
Qed.

Lemma leb_not_nan x y : leb x y = true -> is_nan x = false /\ is_nan y = false.
Proof. unfold leb, SFleb. destruct x, y; simpl; intuition discriminate. Qed.

(** Two magnitudes that bound each other are the same double. *)
Lemma leb_antisym_abs x y :
  leb (std_abs x) (std_abs y) = true -> leb (std_abs y) (std_abs x) = true ->
  std_abs x = std_abs y.
Proof.
  rewrite !leb_rank.
  intros (rx & ry & Hx & Hy & H1) (ry' & rx' & Hy' & Hx' & H2).
  rewrite Hy in Hy'. rewrite Hx in Hx'. inversion Hy'; inversion Hx'; subst.
  destruct x as [[]|[]| |[] mx ex], y as [[]|[]| |[] my ey]; simpl in *;
    inversion Hx; inversion Hy; subst; simpl in *; try reflexivity; try lia;
    f_equal; lia.
Qed.

Lemma std_max_cases a b : std_max a b = a \/ std_max a b = b.
Proof. unfold std_max. destruct (ltb a b); auto. Qed.

Lemma std_max_ub a b :
  is_nan a = false -> is_nan b = false ->
  leb a (std_max a b) = true /\ leb b (std_max a b) = true.
Proof.
  intros Ha Hb. unfold std_max. destruct (ltb a b) eqn:E.
  - split; [ now apply ltb_leb | now apply leb_refl ].
  - split; [ now apply leb_refl | now apply not_ltb_leb ].
Qed.

Lemma std_abs_real x : is_real x = true -> is_nan (std_abs x) = false.
Proof. destruct x; simpl; congruence. Qed.

Lemma std_max_not_nan a b : is_nan a = false -> is_nan b = false -> is_nan (std_max a b) = false.
Proof. intros. destruct (std_max_cases a b) as [-> | ->]; assumption. Qed.

Lemma std_max3_is_max3 x y z :
  is_nan x = false -> is_nan y = false -> is_nan z = false ->
  is_max3 (std_max x (std_max y z)) x y z.
Proof.
  intros Hx Hy Hz.
  pose proof (std_max_not_nan y z Hy Hz) as Hyz.
  destruct (std_max_ub y z Hy Hz) as [Hy' Hz'].
  destruct (std_max_ub x _ Hx Hyz) as [Hx'' Hyz''].
  split.
  - destruct (std_max_cases x (std_max y z)) as [-> | ->]; auto.
    destruct (std_max_cases y z) as [-> | ->]; auto.
  - repeat split; eauto using leb_trans.
Qed.

Lemma is_max3_unique m x y :
  is_max3 m one (std_abs x) (std_abs y) ->
  m = std_max one (std_max (std_abs x) (std_abs y)).
Proof.
  intros (Hin & H1 & Hx & Hy).
  destruct (leb_not_nan _ _ H1) as [N1 _].
  destruct (leb_not_nan _ _ Hx) as [Nx _].
  destruct (leb_not_nan _ _ Hy) as [Ny _].
  destruct (std_max3_is_max3 _ _ _ N1 Nx Ny) as (Hin' & H1' & Hx' & Hy').
  set (m' := std_max one (std_max (std_abs x) (std_abs y))) in *.
  assert (Hmm' : leb m m' = true) by (destruct Hin as [-> | [-> | ->]]; assumption).
  assert (Hm'm : leb m' m = true) by (destruct Hin' as [-> | [-> | ->]]; assumption).
  assert (Am : exists u, m = std_abs u).
  { destruct Hin as [-> | [-> | ->]]; [exists one; reflexivity | eauto | eauto]. }
  assert (Am' : exists u, m' = std_abs u).
  { destruct Hin' as [-> | [-> | ->]]; [exists one; reflexivity | eauto | eauto]. }
  destruct Am as [u Hu], Am' as [u' Hu']. rewrite Hu, Hu' in *.
  now apply leb_antisym_abs.
Qed.


(** ** Rounding of a product that stays below [2^7] *)

Lemma shr_1_m mrs : 0 <= shr_m mrs -> shr_m (shr_1 mrs) = shr_m mrs / 2.
Proof.
  destruct mrs as [m r s]. cbn [shr_m]. intros Hm.
  destruct m as [|[p|p|]|p]; try lia; cbn [shr_1 shr_m]; try reflexivity.
  - apply Z.div_unique with (r := 1); lia.
  - apply Z.div_unique with (r := 0); lia.
Qed.

Lemma iter_shr_1_m p : forall mrs, 0 <= shr_m mrs ->
  shr_m (iter_pos shr_1 p mrs) = shr_m mrs / 2 ^ Zpos p.
Proof.
  assert (Hnn : forall mrs, 0 <= shr_m mrs -> 0 <= shr_m (shr_1 mrs)).
  { intros mrs H. rewrite shr_1_m by assumption. apply Z.div_pos; lia. }
  induction p as [p IH|p IH|]; intros mrs Hm; cbn [iter_pos].
  - assert (H1 := Hnn _ Hm).
    assert (H2 : 0 <= shr_m (iter_pos shr_1 p (shr_1 mrs))).
    { rewrite IH by assumption. apply Z.div_pos; [assumption | apply Z.pow_pos_nonneg; lia]. }
    rewrite IH, IH, shr_1_m by assumption.
    rewrite !Z.div_div by (try apply Z.pow_pos_nonneg; lia).
    f_equal. replace (Z.pos p~1) with (1 + Z.pos p + Z.pos p) by lia.
    rewrite !Z.pow_add_r by lia. change (2 ^ 1) with 2. ring.
  - assert (H2 : 0 <= shr_m (iter_pos shr_1 p mrs)).
    { rewrite IH by assumption. apply Z.div_pos; [assumption | apply Z.pow_pos_nonneg; lia]. }
    rewrite IH, IH by assumption.
    rewrite !Z.div_div by (try apply Z.pow_pos_nonneg; lia).
    f_equal. replace (Z.pos p~0) with (Z.pos p + Z.pos p) by lia.
    rewrite !Z.pow_add_r by lia. ring.
  - rewrite shr_1_m by assumption. reflexivity.
Qed.

(** [shr] by [n] divides the mantissa by [2^n] and raises the exponent. *)
Lemma shr_m_e mrs e n : 0 <= shr_m mrs ->
  let n' := Z.max n 0 in
  shr_m (fst (shr mrs e n)) = shr_m mrs / 2 ^ n' /\ snd (shr mrs e n) = e + n'.
Proof.
  intros Hm. destruct n as [|p|p]; simpl.
  - rewrite Z.div_1_r. split; [reflexivity | lia].
  - rewrite iter_shr_1_m by assumption. split; reflexivity.
  - rewrite Z.div_1_r. split; [reflexivity | lia].
Qed.

Lemma digits2_pos_bounds m :
  2 ^ (Zpos (digits2_pos m) - 1) <= Zpos m < 2 ^ Zpos (digits2_pos m).
Proof.
  induction m as [m IH|m IH|]; cbn [digits2_pos];
    [ | | cbn; lia ];
    rewrite Pos2Z.inj_succ;
    replace (Z.succ (Z.pos (digits2_pos m)) - 1) with (Z.pos (digits2_pos m)) by lia;
    rewrite Z.pow_succ_r by lia;
    assert (2 ^ Z.pos (digits2_pos m) = 2 * 2 ^ (Z.pos (digits2_pos m) - 1))
      by (rewrite <- Z.pow_succ_r by lia; f_equal; lia);
    lia.
Qed.

Lemma round_nearest_even_bounds m l :
  m <= round_nearest_even m l <= m + 1.
Proof. destruct l as [|[]]; simpl; try lia. destruct (Z.even m); lia. Qed.




(** ** Integral doubles *)

Lemma iter_xO_pos m d : Zpos (Pos.iter xO m d) = Zpos m * 2 ^ Zpos d.
Proof.
  revert m. induction d using Pos.peano_ind; intros m.
  - cbn. lia.
  - rewrite Pos.iter_succ, Pos2Z.inj_xO, IHd, Pos2Z.inj_succ, Z.pow_succ_r by lia. ring.
Qed.

Lemma iter_xO_digits m d :
  Zpos (digits2_pos (Pos.iter xO m d)) = Zpos (digits2_pos m) + Zpos d.
Proof.
  revert m. induction d using Pos.peano_ind; intros m.
  - cbn. lia.
  - rewrite Pos.iter_succ. cbn [digits2_pos]. rewrite Pos2Z.inj_succ, IHd. lia.
Qed.

(** Normalising an integer below [2^53] keeps its value. *)
Lemma binary_normalize_small_integer (s : bool) (m : positive) :
  Zpos m < 2 ^ 53 ->
  exists m' e', binary_round prec emax s m 0 = S754_finite s m' e' /\
                -52 <= e' <= 0 /\ Zpos m' = Zpos m * 2 ^ (- e').
Proof.
  intros Hm.
  pose proof (digits2_pos_bounds m) as [Hlo Hhi].
  assert (Hd : Zpos (digits2_pos m) <= 53).
  { destruct (Z.le_gt_cases (Zpos (digits2_pos m)) 53) as [|Hgt]; [assumption|exfalso].
    assert (2 ^ 53 <= 2 ^ (Zpos (digits2_pos m) - 1)) by (apply Z.pow_le_mono_r; lia).
    lia. }
  unfold binary_round, shl_align.
  assert (Hf : fexp prec emax (Zpos (digits2_pos m) + 0) = Zpos (digits2_pos m) - 53).
  { unfold fexp, emin, prec, emax. lia. }
  rewrite Hf.
  destruct (Zpos (digits2_pos m) - 53 - 0) as [|d|d] eqn:Ed; try lia.
  - (* already 53 digits *)
    exists m, 0. unfold binary_round_aux, shr_fexp.
    cbn [Zdigits2]. rewrite Hf.
    replace (Zpos (digits2_pos m) - 53 - 0) with 0 by lia.
    cbn [shr shr_record_of_loc shr_m loc_of_shr_record round_nearest_even Zdigits2].
    rewrite Hf. replace (Zpos (digits2_pos m) - 53 - 0) with 0 by lia.
    cbn. split; [reflexivity | lia].
  - (* shifted left by d *)
    assert (Hdd : Zpos (digits2_pos m) = 53 - Zpos d) by lia.
    exists (Pos.iter xO m d), (Zpos (digits2_pos m) - 53).
    unfold binary_round_aux, shr_fexp. cbn [Zdigits2].
    assert (Hf2 : fexp prec emax (Zpos (digits2_pos (Pos.iter xO m d))
                                  + (Zpos (digits2_pos m) - 53))
                  = Zpos (digits2_pos m) - 53).
    { rewrite iter_xO_digits. unfold fexp, emin, prec, emax. lia. }
    rewrite Hf2, Z.sub_diag.
    cbn [shr shr_record_of_loc shr_m loc_of_shr_record round_nearest_even Zdigits2].
    rewrite Hf2, Z.sub_diag. cbn [shr shr_m].
    destruct (Z.leb_spec (Zpos (digits2_pos m) - 53) (emax - prec)) as [_|Hbad];
      [| unfold emax, prec in Hbad; lia].
    split; [reflexivity|]. split; [lia|].
    rewrite iter_xO_pos. f_equal. f_equal. lia.
Qed.

Lemma std_trunc_integral (x : double) :
  is_real x = true -> valid_binary prec emax x = true ->
  is_integral (std_trunc x) = true.
Proof.
  destruct x as [s|s| |s m e]; try discriminate; intros _ Hv; [reflexivity|].
  cbn [std_trunc]. destruct (Z.leb_spec 0 e) as [He|He].
  - cbn [is_integral]. apply orb_true_iff. left. now apply Z.leb_le.
  - destruct (Z.shiftr (Zpos m) (- e)) as [|m'|m'] eqn:Es; try reflexivity.
    assert (Hm : Zpos m < 2 ^ 53).
    { cbn [valid_binary] in Hv. unfold bounded, canonical_mantissa in Hv.
      apply andb_true_iff in Hv. destruct Hv as [Hc _]. apply Z.eqb_eq in Hc.
      unfold fexp, emin, prec, emax in Hc.
      destruct (digits2_pos_bounds m) as [_ Hhi].
      assert (2 ^ Zpos (digits2_pos m) <= 2 ^ 53) by (apply Z.pow_le_mono_r; lia).
      lia. }
    assert (Hm' : Zpos m' < 2 ^ 53).
    { rewrite <- Es, Z.shiftr_div_pow2 by lia.
      assert (0 < 2 ^ (- e)) by (apply Z.pow_pos_nonneg; lia).
      assert (Zpos m / 2 ^ (- e) <= Zpos m) by (apply Z.div_le_upper_bound; nia).
      lia. }
    destruct (binary_normalize_small_integer s m' Hm') as (m2 & e2 & Hn & He2 & Hval).
    assert (Hnorm : binary_normalize prec emax (if s then Zneg m' else Zpos m') 0 s
                    = S754_finite s m2 e2)
      by (destruct s; exact Hn).
    rewrite Hnorm. cbn [is_integral]. apply orb_true_iff. right.
    apply Z.eqb_eq. rewrite Hval. apply Z.mod_mul.
    apply Z.pow_nonzero; lia.
Qed.

(* ================================================================== *)
(** * Properties: src/core/math_utils.h *)
(* ================================================================== *)

(** The literal [1e-7] is the correctly rounded quotient [1 / 10^7]. *)
Lemma Eps_literal : Eps = div (of_Z 1) (of_Z 10000000).
Proof. reflexivity. Qed.

Lemma constants_literal :
  one = of_Z 1 /\ minus_one = of_Z (-1) /\ hundred = of_Z 100.
Proof. repeat split. Qed.

(** C3.  [are_equal(a, b)] holds exactly when [|a - b| <= Eps * max(1, |a|, |b|)],
    the difference, the product and the comparison being those of binary64
    and [Eps] the double nearest to [1e-7]: for real (finite) operands the
    scale [max(1, |a|, |b|)] exists, is at least [1], and the tolerance is
    [Eps] times that scale and not a fixed epsilon. *)
Theorem are_equal_scale_relative (a b : double) :
  is_real a = true -> is_real b = true ->
  (exists s, is_max3 s one (std_abs a) (std_abs b)) /\
  (forall s, is_max3 s one (std_abs a) (std_abs b) ->
     (are_equal a b = true <-> leb (std_abs (sub a b)) (mul Eps s) = true)).
Proof.
  intros Ha Hb. split.
  - eexists. apply std_max3_is_max3; [reflexivity | now apply std_abs_real ..].
  - intros s Hs. rewrite (is_max3_unique _ _ _ Hs). unfold are_equal. tauto.
Qed.

(** At [10^9] and [10^9 + 1] the operands differ by [1], far above [Eps], and
    are equal all the same: the tolerance there is [Eps * (10^9 + 1)]. *)
Lemma are_equal_scale_relative_witness :
  are_equal (of_Z 1000000000) (of_Z 1000000001) = true /\
  leb (std_abs (sub (of_Z 1000000000) (of_Z 1000000001))) Eps = false.
Proof.
  split; [| reflexivity].
  apply (proj2 (are_equal_scale_relative (of_Z 1000000000) (of_Z 1000000001)
                 eq_refl eq_refl) (of_Z 1000000001)).
  - unfold is_max3. vm_compute. intuition.
  - vm_compute. reflexivity.
Defined.

(** C7.  [less_or_equal(a, b)] is [are_equal(a, b)] or [a < b], and
    [are_ordered(a, b, c)] is [less_or_equal(a, b)] and [less_or_equal(b, c)]. *)
Theorem less_or_equal_are_ordered_spec (a b c : double) :
  (less_or_equal a b = true <-> are_equal a b = true \/ ltb a b = true) /\
  (are_ordered a b c = true <->
     less_or_equal a b = true /\ less_or_equal b c = true).
Proof.
  unfold are_ordered, less_or_equal. split.
  - apply orb_true_iff.
  - apply andb_true_iff.
Qed.

(** C9.  With a zero factor (of either sign) the ratio is an infinity or NaN,
    never a real number, and [is_multiple_of] answers [false] for every
    double [v], NaN and the infinities included. *)
Theorem is_multiple_of_zero_factor (v : double) (s : bool) :
  is_real (div v (S754_zero s)) = false /\
  is_multiple_of v (S754_zero s) = false.
Proof.
  destruct v as [[]|[]| |[] m e], s; split; reflexivity.
Qed.

(** A few evaluations: [1] and [1 + 1e-8] are equal, [1] and [1 + 1e-6] are
    not; NaN is equal to nothing; [7.5] is a multiple of [2.5], [7] is not a
    multiple of [2]; [trunc(-11/4) = -2]. *)
Example are_equal_examples :
  are_equal one (add one (div one (of_Z 100000000))) = true /\
  are_equal one (add one (div one (of_Z 1000000))) = false /\
  are_equal S754_nan S754_nan = false /\
  is_multiple_of (div (of_Z 15) (of_Z 2)) (div (of_Z 5) (of_Z 2)) = true /\
  is_multiple_of (of_Z 7) (of_Z 2) = false /\
  std_trunc (div (of_Z (-11)) (of_Z 4)) = of_Z (-2) /\
  less_or_equal (of_Z 2) (of_Z 3) = true /\
  are_ordered (of_Z 1) (of_Z 1) (of_Z 0) = false.
Proof. repeat split. Qed.

(** C8.  [is_multiple_of(0.3, 0.1)]: the operands are real and the factor
    is not zero; the ratio is the double [2.9999999999999996], one unit in
    the last place below [3], and it is within the tolerance of the integer
    [3]: [|ratio - 3| <= Eps * |ratio|], and [are_equal] takes the two for
    equal.  The code does not look for the nearest integer: it compares the
    ratio with its truncation, [2], from which the ratio is far, and
    answers [false]. *)
Theorem is_multiple_of_misses_below_integer :
  let value := div (of_Z 3) (of_Z 10) in
  let factor := div (of_Z 1) (of_Z 10) in
  let ratio := div value factor in
  is_real value = true /\ is_real factor = true /\ eqb factor zero = false /\
  ratio = S754_finite false 6755399441055743 (-51) /\
  of_Z 3 = S754_finite false 6755399441055744 (-51) /\
  is_integral (of_Z 3) = true /\
  leb (std_abs (sub ratio (of_Z 3))) (mul Eps (std_abs ratio)) = true /\
  are_equal ratio (of_Z 3) = true /\
  std_trunc ratio = of_Z 2 /\
  are_equal ratio (of_Z 2) = false /\
  is_multiple_of value factor = false.
Proof. repeat split. Qed.

(** ** The sign of a rounded result *)

Lemma shr_fexp_nonneg m e l : 0 <= m -> 0 <= shr_m (fst (shr_fexp prec emax m e l)).
Proof.
  intros Hm. unfold shr_fexp.
  assert (Hrec : 0 <= shr_m (shr_record_of_loc m l)) by (destruct l as [|[]]; assumption).
  destruct (shr_m_e (shr_record_of_loc m l) e (fexp prec emax (Zdigits2 m + e) - e) Hrec)
    as [H1 _].
  rewrite H1. apply Z.div_pos; [assumption | apply Z.pow_pos_nonneg; lia].
Qed.

(** Rounding keeps the sign: the result is a zero, a finite double or an
    infinity of the sign given, never NaN. *)
Lemma binary_round_aux_shape s M E l : 0 <= M ->
  binary_round_aux prec emax s M E l = S754_zero s \/
  (exists m e, binary_round_aux prec emax s M E l = S754_finite s m e) \/
  binary_round_aux prec emax s M E l = S754_infinity s.
Proof.
  intros HM. unfold binary_round_aux.
  pose proof (shr_fexp_nonneg M E l HM) as H1.
  destruct (shr_fexp prec emax M E l) as [mrs' e']. cbn [fst] in H1.
  pose proof (round_nearest_even_bounds (shr_m mrs') (loc_of_shr_record mrs')) as Hr.
  pose proof (shr_fexp_nonneg (round_nearest_even (shr_m mrs') (loc_of_shr_record mrs'))
                e' loc_Exact ltac:(lia)) as H2.
  destruct (shr_fexp prec emax _ e' loc_Exact) as [mrs'' e'']. cbn [fst] in H2.
  destruct (shr_m mrs'') as [|m|m]; [auto | | lia].
  destruct (e'' <=? emax - prec); eauto.
Qed.

Lemma binary_round_aux_opp s M E l :
  binary_round_aux prec emax (negb s) M E l = SFopp (binary_round_aux prec emax s M E l).
Proof.
  unfold binary_round_aux.
  destruct (shr_fexp prec emax M E l) as [mrs' e'].
  destruct (shr_fexp prec emax _ e' loc_Exact) as [mrs'' e''].
  destruct (shr_m mrs'') as [|m|m]; try reflexivity.
  destruct (e'' <=? emax - prec); reflexivity.
Qed.

Lemma binary_round_aux_abs s M E l :
  SFabs (binary_round_aux prec emax s M E l) = SFabs (binary_round_aux prec emax false M E l).
Proof.
  unfold binary_round_aux.
  destruct (shr_fexp prec emax M E l) as [mrs' e'].
  destruct (shr_fexp prec emax _ e' loc_Exact) as [mrs'' e''].
  destruct (shr_m mrs'') as [|m|m]; try reflexivity.
  destruct (e'' <=? emax - prec); reflexivity.
Qed.

Lemma binary_normalize_abs_opp M e :
  SFabs (binary_normalize prec emax (- M) e false) = SFabs (binary_normalize prec emax M e false).
Proof.
  destruct M as [|p|p]; cbn [Z.opp binary_normalize]; try reflexivity;
    unfold binary_round; destruct (shl_align _ _ _) as [mz ez];
    rewrite (binary_round_aux_abs true); reflexivity.
Qed.

(** [|a - b|] and [|b - a|] are the same double. *)
Lemma abs_sub_comm a b : std_abs (sub a b) = std_abs (sub b a).
Proof.
  unfold std_abs, sub.
  destruct a as [[]|[]| |sa ma ea], b as [[]|[]| |sb mb eb]; try reflexivity.
  cbn [SFsub]. rewrite (Z.min_comm eb ea).
  rewrite <- binary_normalize_abs_opp. f_equal. f_equal.
  change IntDef.Z.min with Z.min.
  lia.
Qed.

Lemma mul_opp_l x y : mul (SFopp x) y = SFopp (mul x y).
Proof.
  unfold mul.
  destruct x as [sx|sx| |sx mx ex], y as [sy|sy| |sy my ey]; cbn [SFmul SFopp];
    try reflexivity; try (destruct sx, sy; reflexivity).
  rewrite <- binary_round_aux_opp. destruct sx, sy; reflexivity.
Qed.

Lemma div_opp_l x y : div (SFopp x) y = SFopp (div x y).
Proof.
  unfold div.
  destruct x as [sx|sx| |sx mx ex], y as [sy|sy| |sy my ey]; cbn [SFdiv SFopp];
    try reflexivity; try (destruct sx, sy; reflexivity).
  destruct (SFdiv_core_binary prec emax (Z.pos mx) ex (Z.pos my) ey) as [[mz ez] lz].
  rewrite <- binary_round_aux_opp. destruct sx, sy; reflexivity.
Qed.

(** ** The comparisons and the operands that are not numbers *)

Lemma ltb_asym x y : ltb x y = true -> ltb y x = false.
Proof.
  unfold ltb, SFltb. rewrite (SFcompare_antisym x y).
  destruct (SFcompare x y) as [[]|]; simpl; congruence.
Qed.

Lemma is_nan_abs x : is_nan (std_abs x) = is_nan x.
Proof. destruct x; reflexivity. Qed.

Lemma is_real_not_nan a : is_real a = true -> is_nan a = false.
Proof. destruct a; simpl; congruence. Qed.

Lemma std_max_abs_comm a b :
  is_nan a = false -> is_nan b = false ->
  std_max (std_abs a) (std_abs b) = std_max (std_abs b) (std_abs a).
Proof.
  intros Ha Hb. unfold std_max.
  destruct (ltb (std_abs a) (std_abs b)) eqn:E1.
  - rewrite (ltb_asym _ _ E1). reflexivity.
  - destruct (ltb (std_abs b) (std_abs a)) eqn:E2; [reflexivity|].
    apply leb_antisym_abs; apply not_ltb_leb; rewrite ?is_nan_abs; assumption.
Qed.

Lemma sub_nan a b : is_nan a || is_nan b = true -> sub a b = S754_nan.
Proof.
  destruct a as [[]|[]| |[] ? ?], b as [[]|[]| |[] ? ?]; simpl; try discriminate; reflexivity.
Qed.

Lemma are_equal_comm (a b : double) : are_equal a b = are_equal b a.
Proof.
  unfold are_equal. rewrite (abs_sub_comm a b).
  destruct (is_nan a || is_nan b) eqn:E.
  - assert (E' : is_nan b || is_nan a = true) by (rewrite orb_comm; exact E).
    rewrite (sub_nan b a E'). reflexivity.
  - apply orb_false_iff in E. destruct E as [Ha Hb].
    rewrite (std_max_abs_comm a b Ha Hb). reflexivity.
Qed.

(** The tolerance is never NaN and never negative. *)
Lemma mul_Eps_nonneg x :
  is_nan x = false -> leb zero x = true -> leb zero (mul Eps x) = true.
Proof.
  intros Hn H0. destruct x as [[]|[]| |[] m e]; try discriminate; try reflexivity.
  unfold mul, Eps. cbn [SFmul xorb].
  destruct (binary_round_aux_shape false (Z.pos (7555786372591432 * m)) (-76 + e) loc_Exact
              ltac:(lia)) as [-> | [(m' & e' & ->) | ->]]; reflexivity.
Qed.

Lemma eps_scale_nonneg a b :
  is_nan a = false -> is_nan b = false ->
  let s := std_max one (std_max (std_abs a) (std_abs b)) in
  is_nan s = false /\ leb zero s = true.
Proof.
  intros Ha Hb s.
  assert (Na : is_nan (std_abs a) = false) by now rewrite is_nan_abs.
  assert (Nb : is_nan (std_abs b) = false) by now rewrite is_nan_abs.
  pose proof (std_max_not_nan _ _ Na Nb) as Nab.
  destruct (std_max_ub one _ eq_refl Nab) as [H1 _].
  split; [apply std_max_not_nan; [reflexivity | assumption]|].
  apply leb_trans with one; [reflexivity | exact H1].
Qed.

Lemma sub_diag_real a : is_real a = true -> std_abs (sub a a) = zero.
Proof.
  destruct a as [[]|[]| |s m e]; try discriminate; intros _; try reflexivity.
  unfold sub. cbn [SFsub]. rewrite Z.sub_diag. reflexivity.
Qed.

(** Operands whose difference is a zero are equal, whatever their size. *)
Lemma are_equal_of_zero_diff a b :
  is_nan a = false -> is_nan b = false ->
  std_abs (sub a b) = zero -> are_equal a b = true.
Proof.
  intros Ha Hb Hd. unfold are_equal. rewrite Hd.
  destruct (eps_scale_nonneg a b Ha Hb) as [Hn H0].
  now apply mul_Eps_nonneg.
Qed.

Lemma are_equal_refl_real a : is_real a = true -> are_equal a a = true.
Proof.
  intros Ha. apply are_equal_of_zero_diff; try now apply is_real_not_nan.
  now apply sub_diag_real.
Qed.

(** The real doubles that [==] takes for equal: the same double, or two
    zeros. *)
Lemma eqb_real_cases a b :
  is_real a = true -> eqb a b = true ->
  a = b \/ (exists s1 s2, a = S754_zero s1 /\ b = S754_zero s2).
Proof.
  unfold eqb, SFeqb.
  destruct a as [sa|sa| |sa ma ea], b as [sb|sb| |sb mb eb]; try discriminate; intros _;
    try (destruct sa, sb; discriminate).
  - right; eauto.
  - cbn [SFcompare].
    destruct sa, sb; try discriminate.
    + destruct (Z.compare_spec ea eb) as [He|He|He]; try discriminate.
      subst eb. rewrite compare_cont_Eq, Pos.compare_antisym.
      destruct (Pos.compare_spec mb ma) as [Hm|Hm|Hm]; try discriminate.
      subst. left; reflexivity.
    + destruct (Z.compare_spec ea eb) as [He|He|He]; try discriminate.
      subst eb. rewrite compare_cont_Eq.
      destruct (Pos.compare_spec ma mb) as [Hm|Hm|Hm]; try discriminate.
      subst. left; reflexivity.
Qed.

Lemma leb_cases a b : leb a b = true -> ltb a b = true \/ eqb a b = true.
Proof.
  unfold leb, ltb, eqb, SFleb, SFltb, SFeqb.
  destruct (SFcompare a b) as [[]|]; auto; discriminate.
Qed.

Lemma less_or_equal_of_leb a b :
  is_real a = true -> leb a b = true -> less_or_equal a b = true.
Proof.
  intros Ha H. unfold less_or_equal. apply orb_true_iff.
  destruct (leb_cases a b H) as [Hlt | Heq]; [now right | left].
  destruct (eqb_real_cases a b Ha Heq) as [<- | (s1 & s2 & -> & ->)].
  - now apply are_equal_refl_real.
  - destruct s1, s2; reflexivity.
Qed.

(** X1.  [are_equal(a, a)] holds exactly for the doubles that are real
    numbers: an infinity is not equal to itself, nor is NaN; and two real
    doubles that [==] takes for equal (the same double, or [+0] and [-0])
    are equal for [are_equal]. *)
Theorem are_equal_reflexive (a b : double) :
  (are_equal a a = true <-> is_real a = true) /\
  (is_real a = true -> eqb a b = true -> are_equal a b = true).
Proof.
  split; [split|].
  - destruct a as [[]|[]| |s m e]; try reflexivity; discriminate.
  - apply are_equal_refl_real.
  - intros Ha He. destruct (eqb_real_cases a b Ha He) as [<- | (s1 & s2 & -> & ->)].
    + now apply are_equal_refl_real.
    + destruct s1, s2; reflexivity.
Qed.

(** X2.  [are_equal] is symmetric: [are_equal(a, b)] and [are_equal(b, a)]
    give the same answer for all doubles, NaN and the infinities included;
    the distance [|a - b|] is the same double both ways. *)
Theorem are_equal_symmetric (a b : double) :
  are_equal a b = are_equal b a /\
  std_abs (sub a b) = std_abs (sub b a).
Proof. split; [apply are_equal_comm | apply abs_sub_comm]. Qed.

(** X3.  Operands that are not numbers.  NaN is equal to nothing.  An
    infinity is equal to every double except itself and NaN: to every
    finite double and to the opposite infinity, since both sides of the
    comparison are then [+inf]. *)
Theorem are_equal_non_finite (b : double) (s : bool) :
  are_equal S754_nan b = false /\
  are_equal b S754_nan = false /\
  (are_equal (S754_infinity s) b = true <->
   is_nan b = false /\ b <> S754_infinity s) /\
  (are_equal b (S754_infinity s) = true <->
   is_nan b = false /\ b <> S754_infinity s).
Proof.
  assert (Hinf : are_equal (S754_infinity s) b = true <->
                 is_nan b = false /\ b <> S754_infinity s).
  { destruct b as [sb|sb| |sb mb eb].
    - split; [intros _; split; [reflexivity | discriminate]
             | intros _; destruct s, sb; reflexivity].
    - destruct s, sb; split; try (intros _; split; [reflexivity | discriminate]);
        try reflexivity; try discriminate; intros [_ H]; now elim H.
    - split; [discriminate | intros [H _]; discriminate].
    - split; [intros _; split; [reflexivity | discriminate]
             | intros _; destruct s, sb; reflexivity]. }
  split; [reflexivity|]. split; [|split; [exact Hinf|]].
  - rewrite are_equal_comm. reflexivity.
  - rewrite are_equal_comm. exact Hinf.
Qed.

(** X4.  On real doubles [less_or_equal] accepts every pair that [<=]
    accepts, and is total: of [less_or_equal(a, b)] and
    [less_or_equal(b, a)] one holds.  It is not [<=] on the infinities:
    [inf <= inf] holds and [less_or_equal(inf, inf)] does not. *)
Theorem less_or_equal_extends_leb (a b : double) (s : bool) :
  (is_real a = true -> is_real b = true ->
     (leb a b = true -> less_or_equal a b = true) /\
     (less_or_equal a b = true \/ less_or_equal b a = true)) /\
  (leb (S754_infinity s) (S754_infinity s) = true /\
   less_or_equal (S754_infinity s) (S754_infinity s) = false).
Proof.
  split.
  - intros Ha Hb. split; [now apply less_or_equal_of_leb|].
    destruct (ltb a b) eqn:E.
    + left. unfold less_or_equal. rewrite E. apply orb_true_r.
    + right. apply less_or_equal_of_leb; [assumption|].
      apply not_ltb_leb; try assumption; now apply is_real_not_nan.
  - destruct s; split; reflexivity.
Qed.

Lemma less_or_equal_extends_leb_witness :
  (leb (of_Z 2) (of_Z 3) = true -> less_or_equal (of_Z 2) (of_Z 3) = true) /\
  (less_or_equal (of_Z 2) (of_Z 3) = true \/ less_or_equal (of_Z 3) (of_Z 2) = true).
Proof.
  apply (proj1 (less_or_equal_extends_leb (of_Z 2) (of_Z 3) false)); reflexivity.
Defined.

(** X5.  [are_ordered(a, b, c)] holds for real doubles with [a <= b <= c],
    and the interval made of one point holds what [are_equal] takes for
    that point: [are_ordered(a, b, a)] is [are_equal(a, b)]. *)
Theorem are_ordered_interval (a b c : double) :
  (is_real a = true -> is_real b = true ->
   leb a b = true -> leb b c = true -> are_ordered a b c = true) /\
  are_ordered a b a = are_equal a b.
Proof.
  split.
  - intros Ha Hb Hab Hbc. unfold are_ordered.
    rewrite (less_or_equal_of_leb a b Ha Hab), (less_or_equal_of_leb b c Hb Hbc).
    reflexivity.
  - unfold are_ordered, less_or_equal. rewrite (are_equal_comm b a).
    destruct (are_equal a b); [reflexivity|]. cbn [orb].
    destruct (ltb a b) eqn:E; [|reflexivity].
    rewrite (ltb_asym _ _ E). reflexivity.
Qed.

Lemma are_ordered_interval_witness :
  are_ordered (of_Z 1) (of_Z 2) (of_Z 2) = true.
Proof.
  apply (proj1 (are_ordered_interval (of_Z 1) (of_Z 2) (of_Z 2))); reflexivity.
Defined.

(** ** Ratios that are integers *)

Lemma shl_align_value m e e' :
  e' <= e -> Zpos (fst (shl_align m e e')) = Zpos m * 2 ^ (e - e').
Proof.
  intros H. unfold shl_align.
  destruct (e' - e) as [|d|d] eqn:Ed; cbn [fst].
  - replace (e - e') with 0 by lia. lia.
  - lia.
  - rewrite iter_xO_pos. f_equal. f_equal. lia.
Qed.

Lemma valid_mantissa_bound s m e :
  valid_binary prec emax (S754_finite s m e) = true -> Zpos m < 2 ^ 53.
Proof.
  intros Hv. cbn [valid_binary] in Hv. unfold bounded, canonical_mantissa in Hv.
  apply andb_true_iff in Hv. destruct Hv as [Hc _]. apply Z.eqb_eq in Hc.
  unfold fexp, emin, prec, emax in Hc.
  destruct (digits2_pos_bounds m) as [_ Hhi].
  assert (2 ^ Zpos (digits2_pos m) <= 2 ^ 53) by (apply Z.pow_le_mono_r; lia).
  lia.
Qed.

(** An integral double and its truncation differ by a zero. *)
Lemma sub_trunc_integral r :
  is_real r = true -> valid_binary prec emax r = true -> is_integral r = true ->
  is_real (std_trunc r) = true /\ std_abs (sub r (std_trunc r)) = zero.
Proof.
  destruct r as [s|s| |s m e]; try discriminate; intros _ Hv Hi.
  - split; [reflexivity | destruct s; reflexivity].
  - cbn [std_trunc]. destruct (Z.leb_spec 0 e) as [He|He].
    + split; [reflexivity | now apply sub_diag_real].
    + cbn [is_integral] in Hi. apply orb_true_iff in Hi.
      destruct Hi as [Hi|Hi]; [apply Z.leb_le in Hi; lia|]. apply Z.eqb_eq in Hi.
      assert (Hp : 0 < 2 ^ (- e)) by (apply Z.pow_pos_nonneg; lia).
      rewrite Z.shiftr_div_pow2 by lia.
      assert (Hm : Zpos m = 2 ^ (- e) * (Zpos m / 2 ^ (- e))).
      { rewrite (Z.div_mod (Zpos m) (2 ^ (- e))) at 1 by lia. lia. }
      destruct (Zpos m / 2 ^ (- e)) as [|m'|m'] eqn:Eq; try nia.
      pose proof (valid_mantissa_bound s m e Hv) as Hb.
      assert (Hm' : Zpos m' < 2 ^ 53) by nia.
      destruct (binary_normalize_small_integer s m' Hm') as (m2 & e2 & Hn & He2 & Hval).
      assert (Hnorm : binary_normalize prec emax (if s then Zneg m' else Zpos m') 0 s
                      = S754_finite s m2 e2)
        by (destruct s; exact Hn).
      rewrite Hnorm. split; [reflexivity|].
      unfold sub. cbn [SFsub]. change IntDef.Z.min with Z.min.
      set (ez := Z.min e e2).
      rewrite (shl_align_value m e ez), (shl_align_value m2 e2 ez) by (unfold ez; lia).
      replace (cond_Zopp s (Zpos m * 2 ^ (e - ez)) - cond_Zopp s (Zpos m2 * 2 ^ (e2 - ez)))
        with 0; [reflexivity|].
      assert (Heq : Zpos m * 2 ^ (e - ez) = Zpos m2 * 2 ^ (e2 - ez)).
      { rewrite Hval, Hm.
        replace (2 ^ (- e) * Zpos m' * 2 ^ (e - ez))
          with (Zpos m' * (2 ^ (- e) * 2 ^ (e - ez))) by ring.
        rewrite <- Z.mul_assoc.
        rewrite <- !Z.pow_add_r by (unfold ez; lia).
        f_equal. f_equal. lia. }
      rewrite Heq. destruct s; cbn [cond_Zopp]; lia.
Qed.

(** X6.  [is_multiple_of] accepts every ratio that is an integer: when the
    quotient [value / factor], as binary64 computes it, is a real number
    whose value is integral, the answer is [true], whatever the size of the
    ratio. *)
Theorem is_multiple_of_integral_ratio (value factor : double) :
  let ratio := div value factor in
  is_real ratio = true -> valid_binary prec emax ratio = true ->
  is_integral ratio = true ->
  is_multiple_of value factor = true.
Proof.
  intros ratio Hr Hv Hi. unfold is_multiple_of. fold ratio.
  destruct (sub_trunc_integral ratio Hr Hv Hi) as [Ht Hd].
  apply are_equal_of_zero_diff; try assumption; now apply is_real_not_nan.
Qed.

(** [6 / 3] is the double [2]. *)
Lemma is_multiple_of_integral_ratio_witness :
  is_multiple_of (of_Z 6) (of_Z 3) = true.
Proof.
  apply (is_multiple_of_integral_ratio (of_Z 6) (of_Z 3)); reflexivity.
Defined.

(** X7.  Operands of [is_multiple_of] that are not numbers.  Every real
    value is a multiple of an infinity (the ratio is a zero); a value that
    is an infinity or NaN is a multiple of nothing; nothing is a multiple
    of NaN. *)
Theorem is_multiple_of_non_finite (v f : double) (s : bool) :
  (is_real v = true -> is_multiple_of v (S754_infinity s) = true) /\
  (is_real v = false -> is_multiple_of v f = false) /\
  is_multiple_of v S754_nan = false.
Proof.
  split; [|split].
  - destruct v as [[]|[]| |[] m e], s; try discriminate; intros _; reflexivity.
  - destruct v as [[]|[]| |[] m e]; try discriminate; intros _;
      destruct f as [[]|[]| |[] mf ef]; reflexivity.
  - destruct v as [[]|[]| |[] m e]; reflexivity.
Qed.

Lemma is_multiple_of_non_finite_witness :
  is_multiple_of (of_Z 5) (S754_infinity false) = true /\
  is_multiple_of (S754_infinity true) (of_Z 5) = false.
Proof.
  split.
  - apply (proj1 (is_multiple_of_non_finite (of_Z 5) zero false)). reflexivity.
  - apply (proj1 (proj2 (is_multiple_of_non_finite (S754_infinity true) (of_Z 5) false))).
    reflexivity.
Defined.

(** X8.  A zero, of either sign, is a multiple of every factor that is
    neither a zero nor NaN. *)
Theorem is_multiple_of_zero_value (f : double) (s : bool) :
  is_nan f = false -> eqb f zero = false ->
  is_multiple_of (S754_zero s) f = true.
Proof.
  destruct f as [[]|[]| |[] mf ef], s; try discriminate; intros _ _; reflexivity.
Qed.

Lemma is_multiple_of_zero_value_witness :
  is_multiple_of (S754_zero true) (of_Z 3) = true.
Proof.
  apply (is_multiple_of_zero_value (of_Z 3) true); reflexivity.
Defined.

(** ** The angle conversions *)

Section AngleFacts.
Import MathUtilsAngles.

(** X9.  [deg2rad] and [rad2deg] are odd: the conversion of [-x] is the
    opposite of the conversion of [x], bit for bit, for every double. *)
Theorem deg2rad_rad2deg_odd (x : double) :
  deg2rad (SFopp x) = SFopp (deg2rad x) /\
  rad2deg (SFopp x) = SFopp (rad2deg x).
Proof.
  unfold deg2rad, rad2deg. rewrite !mul_opp_l, !div_opp_l. split; reflexivity.
Qed.

Lemma Z_range_in (lo n k : Z) :
  lo <= k < lo + n -> In k (List.map (fun j => lo + Z.of_nat j) (seq 0 (Z.to_nat n))).
Proof.
  intros H. apply in_map_iff. exists (Z.to_nat (k - lo)). split; [lia|].
  apply in_seq. lia.
Qed.

Lemma whole_degrees_checked :
  forallb (fun k => are_equal (rad2deg (deg2rad (of_Z k))) (of_Z k)
                    && are_equal (deg2rad (rad2deg (of_Z k))) (of_Z k))
          (List.map (fun j => -720 + Z.of_nat j) (seq 0 (Z.to_nat 1441))) = true.
Proof. vm_compute. reflexivity. Qed.

(** X10.  A whole number of degrees (or of radians) between [-720] and
    [720] converted to radians and back gives a double that [are_equal]
    takes for the number.  The round trip is not exact: [30] degrees comes
    back as another double; [deg2rad(180)] is [M_PI]. *)
Theorem deg2rad_rad2deg_round_trip (k : Z) :
  (-720 <= k <= 720 ->
   are_equal (rad2deg (deg2rad (of_Z k))) (of_Z k) = true /\
   are_equal (deg2rad (rad2deg (of_Z k))) (of_Z k) = true) /\
  eqb (rad2deg (deg2rad (of_Z 30))) (of_Z 30) = false /\
  deg2rad (of_Z 180) = M_PI.
Proof.
  split; [|split; reflexivity].
  intros Hk. apply andb_true_iff.
  apply (proj1 (forallb_forall _ _) whole_degrees_checked k).
  apply (Z_range_in (-720) 1441). lia.
Qed.

Lemma deg2rad_rad2deg_round_trip_witness :
  are_equal (rad2deg (deg2rad (of_Z 90))) (of_Z 90) = true /\
  are_equal (deg2rad (rad2deg (of_Z 90))) (of_Z 90) = true.
Proof.
  apply (proj1 (deg2rad_rad2deg_round_trip 90)). lia.
Defined.

End AngleFacts.

(** ** Integers held in doubles *)

(** The number of binary digits is fixed by the power of two bounds. *)
Lemma digits2_pos_unique (m : positive) (d : Z) :
  2 ^ (d - 1) <= Zpos m < 2 ^ d -> Zpos (digits2_pos m) = d.
Proof.
  intros [Hlo Hhi]. destruct (digits2_pos_bounds m) as [Dlo Dhi].
  set (d' := Zpos (digits2_pos m)) in *.
  assert (Hd : 0 < d).
  { destruct (Z.lt_ge_cases 0 d) as [|Hneg]; [assumption|exfalso].
    destruct (Z.eq_dec d 0) as [->|Hd0]; [cbn in Hhi; lia|].
    rewrite Z.pow_neg_r in Hhi by lia. lia. }
  destruct (Z.lt_trichotomy d' d) as [Hlt | [Heq | Hgt]]; [exfalso | assumption | exfalso].
  - assert (2 ^ d' <= 2 ^ (d - 1)) by (apply Z.pow_le_mono_r; lia). lia.
  - assert (2 ^ d <= 2 ^ (d' - 1)) by (apply Z.pow_le_mono_r; lia). lia.
Qed.

Lemma digits2_pos_mul_pow2 (K : positive) (c : Z) (q : positive) :
  0 <= c -> Zpos q = Zpos K * 2 ^ c ->
  Zpos (digits2_pos q) = Zpos (digits2_pos K) + c.
Proof.
  intros Hc Hq. apply digits2_pos_unique. rewrite Hq.
  destruct (digits2_pos_bounds K) as [Dlo Dhi].
  assert (Hp : 0 < 2 ^ c) by (apply Z.pow_pos_nonneg; lia).
  replace (Zpos (digits2_pos K) + c - 1) with (Zpos (digits2_pos K) - 1 + c) by lia.
  rewrite !Z.pow_add_r by lia. nia.
Qed.

Lemma shr_1_even x :
  0 <= x ->
  shr_1 {| shr_m := 2 * x; shr_r := false; shr_s := false |}
  = {| shr_m := x; shr_r := false; shr_s := false |}.
Proof. destruct x as [|p|p]; try lia; reflexivity. Qed.

Lemma iter_shr_1_exact p : forall x, 0 <= x ->
  iter_pos shr_1 p {| shr_m := x * 2 ^ Zpos p; shr_r := false; shr_s := false |}
  = {| shr_m := x; shr_r := false; shr_s := false |}.
Proof.
  induction p as [p IH|p IH|]; intros x Hx; cbn [iter_pos].
  - replace (x * 2 ^ Zpos p~1) with (2 * ((x * 2 ^ Zpos p) * 2 ^ Zpos p)).
    + assert (0 < 2 ^ Zpos p) by (apply Z.pow_pos_nonneg; lia).
      rewrite shr_1_even by nia. rewrite IH by nia. now apply IH.
    + replace (Zpos p~1) with (1 + Zpos p + Zpos p) by lia.
      rewrite !Z.pow_add_r by lia. change (2 ^ 1) with 2. ring.
  - replace (x * 2 ^ Zpos p~0) with ((x * 2 ^ Zpos p) * 2 ^ Zpos p).
    + assert (0 < 2 ^ Zpos p) by (apply Z.pow_pos_nonneg; lia).
      rewrite IH by nia. now apply IH.
    + replace (Zpos p~0) with (Zpos p + Zpos p) by lia.
      rewrite !Z.pow_add_r by lia. ring.
  - replace (x * 2 ^ 1) with (2 * x) by (change (2 ^ 1) with 2; ring).
    now apply shr_1_even.
Qed.

Lemma shr_exact x e n :
  0 <= x -> 0 <= n ->
  shr {| shr_m := x * 2 ^ n; shr_r := false; shr_s := false |} e n
  = ({| shr_m := x; shr_r := false; shr_s := false |}, e + n).
Proof.
  intros Hx Hn. destruct n as [|p|p]; try lia; cbn [shr].
  - rewrite Z.mul_1_r, Z.add_0_r. reflexivity.
  - rewrite iter_shr_1_exact by assumption. reflexivity.
Qed.

Lemma fexp_normal d : -1021 <= d -> fexp prec emax d = d - 53.
Proof. intros H1. unfold fexp, emin, prec, emax. change IntDef.Z.max with Z.max. lia. Qed.

(** Rounding the integer [K] given as [K * 2^c * 2^(-c)], the mantissa
    holding at least 53 digits: the result is [K] on 53 digits. *)
Lemma binary_round_aux_exact (s : bool) (K : positive) (c : Z) :
  let dK := Zpos (digits2_pos K) in
  dK <= 53 -> 53 <= dK + c ->
  exists m : positive,
    binary_round_aux prec emax s (Zpos K * 2 ^ c) (- c) loc_Exact
      = S754_finite s m (dK - 53) /\
    Zpos m = Zpos K * 2 ^ (53 - dK) /\
    Zpos (digits2_pos m) = 53.
Proof.
  intros dK Hd Hc.
  assert (HdK : 1 <= dK) by (unfold dK; lia).
  assert (Hc0 : 0 <= c) by lia.
  assert (Hpc : 0 < 2 ^ c) by (apply Z.pow_pos_nonneg; lia).
  assert (Hpd : 0 < 2 ^ (53 - dK)) by (apply Z.pow_pos_nonneg; lia).
  destruct (Zpos K * 2 ^ c) as [|q|q] eqn:Eq; try lia.
  destruct (Zpos K * 2 ^ (53 - dK)) as [|m|m] eqn:Em; try lia.
  pose proof (digits2_pos_mul_pow2 K c q Hc0 (eq_sym Eq)) as Hdq. fold dK in Hdq.
  pose proof (digits2_pos_mul_pow2 K (53 - dK) m ltac:(lia) (eq_sym Em)) as Hdm. fold dK in Hdm.
  exists m. split; [|split; [reflexivity | lia]].
  unfold binary_round_aux, shr_fexp. cbn [Zdigits2 shr_record_of_loc].
  rewrite Hdq. replace (dK + c + - c) with dK by lia.
  rewrite fexp_normal by lia.
  set (n := dK - 53 - - c).
  assert (Hn : 0 <= n) by (unfold n; lia).
  assert (Hq : Zpos q = Zpos m * 2 ^ n).
  { rewrite <- Eq, <- Em, <- Z.mul_assoc, <- Z.pow_add_r by lia.
    f_equal. f_equal. unfold n. lia. }
  rewrite Hq, shr_exact by lia.
  cbn [shr_m loc_of_shr_record round_nearest_even Zdigits2 shr_record_of_loc].
  rewrite Hdm. replace (- c + n) with (dK - 53) by (unfold n; lia).
  rewrite fexp_normal by lia.
  match goal with |- context [shr _ _ ?k] => replace k with 0 by lia end.
  cbn [shr shr_m].
  destruct (Z.leb_spec (dK - 53) (emax - prec)) as [_|Hbad];
    [reflexivity | unfold emax, prec in Hbad; lia].
Qed.

Lemma shl_align_snd m e e' : e' <= e -> snd (shl_align m e e') = e'.
Proof.
  intros H. unfold shl_align. destruct (e' - e) as [|d|d] eqn:Ed; cbn [snd]; lia.
Qed.

Lemma digits_le_53 (K : positive) : Zpos K < 2 ^ 53 -> Zpos (digits2_pos K) <= 53.
Proof.
  intros HK. destruct (digits2_pos_bounds K) as [Hlo _].
  destruct (Z.le_gt_cases (Zpos (digits2_pos K)) 53) as [|Hgt]; [assumption|exfalso].
  assert (2 ^ 53 <= 2 ^ (Zpos (digits2_pos K) - 1)) by (apply Z.pow_le_mono_r; lia).
  lia.
Qed.

(** An integer below [2^53] in magnitude converts to a double of 53 digits
    with the same value. *)
Lemma of_Z_normal (a : Z) (K : positive) :
  Z.abs a = Zpos K -> Zpos K < 2 ^ 53 ->
  exists m : positive,
    of_Z a = S754_finite (a <? 0) m (Zpos (digits2_pos K) - 53) /\
    Zpos m = Zpos K * 2 ^ (53 - Zpos (digits2_pos K)) /\
    Zpos (digits2_pos m) = 53.
Proof.
  intros Ha HK. pose proof (digits_le_53 K HK) as Hd.
  set (dK := Zpos (digits2_pos K)) in *.
  assert (Hround : forall s, exists m : positive,
             binary_round prec emax s K 0 = S754_finite s m (dK - 53) /\
             Zpos m = Zpos K * 2 ^ (53 - dK) /\ Zpos (digits2_pos m) = 53).
  { intros s. unfold binary_round.
    rewrite Z.add_0_r. fold dK. rewrite fexp_normal by (unfold dK; lia).
    pose proof (shl_align_value K 0 (dK - 53) ltac:(lia)) as Hv.
    pose proof (shl_align_snd K 0 (dK - 53) ltac:(lia)) as Hs.
    destruct (shl_align K 0 (dK - 53)) as [mz ez]. cbn [fst snd] in Hv, Hs. subst ez.
    replace (0 - (dK - 53)) with (53 - dK) in Hv by lia.
    destruct (binary_round_aux_exact s K (53 - dK) ltac:(fold dK; lia) ltac:(fold dK; lia))
      as (m & Hm & Hval & Hdig).
    fold dK in Hm, Hval.
    exists m. rewrite Hv. replace (dK - 53) with (- (53 - dK)) at 1 by lia.
    split; [exact Hm | split; assumption]. }
  destruct a as [|p|p]; cbn in Ha; try discriminate; injection Ha as ->.
  - exact (Hround false).
  - exact (Hround true).
Qed.

Lemma div_eucl_exact (a b q : Z) :
  0 < b -> a = b * q -> Z.div_eucl a b = (q, 0).
Proof.
  intros Hb Ha.
  pose proof (Z_div_mod a b ltac:(lia)) as H.
  destruct (Z.div_eucl a b) as [q' r']. destruct H as [H1 H2].
  assert (q' = q) by nia. subst q'. f_equal. lia.
Qed.

(** The quotient of two integral doubles of 53 digits whose values divide
    exactly is the exact quotient, on 53 digits. *)
Lemma div_exact (sa sn : bool) (Kk Nn : positive) (ma mn : positive) :
  let dA := Zpos (digits2_pos (Kk * Nn)) in
  let dN := Zpos (digits2_pos Nn) in
  let dK := Zpos (digits2_pos Kk) in
  Zpos (Kk * Nn) < 2 ^ 53 ->
  Zpos ma = Zpos (Kk * Nn) * 2 ^ (53 - dA) -> Zpos (digits2_pos ma) = 53 ->
  Zpos mn = Zpos Nn * 2 ^ (53 - dN) -> Zpos (digits2_pos mn) = 53 ->
  exists m : positive,
    div (S754_finite sa ma (dA - 53)) (S754_finite sn mn (dN - 53))
      = S754_finite (xorb sa sn) m (dK - 53) /\
    Zpos m = Zpos Kk * 2 ^ (53 - dK) /\
    Zpos (digits2_pos m) = 53.
Proof.
  intros dA dN dK HA Hma Hda Hmn Hdn.
  assert (HN : Zpos Nn < 2 ^ 53) by nia.
  assert (HK : Zpos Kk < 2 ^ 53) by nia.
  pose proof (digits_le_53 _ HA) as HdA. fold dA in HdA.
  pose proof (digits_le_53 _ HN) as HdN. fold dN in HdN.
  pose proof (digits_le_53 _ HK) as HdK. fold dK in HdK.
  assert (H1A : 1 <= dA) by (unfold dA; lia).
  assert (H1N : 1 <= dN) by (unfold dN; lia).
  assert (H1K : 1 <= dK) by (unfold dK; lia).
  unfold div. cbn [SFdiv]. unfold SFdiv_core_binary. cbn [Zdigits2].
  rewrite Hda, Hdn.
  replace (53 + (dA - 53) - (53 + (dN - 53))) with (dA - dN) by lia.
  rewrite fexp_normal by lia.
  change IntDef.Z.min with Z.min. change IntDef.Z.shiftl with Z.shiftl.
  change IntDef.Z.div_eucl with Z.div_eucl.
  replace (Z.min (dA - dN - 53) (dA - 53 - (dN - 53))) with (dA - dN - 53) by lia.
  replace (dA - 53 - (dN - 53) - (dA - dN - 53)) with 53 by lia.
  cbv iota beta.
  rewrite Z.shiftl_mul_pow2 by lia.
  set (c := 53 + dN - dA).
  assert (Hc : 1 <= c) by (unfold c; lia).
  assert (Hexact : Zpos ma * 2 ^ 53 = Zpos mn * (Zpos Kk * 2 ^ c)).
  { rewrite Hma, Hmn, Pos2Z.inj_mul.
    replace (Z.pos Kk * Z.pos Nn * 2 ^ (53 - dA) * 2 ^ 53)
      with (Z.pos Kk * Z.pos Nn * (2 ^ (53 - dA) * 2 ^ 53)) by ring.
    replace (Z.pos Nn * 2 ^ (53 - dN) * (Z.pos Kk * 2 ^ c))
      with (Z.pos Kk * Z.pos Nn * (2 ^ (53 - dN) * 2 ^ c)) by ring.
    rewrite <- !Z.pow_add_r by lia. f_equal. f_equal. unfold c. lia. }
  rewrite (div_eucl_exact (Zpos ma * 2 ^ 53) (Zpos mn) (Zpos Kk * 2 ^ c) ltac:(lia) Hexact).
  assert (Hloc : new_location (Zpos mn) 0 = loc_Exact).
  { unfold new_location, new_location_even, new_location_odd.
    destruct (IntDef.Z.even (Zpos mn)); reflexivity. }
  rewrite Hloc.
  (* the quotient holds at least 53 digits *)
  assert (Hp53 : 0 < 2 ^ 53) by (apply Z.pow_pos_nonneg; lia).
  assert (Hpc : 0 < 2 ^ c) by (apply Z.pow_pos_nonneg; lia).
  destruct (digits2_pos_bounds ma) as [Malo _]. rewrite Hda in Malo.
  destruct (digits2_pos_bounds mn) as [_ Mnhi]. rewrite Hdn in Mnhi.
  change (2 ^ (53 - 1)) with (2 ^ 52) in Malo.
  assert (Hq52 : 2 ^ 52 < Zpos Kk * 2 ^ c).
  { assert (2 ^ 52 * 2 ^ 53 <= Zpos mn * (Zpos Kk * 2 ^ c)) by (rewrite <- Hexact; nia).
    nia. }
  assert (Hdig : 53 <= dK + c).
  { destruct (Z.le_gt_cases 53 (dK + c)) as [|Hlt]; [assumption|exfalso].
    destruct (digits2_pos_bounds Kk) as [_ Khi]. fold dK in Khi.
    assert (Zpos Kk * 2 ^ c < 2 ^ dK * 2 ^ c) by nia.
    rewrite <- Z.pow_add_r in H by lia.
    assert (2 ^ (dK + c) <= 2 ^ 52) by (apply Z.pow_le_mono_r; lia).
    lia. }
  replace (dA - dN - 53) with (- c) by (unfold c; lia).
  destruct (binary_round_aux_exact (xorb sa sn) Kk c HdK Hdig) as (m & Hm & Hval & Hd53).
  exists m. split; [exact Hm | split; assumption].
Qed.

Lemma normal_form_valid (s : bool) (K m : positive) :
  let dK := Zpos (digits2_pos K) in
  dK <= 53 ->
  Zpos m = Zpos K * 2 ^ (53 - dK) -> Zpos (digits2_pos m) = 53 ->
  valid_binary prec emax (S754_finite s m (dK - 53)) = true /\
  is_integral (S754_finite s m (dK - 53)) = true.
Proof.
  intros dK Hd Hm Hdm. assert (H1 : 1 <= dK) by (unfold dK; lia). split.
  - cbn [valid_binary]. unfold bounded, canonical_mantissa.
    rewrite Hdm. replace (53 + (dK - 53)) with dK by lia.
    rewrite fexp_normal by lia. rewrite Z.eqb_refl. cbn [andb].
    apply Z.leb_le. unfold emax, prec. lia.
  - cbn [is_integral]. apply orb_true_iff. right. apply Z.eqb_eq.
    rewrite Hm. replace (- (dK - 53)) with (53 - dK) by lia.
    apply Z.mod_mul. apply Z.pow_nonzero; lia.
Qed.

(** X11.  Exact multiples of integers are recognised: for integers [k] and
    [n <> 0] with [|n|] and [|k * n|] below [2^53], the double [k * n] is a
    multiple of the double [n]; the quotient is computed without error, it
    is the double [k]. *)
Theorem is_multiple_of_integers (k n : Z) :
  n <> 0 -> Z.abs n < 2 ^ 53 -> Z.abs (k * n) < 2 ^ 53 ->
  is_multiple_of (of_Z (k * n)) (of_Z n) = true /\
  (k <> 0 -> div (of_Z (k * n)) (of_Z n) = of_Z k).
Proof.
  intros Hn HN HA.
  destruct (Z.abs n) as [|Nn|Nn] eqn:En; try lia.
  destruct (of_Z_normal n Nn En HN) as (mn & Hofn & Hmn & Hdn).
  destruct (Z.eq_dec k 0) as [-> | Hk].
  - split; [|intros H; now elim H].
    rewrite Z.mul_0_l, Hofn. destruct (n <? 0); reflexivity.
  - destruct (Z.abs k) as [|Kk|Kk] eqn:Ek; try lia.
    assert (EA : Z.abs (k * n) = Zpos (Kk * Nn)) by (rewrite Z.abs_mul, Ek, En; reflexivity).
    rewrite EA in HA.
    destruct (of_Z_normal (k * n) (Kk * Nn) EA HA) as (ma & Hofa & Hma & Hda).
    assert (HK : Zpos Kk < 2 ^ 53) by nia.
    destruct (of_Z_normal k Kk Ek HK) as (mk & Hofk & Hmk & Hdk).
    destruct (div_exact (k * n <? 0) (n <? 0) Kk Nn ma mn HA Hma Hda Hmn Hdn)
      as (m & Hdiv & Hm & Hdm).
    assert (Hsign : xorb (k * n <? 0) (n <? 0) = (k <? 0)).
    { destruct k, n; try reflexivity; lia. }
    assert (Hmm : m = mk) by (apply Pos2Z.inj; congruence). subst mk.
    assert (Hratio : div (of_Z (k * n)) (of_Z n) = of_Z k).
    { rewrite Hofa, Hofn, Hofk, Hdiv, Hsign. reflexivity. }
    split; [|intros _; exact Hratio].
    unfold is_multiple_of. rewrite Hratio, Hofk.
    destruct (normal_form_valid (k <? 0) Kk m (digits_le_53 _ HK) Hm Hdm) as [Hv Hi].
    destruct (sub_trunc_integral (S754_finite (k <? 0) m (Z.pos (digits2_pos Kk) - 53))
                eq_refl Hv Hi) as [Ht Hd].
    apply are_equal_of_zero_diff; [reflexivity | now apply is_real_not_nan | exact Hd].
Qed.

(** [2520 / 360] is the double [7]. *)
Lemma is_multiple_of_integers_witness :
  is_multiple_of (of_Z (7 * 360)) (of_Z 360) = true /\
  (7 <> 0 -> div (of_Z (7 * 360)) (of_Z 360) = of_Z 7).
Proof.
  apply (is_multiple_of_integers 7 360); [lia | vm_compute; reflexivity | vm_compute; reflexivity].
Defined.

Lemma Zdigits2_le (m d : Z) : 0 <= d -> 0 <= m < 2 ^ d -> Zdigits2 m <= d.
Proof.
  intros Hd [Hm Hlt]. destruct m as [|p|p]; cbn [Zdigits2]; try lia.
  destruct (digits2_pos_bounds p) as [Hlo _].
  destruct (Z.le_gt_cases (Zpos (digits2_pos p)) d) as [|Hgt]; [assumption|exfalso].
  assert (2 ^ d <= 2 ^ (Zpos (digits2_pos p) - 1)) by (apply Z.pow_le_mono_r; lia).
  lia.
Qed.

Lemma fexp_le d x : d <= x + 53 -> -1074 <= x -> fexp prec emax d <= x.
Proof. unfold fexp, emin, prec, emax. change IntDef.Z.max with Z.max. lia. Qed.

Lemma fexp_ge d : d - 53 <= fexp prec emax d.
Proof. unfold fexp, emin, prec, emax. change IntDef.Z.max with Z.max. lia. Qed.

(** A product of at least 53 digits whose value is below [1 - 2^-53]
    rounds to a double below [1]. *)
Lemma binary_round_aux_below_one (M : positive) (E : Z) :
  53 <= Zpos (digits2_pos M) -> E <= -53 ->
  Zpos M < (2 ^ 53 - 1) * 2 ^ (- 53 - E) ->
  ltb (binary_round_aux prec emax false (Zpos M) E loc_Exact) one = true.
Proof.
  intros HdM HE Hlt.
  set (dM := Zpos (digits2_pos M)) in *.
  assert (HpE : 0 < 2 ^ (- 53 - E)) by (apply Z.pow_pos_nonneg; lia).
  (* the value is below 1: at most [-E] digits *)
  assert (HdE : dM + E <= 0).
  { destruct (digits2_pos_bounds M) as [Hlo _]. fold dM in Hlo.
    destruct (Z.le_gt_cases (dM + E) 0) as [|Hgt]; [assumption|exfalso].
    assert (2 ^ (- E) <= 2 ^ (dM - 1)) by (apply Z.pow_le_mono_r; lia).
    assert (2 ^ (- E) = 2 ^ 53 * 2 ^ (- 53 - E))
      by (rewrite <- Z.pow_add_r by lia; f_equal; lia).
    assert (0 < 2 ^ 53) by (apply Z.pow_pos_nonneg; lia).
    nia. }
  unfold binary_round_aux, shr_fexp. cbn [Zdigits2]. fold dM.
  set (f1 := fexp prec emax (dM + E)).
  assert (Hf1ge : dM + E - 53 <= f1) by (apply fexp_ge).
  assert (Hf1lo : E <= f1) by lia.
  assert (Hf1hi : f1 <= -53) by (apply fexp_le; lia).
  destruct (shr_m_e (shr_record_of_loc (Zpos M) loc_Exact) E (f1 - E) ltac:(cbn; lia))
    as [Hm1 He1].
  replace (Z.max (f1 - E) 0) with (f1 - E) in Hm1, He1 by lia.
  replace (E + (f1 - E)) with f1 in He1 by lia.
  destruct (shr (shr_record_of_loc (Zpos M) loc_Exact) E (f1 - E)) as [mrs' e'].
  cbn [fst snd] in Hm1, He1. subst e'. cbn [shr_record_of_loc shr_m] in Hm1.
  assert (Hp1 : 0 < 2 ^ (f1 - E)) by (apply Z.pow_pos_nonneg; lia).
  assert (Hm1lo : 0 <= shr_m mrs') by (rewrite Hm1; apply Z.div_pos; lia).
  (* the mantissa after the shift: below 2^53, and below 2^53 - 1 at exponent -53 *)
  assert (Hm1hi : shr_m mrs' < 2 ^ 53).
  { rewrite Hm1. apply Z.div_lt_upper_bound; [lia|].
    destruct (digits2_pos_bounds M) as [_ Hhi]. fold dM in Hhi.
    assert (H0 : 2 ^ dM <= 2 ^ (f1 - E + 53)) by (apply Z.pow_le_mono_r; lia).
    rewrite Z.pow_add_r in H0 by lia. lia. }
  assert (Hm1top : f1 = -53 -> shr_m mrs' < 2 ^ 53 - 1).
  { intros Hf. rewrite Hm1, Hf. apply Z.div_lt_upper_bound; [rewrite <- Hf; lia|].
    lia. }
  pose proof (round_nearest_even_bounds (shr_m mrs') (loc_of_shr_record mrs')) as Hr.
  set (m2 := round_nearest_even (shr_m mrs') (loc_of_shr_record mrs')) in *.
  set (f2 := fexp prec emax (Zdigits2 m2 + f1)).
  assert (Hf2 : f2 <= -53).
  { unfold f2. destruct (Z.eq_dec f1 (-53)) as [Hf|Hf].
    - specialize (Hm1top Hf).
      assert (Zdigits2 m2 <= 53) by (apply Zdigits2_le; lia).
      apply fexp_le; lia.
    - assert (Zdigits2 m2 <= 54).
      { apply Zdigits2_le; [lia|]. change (2 ^ 54) with (2 * 2 ^ 53). lia. }
      apply fexp_le; lia. }
  destruct (shr_m_e (shr_record_of_loc m2 loc_Exact) f1 (f2 - f1) ltac:(cbn; lia))
    as [Hm3 He3].
  destruct (shr (shr_record_of_loc m2 loc_Exact) f1 (f2 - f1)) as [mrs'' e''].
  cbn [fst snd] in Hm3, He3. cbn [shr_record_of_loc shr_m] in Hm3.
  assert (He'' : e'' <= -53) by lia.
  assert (Hm3lo : 0 <= shr_m mrs'').
  { rewrite Hm3. apply Z.div_pos; [lia | apply Z.pow_pos_nonneg; lia]. }
  destruct (shr_m mrs'') as [|m3|m3]; [reflexivity | | lia].
  destruct (Z.leb_spec e'' (emax - prec)) as [_|Hbad]; [|unfold emax, prec in Hbad; lia].
  unfold ltb, SFltb, one. cbn [SFcompare].
  destruct (Z.compare_spec e'' (-52)); reflexivity || lia.
Qed.

Lemma of_Z_opp (a : Z) : a <> 0 -> Z.abs a < 2 ^ 53 -> of_Z (- a) = SFopp (of_Z a).
Proof.
  intros Ha0 Ha. destruct a as [|p|p]; [now elim Ha0| |].
  - destruct (of_Z_normal (Zpos p) p eq_refl Ha) as (m & H1 & Hm & _).
    destruct (of_Z_normal (- Zpos p) p eq_refl Ha) as (m' & H2 & Hm' & _).
    assert (m' = m) by (apply Pos2Z.inj; congruence). subst m'.
    rewrite H1, H2. reflexivity.
  - destruct (of_Z_normal (Zneg p) p eq_refl Ha) as (m & H1 & Hm & _).
    destruct (of_Z_normal (- Zneg p) p eq_refl Ha) as (m' & H2 & Hm' & _).
    assert (m' = m) by (apply Pos2Z.inj; congruence). subst m'.
    rewrite H1, H2. reflexivity.
Qed.

Lemma of_Z_abs (a : Z) : Z.abs a < 2 ^ 53 -> std_abs (of_Z a) = of_Z (Z.abs a).
Proof.
  intros Ha. destruct a as [|p|p]; [reflexivity| |].
  { destruct (of_Z_normal (Zpos p) p eq_refl Ha) as (m & H1 & _).
    cbn [Z.abs]. rewrite H1. reflexivity. }
  change (Z.abs (Zneg p)) with (- Zneg p). rewrite of_Z_opp by (assumption || discriminate).
  destruct (of_Z_normal (Zneg p) p eq_refl Ha) as (m & H1 & _). rewrite H1. reflexivity.
Qed.

(** Rounding the integer [D] held on any number of trailing zero bits. *)
Lemma binary_round_integer (s : bool) (D P : positive) (c : Z) :
  0 <= c -> Zpos P = Zpos D * 2 ^ c -> Zpos D < 2 ^ 53 ->
  exists m : positive,
    binary_round prec emax s P (- c) = S754_finite s m (Zpos (digits2_pos D) - 53) /\
    Zpos m = Zpos D * 2 ^ (53 - Zpos (digits2_pos D)).
Proof.
  intros Hc HP HD. pose proof (digits_le_53 D HD) as Hd.
  set (dD := Zpos (digits2_pos D)) in *.
  assert (H1 : 1 <= dD) by (unfold dD; lia).
  pose proof (digits2_pos_mul_pow2 D c P Hc HP) as HdP. fold dD in HdP.
  unfold binary_round. rewrite HdP.
  replace (dD + c + - c) with dD by lia. rewrite fexp_normal by lia.
  destruct (Z.le_gt_cases (dD - 53) (- c)) as [Hle|Hgt].
  - (* fewer than 53 digits: aligned to 53 digits *)
    pose proof (shl_align_value P (- c) (dD - 53) Hle) as Hv.
    pose proof (shl_align_snd P (- c) (dD - 53) Hle) as Hs.
    destruct (shl_align P (- c) (dD - 53)) as [mz ez]. cbn [fst snd] in Hv, Hs. subst ez.
    destruct (binary_round_aux_exact s D (53 - dD) ltac:(fold dD; lia) ltac:(fold dD; lia))
      as (m & Hm & Hval & _).
    fold dD in Hm, Hval. exists m. split; [|exact Hval].
    assert (Hmz : Zpos mz = Zpos D * 2 ^ (53 - dD)).
    { rewrite Hv, HP, <- Z.mul_assoc, <- Z.pow_add_r by lia. f_equal. f_equal. lia. }
    rewrite Hmz. replace (dD - 53) with (- (53 - dD)) at 1 by lia. exact Hm.
  - (* at least 53 digits *)
    assert (Hsh : shl_align P (- c) (dD - 53) = (P, - c)).
    { unfold shl_align. destruct (dD - 53 - - c) eqn:E; try reflexivity. lia. }
    rewrite Hsh.
    destruct (binary_round_aux_exact s D c ltac:(fold dD; lia) ltac:(fold dD; lia))
      as (m & Hm & Hval & _).
    fold dD in Hm, Hval. exists m. split; [|exact Hval].
    rewrite HP. exact Hm.
Qed.

(** The difference of two integers below [2^53] is exact. *)
Lemma sub_of_Z (a b : Z) :
  Z.abs a < 2 ^ 53 -> Z.abs b < 2 ^ 53 -> Z.abs (a - b) < 2 ^ 53 ->
  sub (of_Z a) (of_Z b) = of_Z (a - b).
Proof.
  intros Ha Hb Hab.
  destruct (Z.eq_dec b 0) as [-> | Hb0].
  { rewrite Z.sub_0_r. destruct (Z.abs a) as [|A|A] eqn:EA; try lia.
    - assert (a = 0) by lia. subst a. reflexivity.
    - destruct (of_Z_normal a A EA Ha) as (m & -> & _). reflexivity. }
  destruct (Z.eq_dec a 0) as [-> | Ha0].
  { rewrite Z.sub_0_l, of_Z_opp by assumption.
    destruct (Z.abs b) as [|B|B] eqn:EB; try lia.
    destruct (of_Z_normal b B EB Hb) as (m & -> & _). reflexivity. }
  destruct (Z.abs a) as [|A|A] eqn:EA; try lia.
  destruct (Z.abs b) as [|B|B] eqn:EB; try lia.
  destruct (of_Z_normal a A EA Ha) as (ma & Hofa & Hma & _).
  destruct (of_Z_normal b B EB Hb) as (mb & Hofb & Hmb & _).
  pose proof (digits_le_53 A Ha) as HdA. pose proof (digits_le_53 B Hb) as HdB.
  set (dA := Zpos (digits2_pos A)) in *. set (dB := Zpos (digits2_pos B)) in *.
  rewrite Hofa, Hofb. unfold sub. cbn [SFsub]. change IntDef.Z.min with Z.min.
  set (ez := Z.min (dA - 53) (dB - 53)).
  rewrite (shl_align_value ma (dA - 53) ez), (shl_align_value mb (dB - 53) ez)
    by (unfold ez; lia).
  assert (HA : cond_Zopp (a <? 0) (Zpos ma * 2 ^ (dA - 53 - ez)) = a * 2 ^ (- ez)).
  { rewrite Hma, <- Z.mul_assoc, <- Z.pow_add_r by (unfold ez; lia).
    replace (53 - dA + (dA - 53 - ez)) with (- ez) by lia.
    destruct a as [|p|p]; try lia; cbn [Z.ltb Z.compare cond_Zopp];
      cbn in EA; injection EA as <-; lia. }
  assert (HB : cond_Zopp (b <? 0) (Zpos mb * 2 ^ (dB - 53 - ez)) = b * 2 ^ (- ez)).
  { rewrite Hmb, <- Z.mul_assoc, <- Z.pow_add_r by (unfold ez; lia).
    replace (53 - dB + (dB - 53 - ez)) with (- ez) by lia.
    destruct b as [|p|p]; try lia; cbn [Z.ltb Z.compare cond_Zopp];
      cbn in EB; injection EB as <-; lia. }
  rewrite HA, HB, <- Z.mul_sub_distr_r.
  assert (Hpz : 0 < 2 ^ (- ez)) by (apply Z.pow_pos_nonneg; unfold ez; lia).
  destruct (Z.abs (a - b)) as [|D|D] eqn:ED; try lia.
  { assert (a - b = 0) by lia. rewrite H. reflexivity. }
  destruct (of_Z_normal (a - b) D ED Hab) as (md & Hofd & Hmd & _).
  rewrite Hofd.
  destruct ((a - b) * 2 ^ (- ez)) as [|P|P] eqn:EP; try nia.
  - cbn [binary_normalize].
    assert (HP : Zpos P = Zpos D * 2 ^ (- ez)) by (rewrite <- EP; nia).
    destruct (binary_round_integer false D P (- ez) ltac:(lia) HP Hab) as (m & Hm & Hval).
    replace (- - ez) with ez in Hm by lia. rewrite Hm.
    assert (m = md) by (apply Pos2Z.inj; congruence). subst m.
    replace (a - b <? 0) with false by (symmetry; apply Z.ltb_ge; nia). reflexivity.
  - cbn [binary_normalize].
    assert (HP : Zpos P = Zpos D * 2 ^ (- ez)).
    { assert (Zneg P = - Zpos P) by reflexivity. nia. }
    destruct (binary_round_integer true D P (- ez) ltac:(lia) HP Hab) as (m & Hm & Hval).
    replace (- - ez) with ez in Hm by lia. rewrite Hm.
    assert (m = md) by (apply Pos2Z.inj; congruence). subst m.
    replace (a - b <? 0) with true by (symmetry; apply Z.ltb_lt; nia). reflexivity.
Qed.

Lemma digits_lt_value (A B : positive) :
  Zpos (digits2_pos A) < Zpos (digits2_pos B) -> Zpos A < Zpos B.
Proof.
  intros H. destruct (digits2_pos_bounds A) as [_ Ahi].
  destruct (digits2_pos_bounds B) as [Blo _].
  assert (2 ^ Zpos (digits2_pos A) <= 2 ^ (Zpos (digits2_pos B) - 1))
    by (apply Z.pow_le_mono_r; lia).
  lia.
Qed.

(** On integers from [0] to [2^53] the order of doubles is the order of
    the integers. *)
Lemma ltb_of_Z (a b : Z) :
  0 <= a < 2 ^ 53 -> 0 <= b < 2 ^ 53 -> ltb (of_Z a) (of_Z b) = (a <? b).
Proof.
  intros Ha Hb.
  destruct a as [|A|A]; try lia; destruct b as [|B|B]; try lia.
  - reflexivity.
  - destruct (of_Z_normal (Zpos B) B eq_refl ltac:(lia)) as (mb & -> & _). reflexivity.
  - destruct (of_Z_normal (Zpos A) A eq_refl ltac:(lia)) as (ma & -> & _). reflexivity.
  - destruct (of_Z_normal (Zpos A) A eq_refl ltac:(lia)) as (ma & -> & Hma & _).
    destruct (of_Z_normal (Zpos B) B eq_refl ltac:(lia)) as (mb & -> & Hmb & _).
    pose proof (digits_le_53 A ltac:(lia)) as HdA.
    pose proof (digits_le_53 B ltac:(lia)) as HdB.
    set (dA := Zpos (digits2_pos A)) in *. set (dB := Zpos (digits2_pos B)) in *.
    unfold ltb, SFltb. cbn [SFcompare].
    rewrite compare_cont_Eq, Pos2Z.inj_compare.
    assert (Hp : 0 < 2 ^ (53 - dA)) by (apply Z.pow_pos_nonneg; lia).
    destruct (Z.compare_spec (dA - 53) (dB - 53)) as [He|He|He].
    + replace dB with dA in Hmb by lia.
      destruct (Z.compare_spec (Zpos ma) (Zpos mb)) as [Hc|Hc|Hc];
        destruct (Z.ltb_spec (Zpos A) (Zpos B)) as [Hv|Hv]; try reflexivity; exfalso;
        rewrite Hma, Hmb in Hc; nia.
    + assert (Hv : Zpos A < Zpos B) by (apply digits_lt_value; fold dA dB; lia).
      destruct (Z.ltb_spec (Zpos A) (Zpos B)); [reflexivity | lia].
    + assert (Hv : Zpos B < Zpos A) by (apply digits_lt_value; fold dA dB; lia).
      destruct (Z.ltb_spec (Zpos A) (Zpos B)); [lia | reflexivity].
Qed.

Lemma std_max_of_Z (a b : Z) :
  0 <= a < 2 ^ 53 -> 0 <= b < 2 ^ 53 ->
  std_max (of_Z a) (of_Z b) = of_Z (Z.max a b).
Proof.
  intros Ha Hb. unfold std_max. rewrite ltb_of_Z by assumption.
  destruct (Z.ltb_spec a b); f_equal; lia.
Qed.

Lemma ltb_not_leb a b : ltb a b = true -> leb b a = false.
Proof.
  unfold ltb, leb, SFltb, SFleb. rewrite (SFcompare_antisym a b).
  destruct (SFcompare a b) as [[]|]; simpl; congruence.
Qed.

(** Below [10^7] the tolerance [Eps * scale] is below [1]. *)
Lemma tolerance_below_one (S : Z) :
  1 <= S < 10000000 -> ltb (mul Eps (of_Z S)) one = true.
Proof.
  intros HS. destruct S as [|S|S]; try lia.
  assert (HS53 : Zpos S < 2 ^ 53) by (change (2 ^ 53) with 9007199254740992; lia).
  destruct (of_Z_normal (Zpos S) S eq_refl HS53) as (mS & -> & HmS & HdmS).
  set (dS := Zpos (digits2_pos S)) in *.
  assert (HdS : dS <= 24).
  { unfold dS. destruct (digits2_pos_bounds S) as [Hlo _].
    destruct (Z.le_gt_cases (Zpos (digits2_pos S)) 24) as [|Hgt]; [assumption|exfalso].
    assert (2 ^ 24 <= 2 ^ (Zpos (digits2_pos S) - 1)) by (apply Z.pow_le_mono_r; lia).
    change (2 ^ 24) with 16777216 in H. lia. }
  assert (H1 : 1 <= dS) by (unfold dS; lia).
  unfold mul, Eps. cbn [SFmul xorb Z.ltb Z.compare].
  apply binary_round_aux_below_one.
  - destruct (digits2_pos_bounds (7555786372591432 * mS)) as [_ Hhi].
    destruct (digits2_pos_bounds mS) as [Hlo _]. rewrite HdmS in Hlo.
    set (d := Zpos (digits2_pos (7555786372591432 * mS))) in *.
    destruct (Z.le_gt_cases 53 d) as [|Hlt]; [assumption|exfalso].
    assert (2 ^ d <= 2 ^ 52) by (apply Z.pow_le_mono_r; lia).
    rewrite Pos2Z.inj_mul in Hhi. change (2 ^ (53 - 1)) with (2 ^ 52) in Hlo.
    assert (0 < 2 ^ 52) by (apply Z.pow_pos_nonneg; lia).
    assert (1 * Zpos mS <= 7555786372591432 * Zpos mS)
      by (apply Z.mul_le_mono_nonneg_r; [lia | discriminate]).
    lia.
  - lia.
  - rewrite Pos2Z.inj_mul, HmS.
    replace (- 53 - (-76 + (dS - 53))) with (23 + (53 - dS)) by lia.
    rewrite Z.pow_add_r by lia.
    assert (Hp : 0 < 2 ^ (53 - dS)) by (apply Z.pow_pos_nonneg; lia).
    replace (7555786372591432 * (Zpos S * 2 ^ (53 - dS)))
      with (7555786372591432 * Zpos S * 2 ^ (53 - dS)) by ring.
    replace ((2 ^ 53 - 1) * (2 ^ 23 * 2 ^ (53 - dS)))
      with ((2 ^ 53 - 1) * 2 ^ 23 * 2 ^ (53 - dS)) by ring.
    apply Z.mul_lt_mono_pos_r; [exact Hp|].
    apply Z.le_lt_trans with (7555786372591432 * 9999999).
    + apply Z.mul_le_mono_nonneg_l; [discriminate | lia].
    + reflexivity.
Qed.

Lemma of_Z_real (a : Z) : Z.abs a < 2 ^ 53 -> is_real (of_Z a) = true.
Proof.
  intros Ha. destruct (Z.abs a) as [|A|A] eqn:EA; try lia.
  - assert (a = 0) by lia. subst a. reflexivity.
  - destruct (of_Z_normal a A EA Ha) as (m & -> & _). reflexivity.
Qed.

(** Below [10^7] in magnitude, two integers are equal for [are_equal]
    only when they are the same integer. *)
Lemma are_equal_integers_aux (m n : Z) :
  Z.abs m < 10000000 -> Z.abs n < 10000000 ->
  are_equal (of_Z m) (of_Z n) = (m =? n).
Proof.
  intros Hm Hn.
  assert (H53 : forall z, Z.abs z < 20000000 -> Z.abs z < 2 ^ 53)
    by (intros z Hz; change (2 ^ 53) with 9007199254740992; lia).
  destruct (Z.eqb_spec m n) as [->|Hne].
  { apply are_equal_refl_real, of_Z_real, H53. lia. }
  unfold are_equal.
  rewrite sub_of_Z by (apply H53; lia).
  rewrite !of_Z_abs by (apply H53; lia).
  change one with (of_Z 1).
  rewrite !std_max_of_Z
    by (split; [lia | change (2 ^ 53) with 9007199254740992; lia]).
  set (S := Z.max 1 (Z.max (Z.abs m) (Z.abs n))).
  assert (HS : 1 <= S < 10000000) by (unfold S; lia).
  pose proof (tolerance_below_one S HS) as Htol.
  set (D := Z.abs (m - n)).
  assert (HD : 1 <= D < 20000000) by (unfold D; lia).
  assert (Hone : leb (of_Z 1) (of_Z D) = true).
  { apply not_ltb_leb.
    - apply is_real_not_nan, of_Z_real, H53. lia.
    - reflexivity.
    - rewrite ltb_of_Z by (split; [lia | change (2 ^ 53) with 9007199254740992; lia]).
      apply Z.ltb_ge. lia. }
  destruct (leb (of_Z D) (mul Eps (of_Z S))) eqn:E; [exfalso | reflexivity].
  pose proof (leb_trans _ _ _ Hone E) as H1.
  change (of_Z 1) with one in H1.
  rewrite (ltb_not_leb _ _ Htol) in H1. discriminate.
Qed.


Lemma SFcompare_opp x y : SFcompare (SFopp x) (SFopp y) = SFcompare y x.
Proof.
  destruct x as [[]|[]| |[] mx ex], y as [[]|[]| |[] my ey];
    cbn [SFcompare SFopp negb]; try reflexivity;
    rewrite (Z.compare_antisym ex ey); destruct (ex ?= ey); cbn [CompOpp];
    try reflexivity;
    change (PosDef.Pos.compare_cont Eq ?a ?b) with (Pos.compare a b);
    rewrite (Pos.compare_antisym mx my);
    destruct (mx ?= my)%positive; reflexivity.
Qed.

(** On integers below [2^53] in magnitude the order of doubles is the
    order of the integers. *)
Lemma ltb_of_Z_signed (a b : Z) :
  Z.abs a < 2 ^ 53 -> Z.abs b < 2 ^ 53 -> ltb (of_Z a) (of_Z b) = (a <? b).
Proof.
  intros Ha Hb.
  destruct (Z.lt_ge_cases a 0) as [Na|Pa]; destruct (Z.lt_ge_cases b 0) as [Nb|Pb].
  - replace a with (- - a) at 1 by lia. replace b with (- - b) at 1 by lia.
    rewrite (of_Z_opp (- a)), (of_Z_opp (- b)) by lia.
    unfold ltb, SFltb. rewrite SFcompare_opp.
    change (ltb (of_Z (- b)) (of_Z (- a)) = (a <? b)).
    rewrite ltb_of_Z by lia.
    destruct (Z.ltb_spec (- b) (- a)), (Z.ltb_spec a b); reflexivity || lia.
  - destruct a as [|A|A]; try lia.
    destruct (of_Z_normal (Zneg A) A eq_refl Ha) as (ma & -> & _).
    destruct (Z.ltb_spec (Zneg A) b); [|lia].
    destruct b as [|B|B]; try lia.
    + reflexivity.
    + destruct (of_Z_normal (Zpos B) B eq_refl Hb) as (mb & -> & _). reflexivity.
  - destruct b as [|B|B]; try lia.
    destruct (of_Z_normal (Zneg B) B eq_refl Hb) as (mb & -> & _).
    destruct (Z.ltb_spec a (Zneg B)); [lia|].
    destruct a as [|A|A]; try lia.
    + reflexivity.
    + destruct (of_Z_normal (Zpos A) A eq_refl Ha) as (ma & -> & _). reflexivity.
  - apply ltb_of_Z; lia.
Qed.

(** X12.  On integers below [10^7] in magnitude [are_equal] is the
    equality of integers: the tolerance there is below [1].  The bound is
    sharp: [10^7] and [10^7 - 1] are equal for [are_equal]. *)
Theorem are_equal_integers (m n : Z) :
  (Z.abs m < 10000000 -> Z.abs n < 10000000 ->
   are_equal (of_Z m) (of_Z n) = (m =? n)) /\
  are_equal (of_Z 10000000) (of_Z 9999999) = true.
Proof. split; [apply are_equal_integers_aux | reflexivity]. Qed.

Lemma are_equal_integers_witness :
  are_equal (of_Z 9999999) (of_Z 9999998) = (9999999 =? 9999998).
Proof.
  apply (proj1 (are_equal_integers 9999999 9999998)); reflexivity.
Defined.

(** X13.  On integers below [10^7] in magnitude [less_or_equal] is the
    order of the integers, and [are_ordered(a, b, c)] is [a <= b <= c]. *)
Theorem less_or_equal_integers (a b c : Z) :
  Z.abs a < 10000000 -> Z.abs b < 10000000 -> Z.abs c < 10000000 ->
  less_or_equal (of_Z a) (of_Z b) = (a <=? b) /\
  are_ordered (of_Z a) (of_Z b) (of_Z c) = ((a <=? b) && (b <=? c)).
Proof.
  intros Ha Hb Hc.
  assert (H53 : forall z, Z.abs z < 10000000 -> Z.abs z < 2 ^ 53)
    by (intros z Hz; change (2 ^ 53) with 9007199254740992; lia).
  assert (Hle : forall x y, Z.abs x < 10000000 -> Z.abs y < 10000000 ->
                  less_or_equal (of_Z x) (of_Z y) = (x <=? y)).
  { intros x y Hx Hy. unfold less_or_equal.
    rewrite are_equal_integers_aux, ltb_of_Z_signed by auto.
    destruct (Z.eqb_spec x y), (Z.ltb_spec x y), (Z.leb_spec x y); reflexivity || lia. }
  split; [now apply Hle|].
  unfold are_ordered. rewrite !Hle by assumption. reflexivity.
Qed.

Lemma less_or_equal_integers_witness :
  less_or_equal (of_Z (-3)) (of_Z 5) = (-3 <=? 5) /\
  are_ordered (of_Z (-3)) (of_Z 5) (of_Z 4) = ((-3 <=? 5) && (5 <=? 4)).
Proof.
  apply (less_or_equal_integers (-3) 5 4); reflexivity.
Defined.

(** ** Opposite operands *)

Lemma std_abs_opp a : std_abs (SFopp a) = std_abs a.
Proof. destruct a; reflexivity. Qed.

Lemma cond_Zopp_negb s x : cond_Zopp (negb s) x = - cond_Zopp s x.
Proof. destruct s; cbn [negb cond_Zopp]; lia. Qed.

Lemma abs_sub_opp a b : std_abs (sub (SFopp a) (SFopp b)) = std_abs (sub a b).
Proof.
  unfold std_abs, sub.
  destruct a as [[]|[]| |sa ma ea], b as [[]|[]| |sb mb eb]; try reflexivity.
  cbn [SFsub SFopp]. rewrite !cond_Zopp_negb.
  rewrite <- binary_normalize_abs_opp. f_equal. f_equal. lia.
Qed.

Lemma are_equal_opp a b : are_equal (SFopp a) (SFopp b) = are_equal a b.
Proof. unfold are_equal. rewrite abs_sub_opp, !std_abs_opp. reflexivity. Qed.

Lemma ltb_opp a b : ltb (SFopp b) (SFopp a) = ltb a b.
Proof. unfold ltb, SFltb. rewrite SFcompare_opp. reflexivity. Qed.

(** X14.  The comparisons do not depend on the sign of both operands:
    [are_equal(-a, -b)] is [are_equal(a, b)], [less_or_equal(-b, -a)] is
    [less_or_equal(a, b)] and [are_ordered(-c, -b, -a)] is
    [are_ordered(a, b, c)], for all doubles. *)
Theorem are_equal_negation (a b c : double) :
  are_equal (SFopp a) (SFopp b) = are_equal a b /\
  less_or_equal (SFopp b) (SFopp a) = less_or_equal a b /\
  are_ordered (SFopp c) (SFopp b) (SFopp a) = are_ordered a b c.
Proof.
  assert (Hle : forall x y, less_or_equal (SFopp y) (SFopp x) = less_or_equal x y).
  { intros x y. unfold less_or_equal.
    rewrite are_equal_opp, ltb_opp, (are_equal_comm y x). reflexivity. }
  split; [apply are_equal_opp|]. split; [apply Hle|].
  unfold are_ordered. rewrite !Hle. apply andb_comm.
Qed.

Lemma div_opp_r x y : div x (SFopp y) = SFopp (div x y).
Proof.
  unfold div.
  destruct x as [sx|sx| |sx mx ex], y as [sy|sy| |sy my ey]; cbn [SFdiv SFopp];
    try reflexivity; try (destruct sx, sy; reflexivity).
  destruct (SFdiv_core_binary prec emax (Z.pos mx) ex (Z.pos my) ey) as [[mz ez] lz].
  rewrite <- binary_round_aux_opp. destruct sx, sy; reflexivity.
Qed.

Lemma binary_round_opp s m e :
  binary_round prec emax (negb s) m e = SFopp (binary_round prec emax s m e).
Proof.
  unfold binary_round. destruct (shl_align _ _ _) as [mz ez]. apply binary_round_aux_opp.
Qed.

Lemma std_trunc_opp x : std_trunc (SFopp x) = SFopp (std_trunc x).
Proof.
  destruct x as [s|s| |s m e]; try reflexivity.
  cbn [SFopp std_trunc]. destruct (0 <=? e); [reflexivity|].
  destruct (Z.shiftr (Z.pos m) (- e)) as [|m'|m']; try reflexivity.
  destruct s; cbn [negb binary_normalize].
  - apply (binary_round_opp true).
  - apply (binary_round_opp false).
Qed.

(** X15.  [is_multiple_of] does not depend on the sign of the value nor
    on the sign of the factor, for all doubles. *)
Theorem is_multiple_of_negation (value factor : double) :
  is_multiple_of (SFopp value) factor = is_multiple_of value factor /\
  is_multiple_of value (SFopp factor) = is_multiple_of value factor.
Proof.
  unfold is_multiple_of.
  rewrite div_opp_l, div_opp_r, !std_trunc_opp, !are_equal_opp. split; reflexivity.
Qed.


(** ** The two regimes of the tolerance *)

Lemma leb_not_ltb a b : leb a b = true -> ltb b a = false.
Proof.
  unfold ltb, leb, SFltb, SFleb. rewrite (SFcompare_antisym a b).
  destruct (SFcompare a b) as [[]|]; simpl; congruence.
Qed.

Lemma std_max_one_below x : leb x one = true -> std_max one x = one.
Proof. intros H. unfold std_max. rewrite (leb_not_ltb _ _ H). reflexivity. Qed.

Lemma std_max_one_above x : leb one (std_abs x) = true -> std_max one (std_abs x) = std_abs x.
Proof.
  intros H. unfold std_max. destruct (ltb one (std_abs x)) eqn:E; [reflexivity|].
  change one with (std_abs one) in *.
  apply leb_antisym_abs; [exact H|].
  destruct (leb_not_nan _ _ H) as [N1 N2]. now apply not_ltb_leb.
Qed.

(** X16.  The two regimes of the tolerance.  For operands of magnitude at
    most [1] the tolerance is the constant [Eps]: [are_equal(a, b)] is
    [|a - b| <= Eps].  For an operand [a] of magnitude at least [1] and no
    smaller than the other, the tolerance is [Eps * |a|]. *)
Theorem are_equal_tolerance_regimes (a b : double) :
  (leb (std_abs a) one = true -> leb (std_abs b) one = true ->
   are_equal a b = leb (std_abs (sub a b)) Eps) /\
  (leb one (std_abs a) = true -> leb (std_abs b) (std_abs a) = true ->
   are_equal a b = leb (std_abs (sub a b)) (mul Eps (std_abs a))).
Proof.
  split.
  - intros Ha Hb. unfold are_equal.
    assert (Hm : leb (std_max (std_abs a) (std_abs b)) one = true)
      by (destruct (std_max_cases (std_abs a) (std_abs b)) as [-> | ->]; assumption).
    rewrite (std_max_one_below _ Hm). reflexivity.
  - intros Ha Hb. unfold are_equal.
    assert (Hm : std_max (std_abs a) (std_abs b) = std_abs a)
      by (unfold std_max; rewrite (leb_not_ltb _ _ Hb); reflexivity).
    rewrite Hm, (std_max_one_above _ Ha). reflexivity.
Qed.

Lemma are_equal_tolerance_regimes_witness :
  are_equal (div (of_Z 1) (of_Z 4)) (div (of_Z 1) (of_Z 2))
    = leb (std_abs (sub (div (of_Z 1) (of_Z 4)) (div (of_Z 1) (of_Z 2)))) Eps /\
  are_equal (of_Z 1000) (of_Z 999)
    = leb (std_abs (sub (of_Z 1000) (of_Z 999))) (mul Eps (std_abs (of_Z 1000))).
Proof.
  split.
  - apply (proj1 (are_equal_tolerance_regimes _ _)); reflexivity.
  - apply (proj2 (are_equal_tolerance_regimes _ _)); reflexivity.
Defined.

(** ** A value and itself *)

(** A finite double divided by itself is [1], without error. *)
Lemma div_diag (s : bool) (m : positive) (e : Z) :
  div (S754_finite s m e) (S754_finite s m e) = one.
Proof.
  unfold div. cbn [SFdiv]. unfold SFdiv_core_binary.
  replace (Zdigits2 (Z.pos m) + e - (Zdigits2 (Z.pos m) + e)) with 0 by lia.
  rewrite Z.sub_diag.
  change (IntDef.Z.min (fexp prec emax 0) 0) with (-53).
  change (0 - -53) with 53. cbv iota beta.
  change IntDef.Z.shiftl with Z.shiftl. change IntDef.Z.div_eucl with Z.div_eucl.
  rewrite Z.shiftl_mul_pow2 by lia.
  rewrite (div_eucl_exact (Z.pos m * 2 ^ 53) (Z.pos m) (2 ^ 53) ltac:(lia) ltac:(ring)).
  assert (Hloc : new_location (Zpos m) 0 = loc_Exact).
  { unfold new_location, new_location_even, new_location_odd.
    destruct (IntDef.Z.even (Zpos m)); reflexivity. }
  rewrite Hloc. destruct s; reflexivity.
Qed.

(** X17.  A double is a multiple of itself exactly when it is a real
    number other than zero: the quotient is then the double [1]; a zero, an
    infinity and NaN are not multiples of themselves. *)
Theorem is_multiple_of_itself (v : double) :
  is_multiple_of v v = true <-> (is_real v = true /\ eqb v zero = false).
Proof.
  destruct v as [[]|[]| |s m e].
  1-5: split; [discriminate | intros [H1 H2]; discriminate].
  split; [intros _; split; [reflexivity | destruct s; reflexivity]|].
  intros _. unfold is_multiple_of. rewrite div_diag. reflexivity.
Qed.

(** ** [ge_pow] *)

Lemma mul_assign_small p N : 1 <= p -> 0 <= N -> p * N <= Int32.INT_MAX -> Int32.mul_assign p N = p * N.
Proof.
  intros Hp HN H. unfold Int32.mul_assign, Int32.to_int, Int32.to_unsigned, Int32.INT_MAX in *.
  assert (N <= p * N) by nia.
  assert (p <= p * N \/ N = 0) by nia.
  assert (0 <= p * N) by nia.
  rewrite (Z.mod_small N) by lia.
  destruct (Z.eq_dec N 0) as [->|].
  - rewrite !Z.mul_0_r. reflexivity.
  - rewrite (Z.mod_small p), (Z.mod_small (p * N)) by lia.
    rewrite Z.mod_small by lia. lia.
Qed.

Lemma ge_pow_loop_done fuel N i p : i <= p -> ge_pow_loop fuel N i p = Some p.
Proof. intros H. destruct fuel; simpl; destruct (Z.ltb_spec p i); try lia; reflexivity. Qed.

Lemma ge_pow_loop_step fuel N i p :
  p < i -> ge_pow_loop (S fuel) N i p = ge_pow_loop fuel N i (Int32.mul_assign p N).
Proof. intros H. simpl. destruct (Z.ltb_spec p i); try lia; reflexivity. Qed.

(** From the accumulator [N^j], at most [k - j] more rounds reach the least
    power of [N] that is no smaller than [i]. *)
Lemma ge_pow_loop_from_power N i (k : nat) :
  2 <= N -> i <= N ^ Z.of_nat k <= Int32.INT_MAX ->
  forall (d j : nat), (j + d = k)%nat ->
    (forall j', (j' < j)%nat -> N ^ Z.of_nat j' < i) ->
    exists r : nat, (j <= r <= k)%nat /\
      (forall fuel, (d <= fuel)%nat -> ge_pow_loop fuel N i (N ^ Z.of_nat j) = Some (N ^ Z.of_nat r)) /\
      i <= N ^ Z.of_nat r /\
      (forall j', (j' < r)%nat -> N ^ Z.of_nat j' < i).
Proof.
  intros HN Hk. induction d as [|d IH]; intros j Hj Hlt.
  - assert (j = k) by lia. subst j. exists k. repeat split; try lia; trivial.
    intros fuel _. apply ge_pow_loop_done. lia.
  - destruct (Z.lt_ge_cases (N ^ Z.of_nat j) i) as [Hc|Hc].
    + destruct (IH (S j)) as (r & Hr & Hrun & Hge & Hleast).
      * lia.
      * intros j' Hj'. destruct (Nat.eq_dec j' j) as [->|]; [assumption | apply Hlt; lia].
      * exists r. repeat split; try lia; trivial.
        intros [|fuel] Hf; [lia|]. rewrite ge_pow_loop_step by assumption.
        rewrite mul_assign_small.
        -- replace (N ^ Z.of_nat j * N) with (N ^ Z.of_nat (S j))
             by (rewrite Nat2Z.inj_succ, Z.pow_succ_r by lia; ring).
           apply Hrun. lia.
        -- assert (0 < N ^ Z.of_nat j) by (apply Z.pow_pos_nonneg; lia). lia.
        -- lia.
        -- replace (N ^ Z.of_nat j * N) with (N ^ Z.of_nat (S j))
             by (rewrite Nat2Z.inj_succ, Z.pow_succ_r by lia; ring).
           transitivity (N ^ Z.of_nat k); [|lia].
           apply Z.pow_le_mono_r; lia.
    + exists j. repeat split; try lia; trivial.
      intros fuel _. now apply ge_pow_loop_done.
Qed.

Lemma ge_pow_loop_stuck N i p :
  p < i -> Int32.mul_assign p N = p -> forall fuel, ge_pow_loop fuel N i p = None.
Proof.
  intros Hp Hfix. induction fuel as [|fuel IH]; simpl; destruct (Z.ltb_spec p i); try lia.
  - reflexivity.
  - rewrite Hfix. exact IH.
Qed.

Lemma ge_pow2_orbit_closed :
  forallb (fun p => (p <? Int32.INT_MAX) &&
                    existsb (Z.eqb (Int32.mul_assign p 2)) ge_pow2_orbit)
          ge_pow2_orbit = true.
Proof. vm_compute. reflexivity. Qed.

Lemma ge_pow2_orbit_diverges fuel :
  forall p, In p ge_pow2_orbit -> ge_pow_loop fuel 2 Int32.INT_MAX p = None.
Proof.
  induction fuel as [|fuel IH]; intros p Hp;
    pose proof (proj1 (forallb_forall _ _) ge_pow2_orbit_closed p Hp) as Hc;
    apply andb_true_iff in Hc; destruct Hc as [Hlt Hnext];
    simpl; rewrite Hlt; [reflexivity|].
  apply IH. apply existsb_exists in Hnext. destruct Hnext as (q & Hq & Heq).
  apply Z.eqb_eq in Heq. now subst q.
Qed.

(** C10, as stated, fails: [ge_pow<2>(INT_MAX)] wraps to [INT_MIN], then to
    [0], and never leaves the loop; [ge_pow<10>(10^9 + 1)] returns
    [10^10 mod 2^32], which is no power of ten. *)
Lemma ge_pow_overflow_counterexample :
  (forall fuel, ge_pow 2 2147483647 fuel = None) /\
  ge_pow 10 1000000001 10 = Some 1410065408 /\
  (forall k : nat, 10 ^ Z.of_nat k <> 1410065408).
Proof.
  split; [|split].
  - intros fuel. apply ge_pow2_orbit_diverges. simpl. auto.
  - reflexivity.
  - intros k Hk.
    assert (Hmod : (10 ^ Z.of_nat k) mod 3 = 1).
    { clear Hk. induction k as [|k IH]; [reflexivity|].
      rewrite Nat2Z.inj_succ, Z.pow_succ_r by lia.
      rewrite Z.mul_mod, IH by lia. reflexivity. }
    rewrite Hk in Hmod. vm_compute in Hmod. discriminate.
Qed.

(** C10, amended.  For a base [N >= 2] and an [i] below some power of [N]
    that fits an [int], [ge_pow<N>(i)] leaves its loop and returns the least
    power of [N] that is no smaller than [i], which is [1] when [i <= 1].
    For a base [N <= 1] and [i > 1] the loop never exits. *)
Theorem ge_pow_least_power (N i : Z) (k : nat) :
  (2 <= N -> i <= N ^ Z.of_nat k <= Int32.INT_MAX ->
   exists r : nat,
     (forall fuel, (k <= fuel)%nat -> ge_pow N i fuel = Some (N ^ Z.of_nat r)) /\
     i <= N ^ Z.of_nat r /\
     (forall j : nat, i <= N ^ Z.of_nat j -> (r <= j)%nat) /\
     (i <= 1 -> N ^ Z.of_nat r = 1)) /\
  (0 <= N <= 1 -> 1 < i -> forall fuel, ge_pow N i fuel = None).
Proof.
  split.
  - intros HN Hk.
    destruct (ge_pow_loop_from_power N i k HN Hk k 0%nat) as (r & Hr & Hrun & Hge & Hleast);
      [lia | intros j' Hj'; lia |].
    exists r. repeat split; trivial.
    + intros j Hj. destruct (Nat.le_gt_cases r j) as [|Hlt]; [assumption|].
      specialize (Hleast j Hlt). lia.
    + intros Hi. destruct r as [|r]; [reflexivity|].
      specialize (Hleast 0%nat ltac:(lia)). simpl in Hleast. lia.
  - intros HN Hi fuel. unfold ge_pow.
    assert (HN' : N = 0 \/ N = 1) by lia. destruct HN' as [-> | ->].
    + destruct fuel as [|fuel]; simpl; destruct (Z.ltb_spec 1 i); try lia; [reflexivity|].
      change (Int32.mul_assign 1 0) with 0.
      apply ge_pow_loop_stuck; [lia | reflexivity].
    + apply ge_pow_loop_stuck; [lia | reflexivity].
Qed.

Lemma ge_pow_least_power_witness :
  exists r : nat,
    (forall fuel, (10 <= fuel)%nat -> ge_pow 2 1000 fuel = Some (2 ^ Z.of_nat r)) /\
    1000 <= 2 ^ Z.of_nat r /\
    (forall j : nat, 1000 <= 2 ^ Z.of_nat j -> (r <= j)%nat) /\
    (1000 <= 1 -> 2 ^ Z.of_nat r = 1).
Proof.
  apply (proj1 (ge_pow_least_power 2 1000 10)).
  - lia.
  - vm_compute. split; discriminate.
Defined.

Example ge_pow_examples :
  ge_pow 2 1000 10 = Some 1024 /\ ge_pow 3 (-5) 0 = Some 1 /\
  ge_pow 10 1000 3 = Some 1000 /\ ge_pow 2 1073741825 64 = None.
Proof. repeat split. Qed.

(** ** [ge_pow] on every input, wrap-around included *)

Lemma to_int_range z : Int32.INT_MIN <= Int32.to_int z <= Int32.INT_MAX.
Proof.
  unfold Int32.to_int, Int32.INT_MIN, Int32.INT_MAX.
  pose proof (Z.mod_pos_bound (z + 2147483648) 4294967296 ltac:(lia)). lia.
Qed.

Lemma to_int_mod z : Int32.to_int z mod 4294967296 = z mod 4294967296.
Proof.
  unfold Int32.to_int.
  rewrite Zminus_mod, Zmod_mod, <- Zminus_mod. f_equal. lia.
Qed.

Lemma mul_assign_mod p N :
  Int32.mul_assign p N mod 4294967296 = (p * N) mod 4294967296.
Proof.
  unfold Int32.mul_assign, Int32.to_unsigned.
  rewrite to_int_mod, Zmod_mod, <- Zmult_mod. reflexivity.
Qed.

(** The loop from the accumulator [p]: what it returns is no smaller than
    [i], is [p] itself or the result of a multiplication, and is [p] times
    a power of [N] modulo [2^32]. *)
Lemma ge_pow_loop_post fuel N i : forall p r,
  ge_pow_loop fuel N i p = Some r ->
  i <= r /\
  (r = p \/ (p < i /\ Int32.INT_MIN <= r <= Int32.INT_MAX)) /\
  exists k : nat, (k <= fuel)%nat /\ r mod 4294967296 = (p * N ^ Z.of_nat k) mod 4294967296.
Proof.
  induction fuel as [|fuel IH]; intros p r; cbn [ge_pow_loop];
    destruct (Z.ltb_spec p i) as [Hlt|Hge]; try discriminate.
  - intros [= <-]. split; [assumption|]. split; [now left|].
    exists 0%nat. split; [lia|]. f_equal. cbn. lia.
  - intros H. destruct (IH _ _ H) as (Hir & Hcase & k & Hk & Hmod).
    split; [assumption|]. split.
    + right. split; [assumption|].
      destruct Hcase as [-> | [_ Hr]]; [apply to_int_range | exact Hr].
    + exists (S k). split; [lia|]. rewrite Hmod.
      rewrite Nat2Z.inj_succ, Z.pow_succ_r by lia.
      rewrite Zmult_mod, mul_assign_mod, <- Zmult_mod. f_equal. ring.
  - intros [= <-]. split; [assumption|]. split; [now left|].
    exists 0%nat. split; [lia|]. f_equal. cbn. lia.
Qed.

(** X18.  Whatever the base and the argument, a value that [ge_pow<N>(i)]
    returns is no smaller than [i], lies between [1] and [INT_MAX], and is
    a power of [N] modulo [2^32] (a power of [N] itself as long as the
    accumulator did not wrap). *)
Theorem ge_pow_result (N i : Z) (fuel : nat) (r : Z) :
  ge_pow N i fuel = Some r ->
  i <= r /\ 1 <= r <= Int32.INT_MAX /\
  exists k : nat, r mod 2 ^ 32 = N ^ Z.of_nat k mod 2 ^ 32.
Proof.
  unfold ge_pow. intros H.
  destruct (ge_pow_loop_post fuel N i 1 r H) as (Hir & Hcase & k & _ & Hmod).
  split; [assumption|]. split.
  - destruct Hcase as [-> | [H1 Hr]]; [unfold Int32.INT_MAX; lia | lia].
  - exists k. change (2 ^ 32) with 4294967296. rewrite Hmod. f_equal. lia.
Qed.

(** [ge_pow<10>(10^9 + 1)] wraps and returns [10^10 mod 2^32]. *)
Lemma ge_pow_result_witness :
  ge_pow 10 1000000001 10 = Some 1410065408 /\
  1000000001 <= 1410065408 /\ 1 <= 1410065408 <= Int32.INT_MAX /\
  exists k : nat, 1410065408 mod 2 ^ 32 = 10 ^ Z.of_nat k mod 2 ^ 32.
Proof.
  split; [reflexivity|].
  apply (ge_pow_result 10 1000000001 10 1410065408). reflexivity.
Defined.

Lemma ge_pow_loop_idem fuel N i : forall p r,
  ge_pow_loop fuel N i p = Some r -> ge_pow_loop fuel N r p = Some r.
Proof.
  induction fuel as [|fuel IH]; intros p r H.
  - cbn [ge_pow_loop] in *. destruct (Z.ltb_spec p i); [discriminate|].
    injection H as <-. rewrite Z.ltb_irrefl. reflexivity.
  - destruct (ge_pow_loop_post _ _ _ _ _ H) as (Hir & _).
    cbn [ge_pow_loop] in *. destruct (Z.ltb_spec p i) as [Hlt|Hge].
    + destruct (Z.ltb_spec p r); [|lia]. now apply IH.
    + injection H as <-. rewrite Z.ltb_irrefl. reflexivity.
Qed.

(** X19.  [ge_pow] is idempotent: applied to a value it returned, it
    returns that value again, in as many rounds of the loop. *)
Theorem ge_pow_idempotent (N i : Z) (fuel : nat) (r : Z) :
  ge_pow N i fuel = Some r -> ge_pow N r fuel = Some r.
Proof. apply ge_pow_loop_idem. Qed.

Lemma ge_pow_idempotent_witness :
  ge_pow 3 100 5 = Some 243 /\ ge_pow 3 243 5 = Some 243.
Proof.
  split; [reflexivity|]. apply (ge_pow_idempotent 3 100 5 243). reflexivity.
Defined.

Lemma ge_pow_loop_mono N i j : i <= j -> forall f1 f2 p ri rj,
  ge_pow_loop f1 N i p = Some ri -> ge_pow_loop f2 N j p = Some rj -> ri <= rj.
Proof.
  intros Hij. induction f1 as [|f1 IH]; intros f2 p ri rj Hi Hj.
  - cbn [ge_pow_loop] in Hi. destruct (Z.ltb_spec p i); [discriminate|].
    injection Hi as <-.
    destruct (ge_pow_loop_post _ _ _ _ _ Hj) as (Hjr & [-> | [Hp _]] & _); lia.
  - cbn [ge_pow_loop] in Hi. destruct (Z.ltb_spec p i) as [Hlt|Hge].
    + destruct f2 as [|f2]; cbn [ge_pow_loop] in Hj;
        (destruct (Z.ltb_spec p j); [|lia]); [discriminate|].
      eapply IH; eassumption.
    + injection Hi as <-.
      destruct (ge_pow_loop_post _ _ _ _ _ Hj) as (Hjr & [-> | [Hp _]] & _); lia.
Qed.

(** X20.  [ge_pow] is monotone: for [i <= j], what [ge_pow<N>(i)] returns
    is at most what [ge_pow<N>(j)] returns, whenever both return. *)
Theorem ge_pow_monotone (N i j : Z) (f1 f2 : nat) (ri rj : Z) :
  i <= j -> ge_pow N i f1 = Some ri -> ge_pow N j f2 = Some rj -> ri <= rj.
Proof. intros Hij. apply ge_pow_loop_mono. exact Hij. Qed.

Lemma ge_pow_monotone_witness :
  ge_pow 2 5 3 = Some 8 /\ ge_pow 2 9 4 = Some 16 /\ 8 <= 16.
Proof.
  split; [reflexivity|]. split; [reflexivity|].
  apply (ge_pow_monotone 2 5 9 3 4 8 16); [lia | reflexivity | reflexivity].
Defined.

(** Without wrap-around: from an accumulator below [i <= INT_MAX / N] the
    product still fits an [int]. *)
Lemma ge_pow_loop_in_range N i : 2 <= N -> i <= Int32.INT_MAX / N ->
  forall fuel p, 1 <= p -> i <= p * 2 ^ Z.of_nat fuel ->
    (p < i \/ p = 1) ->
    exists r, ge_pow_loop fuel N i p = Some r /\ i <= r /\
              (r = p \/ r < i * N) /\
              exists k : nat, (k <= fuel)%nat /\ r = p * N ^ Z.of_nat k.
Proof.
  intros HN Hi. induction fuel as [|fuel IH]; intros p Hp Hbound Hstart.
  - cbn in Hbound. exists p. split; [apply ge_pow_loop_done; lia|].
    split; [lia|]. split; [now left|]. exists 0%nat. split; [lia | cbn; lia].
  - destruct (Z.lt_ge_cases p i) as [Hlt|Hge].
    + rewrite ge_pow_loop_step by assumption.
      assert (HiN : i * N <= Int32.INT_MAX).
      { unfold Int32.INT_MAX in *.
        pose proof (Z.mul_div_le 2147483647 N ltac:(lia)). nia. }
      assert (HpN : p * N <= Int32.INT_MAX) by nia.
      rewrite mul_assign_small by lia.
      destruct (Z.lt_ge_cases (p * N) i) as [Hlt2|Hge2].
      * destruct (IH (p * N)) as (r & Hrun & Hir & Hcase & k & Hk & Hr).
        -- nia.
        -- rewrite Nat2Z.inj_succ, Z.pow_succ_r in Hbound by lia. nia.
        -- now left.
        -- exists r. split; [exact Hrun|]. split; [exact Hir|]. split.
           ++ right. destruct Hcase as [-> | H]; [lia | exact H].
           ++ exists (S k). split; [lia|]. rewrite Hr, Nat2Z.inj_succ, Z.pow_succ_r by lia. ring.
      * exists (p * N). split; [apply ge_pow_loop_done; lia|].
        split; [lia|]. split; [right; nia|].
        exists 1%nat. split; [lia|]. change (Z.of_nat 1) with 1. rewrite Z.pow_1_r. reflexivity.
    + exists p. split; [apply ge_pow_loop_done; lia|].
      split; [lia|]. split; [now left|]. exists 0%nat. split; [lia | cbn; lia].
Qed.

Lemma ge_pow_loop_more_fuel fuel N i : forall p r,
  ge_pow_loop fuel N i p = Some r ->
  forall fuel', (fuel <= fuel')%nat -> ge_pow_loop fuel' N i p = Some r.
Proof.
  induction fuel as [|fuel IH]; intros p r H fuel' Hf.
  - cbn [ge_pow_loop] in H. destruct (Z.ltb_spec p i); [discriminate|].
    injection H as <-. now apply ge_pow_loop_done.
  - cbn [ge_pow_loop] in H. destruct (Z.ltb_spec p i) as [Hlt|Hge].
    + destruct fuel' as [|fuel']; [lia|]. rewrite ge_pow_loop_step by assumption.
      apply IH; [assumption | lia].
    + injection H as <-. now apply ge_pow_loop_done.
Qed.

(** X21.  For a base [N >= 2] and an argument [i <= INT_MAX / N] (the
    quotient of [int]), [ge_pow<N>(i)] leaves its loop after at most 31
    rounds, without wrap-around, and returns a power of [N] that is no
    smaller than [i] and, for [i > 1], smaller than [i * N]. *)
Theorem ge_pow_terminates (N i : Z) :
  2 <= N -> i <= Int32.INT_MAX / N ->
  exists k : nat,
    (k <= 31)%nat /\
    (forall fuel, (31 <= fuel)%nat -> ge_pow N i fuel = Some (N ^ Z.of_nat k)) /\
    i <= N ^ Z.of_nat k /\
    (1 < i -> N ^ Z.of_nat k < i * N).
Proof.
  intros HN Hi.
  assert (Hi31 : i <= 1 * 2 ^ Z.of_nat 31).
  { unfold Int32.INT_MAX in Hi.
    assert (2147483647 / N <= 2147483647) by (apply Z.div_le_upper_bound; lia).
    change (2 ^ Z.of_nat 31) with 2147483648. lia. }
  destruct (ge_pow_loop_in_range N i HN Hi 31%nat 1 ltac:(lia) Hi31 ltac:(now right))
    as (r & Hrun & Hir & Hcase & k & Hk & Hr).
  rewrite Z.mul_1_l in Hr. subst r.
  exists k. split; [exact Hk|]. split; [|split; [exact Hir|]].
  - intros fuel Hf. unfold ge_pow. eapply ge_pow_loop_more_fuel; eassumption.
  - intros H1. destruct Hcase as [H | H]; [lia | exact H].
Qed.

Lemma ge_pow_terminates_witness :
  exists k : nat,
    (k <= 31)%nat /\
    (forall fuel, (31 <= fuel)%nat -> ge_pow 10 100000000 fuel = Some (10 ^ Z.of_nat k)) /\
    100000000 <= 10 ^ Z.of_nat k /\
    (1 < 100000000 -> 10 ^ Z.of_nat k < 100000000 * 10).
Proof.
  apply (ge_pow_terminates 10 100000000); [lia | vm_compute; discriminate].
Defined.

Lemma ge_pow2_orbit_bounded :
  forallb (fun p => (p <=? 1073741824) &&
                    existsb (Z.eqb (Int32.mul_assign p 2)) ge_pow2_orbit)
          ge_pow2_orbit = true.
Proof. vm_compute. reflexivity. Qed.

Lemma ge_pow2_orbit_stuck i fuel :
  1073741824 < i ->
  forall p, In p ge_pow2_orbit -> ge_pow_loop fuel 2 i p = None.
Proof.
  intros Hi. induction fuel as [|fuel IH]; intros p Hp;
    pose proof (proj1 (forallb_forall _ _) ge_pow2_orbit_bounded p Hp) as Hc;
    apply andb_true_iff in Hc; destruct Hc as [Hle Hnext];
    apply Z.leb_le in Hle;
    cbn [ge_pow_loop]; (destruct (Z.ltb_spec p i); [|lia]); [reflexivity|].
  apply IH. apply existsb_exists in Hnext. destruct Hnext as (q & Hq & Heq).
  apply Z.eqb_eq in Heq. now subst q.
Qed.

(** X22.  [ge_pow<2>(i)] returns exactly for the arguments up to [2^30]:
    for a larger [i] the accumulator runs through the powers of two, wraps
    to [INT_MIN], then to [0], and the loop never exits. *)
Theorem ge_pow2_terminates_iff (i : Z) :
  (exists fuel r, ge_pow 2 i fuel = Some r) <-> i <= 2 ^ 30.
Proof.
  split.
  - intros (fuel & r & H).
    destruct (Z.le_gt_cases i (2 ^ 30)) as [|Hgt]; [assumption|exfalso].
    unfold ge_pow in H. rewrite (ge_pow2_orbit_stuck i fuel) in H.
    + discriminate.
    + change (2 ^ 30) with 1073741824 in Hgt. lia.
    + cbn. auto.
  - intros Hi.
    destruct (ge_pow_loop_from_power 2 i 30 ltac:(lia)
                ltac:(split; [exact Hi | vm_compute; discriminate]) 30%nat 0%nat)
      as (r & _ & Hrun & _); [lia | intros j' Hj'; lia |].
    exists 30%nat, (2 ^ Z.of_nat r). apply Hrun. lia.
Qed.

(* ================================================================== *)
(** * Properties: src/ros/rviz_grid_viewer.h *)
(* ================================================================== *)

Import RvizGridViewer.

(** ** The scaled value of a cell *)



(** ** The export loops *)










(** ** Cells without a defined conversion *)

Lemma push_row_None row : push_row None row = None.
Proof. unfold push_row. induction row as [|c row IH]; [reflexivity | exact IH]. Qed.

Lemma push_rows_None rows : fold_left push_row rows None = None.
Proof.
  induction rows as [|row rows IH]; [reflexivity|].
  cbn [fold_left]. rewrite push_row_None. exact IH.
Qed.

Lemma push_row_cases row : forall d,
  (exists d', push_row (Some d) row = Some (d ++ d') /\ length d' = length row /\
              Forall (fun c => cell_value c <> None) row) \/
  (push_row (Some d) row = None /\ Exists (fun c => cell_value c = None) row).
Proof.
  unfold push_row. induction row as [|c row IH]; intros d.
  - left. exists []. rewrite app_nil_r. repeat split. constructor.
  - cbn [fold_left]. unfold push_cell at 2 4.
    destruct (cell_value c) as [z|] eqn:Ec.
    + destruct (IH (d ++ [int_to_int8 z])) as [(d' & Hrun & Hlen & Hall) | [Hrun Hex]].
      * left. exists (int_to_int8 z :: d'). rewrite Hrun, <- app_assoc.
        repeat split; [cbn; lia|]. constructor; [congruence | assumption].
      * right. split; [assumption | now apply Exists_cons_tl].
    + right. split; [apply push_row_None | now apply Exists_cons_hd].
Qed.

Lemma push_rows_cases rows : forall d,
  (exists d', fold_left push_row rows (Some d) = Some (d ++ d') /\
              length d' = length (concat rows) /\
              Forall (Forall (fun c => cell_value c <> None)) rows) \/
  (fold_left push_row rows (Some d) = None /\
   Exists (Exists (fun c => cell_value c = None)) rows).
Proof.
  induction rows as [|row rows IH]; intros d.
  - left. exists []. rewrite app_nil_r. repeat split. constructor.
  - cbn [fold_left].
    destruct (push_row_cases row d) as [(d1 & Hrun1 & Hlen1 & Hall1) | [Hrun1 Hex1]].
    + rewrite Hrun1.
      destruct (IH (d ++ d1)) as [(d2 & Hrun2 & Hlen2 & Hall2) | [Hrun2 Hex2]].
      * left. exists (d1 ++ d2). rewrite Hrun2, <- app_assoc.
        repeat split; [cbn [concat]; rewrite !length_app; lia|].
        constructor; assumption.
      * right. split; [assumption | now apply Exists_cons_tl].
    + rewrite Hrun1. right. split; [apply push_rows_None | now apply Exists_cons_hd].
Qed.

Lemma Forall_Exists_absurd {A : Type} (P : A -> Prop) (l : list A) :
  Forall (fun x => P x -> False) l -> Exists P l -> False.
Proof.
  intros HF HE. apply Exists_exists in HE. destruct HE as (x & Hx & HP).
  rewrite Forall_forall in HF. exact (HF x Hx HP).
Qed.

(** X23.  [on_map_update] has no defined result exactly when it is not
    throttled and some cell of the map has a value whose scaled conversion
    to [int] is undefined; a cell whose value is NaN or an infinity is such
    a cell.  A throttled call never reads the cells. *)
Theorem on_map_update_undefined
    (Time : Type) (elapsed_sec : Time -> Time -> double)
    (v : Viewer Time) (now_start now_load now_done : Time) (map : GridMap) :
  (on_map_update Time elapsed_sec v now_start now_load now_done map = None <->
   ltb (elapsed_sec now_start (last_pub_time v)) (map_publishing_rate v) = false /\
   Exists (Exists (fun c => cell_value c = None)) (cells map)) /\
  (forall c, is_real (value c) = false -> cell_value c = None).
Proof.
  split.
  - unfold on_map_update, push_cells.
    destruct (ltb _ _) eqn:Er.
    + split; [discriminate | intros [H _]; discriminate].
    + destruct (push_rows_cases (cells map) []) as [(d & Hrun & _ & Hall) | [Hrun Hex]];
        rewrite Hrun.
      * split; [discriminate|]. intros [_ Hex]. exfalso.
        apply Exists_exists in Hex. destruct Hex as (row & Hrow & Hex).
        rewrite Forall_forall in Hall. specialize (Hall row Hrow).
        exact (Forall_Exists_absurd _ _ Hall Hex).
      * split; [intros _; split; [reflexivity | assumption] | reflexivity].
  - intros [x]. unfold cell_value. cbn [value].
    destruct x as [[]|[]| |[] m e]; try discriminate; intros _; reflexivity.
Qed.

(** ** The hundredths *)

Lemma hundredths_checked :
  forallb (fun k => match cell_value {| value := div (of_Z k) (of_Z 100) |} with
                    | Some z => z =? (if existsb (Z.eqb k) [29; 57; 58] then k - 1 else k)
                    | None => false
                    end)
          (List.map (fun j => 0 + Z.of_nat j) (seq 0 (Z.to_nat 101))) = true.
Proof. vm_compute. reflexivity. Qed.

(** X24.  The scaled value is cut, not rounded: a cell whose value is the
    double nearest to [k / 100], for [k] from [0] to [100], is exported as
    [k], except for [k = 29], [57] and [58], which are exported as [28],
    [56] and [57]. *)
Theorem cell_value_hundredths (k : Z) :
  0 <= k <= 100 ->
  cell_value {| value := div (of_Z k) (of_Z 100) |} =
    Some (if existsb (Z.eqb k) [29; 57; 58] then k - 1 else k).
Proof.
  intros Hk.
  pose proof (proj1 (forallb_forall _ _) hundredths_checked k
                (Z_range_in 0 101 k ltac:(lia))) as H.
  cbv beta in H.
  destruct (cell_value _) as [z|]; [|discriminate].
  apply Z.eqb_eq in H. now subst z.
Qed.

Lemma cell_value_hundredths_witness :
  cell_value {| value := div (of_Z 29) (of_Z 100) |} = Some 28.
Proof.
  apply (cell_value_hundredths 29). lia.
Defined.

(** ** Successive calls *)

Section RunFacts.
Import RvizGridViewerRun.
Variable Time : Type.
Variable elapsed_sec : Time -> Time -> double.

Lemma on_map_update_call_cases (v v' : Viewer Time) (c : MapUpdate Time) :
  on_map_update_call Time elapsed_sec v c = Some v' ->
  (ltb (elapsed_sec (now_start c) (last_pub_time v)) (map_publishing_rate v) = true /\ v' = v) \/
  (ltb (elapsed_sec (now_start c) (last_pub_time v)) (map_publishing_rate v) = false /\
   exists msg, published v' = published v ++ [msg] /\
               last_pub_time v' = now_done c /\
               map_publishing_rate v' = map_publishing_rate v /\
               map_load_time msg = now_load c /\
               info_width msg = width (update_map c) /\
               info_height msg = height (update_map c) /\
               push_cells (cells (update_map c)) = Some (data msg)).
Proof.
  unfold on_map_update_call, on_map_update.
  destruct (ltb _ _) eqn:Er.
  - intros [= <-]. left. split; reflexivity.
  - destruct (push_cells _) as [d|] eqn:Ed; [|discriminate].
    intros [= <-]. right. split; [reflexivity|].
    eexists. cbn. repeat split.
Qed.

(** X25.  After a call that published, every call that starts less than
    [map_publishing_rate] seconds after the end of that publication
    publishes nothing and leaves the viewer as it is, whatever its map: a
    burst of updates within one period costs one message. *)
Theorem on_map_updates_burst (v v0 : Viewer Time) (c0 : MapUpdate Time)
        (calls : list (MapUpdate Time)) :
  on_map_update_call Time elapsed_sec v c0 = Some v0 ->
  ltb (elapsed_sec (now_start c0) (last_pub_time v)) (map_publishing_rate v) = false ->
  Forall (fun c => ltb (elapsed_sec (now_start c) (now_done c0)) (map_publishing_rate v) = true)
         calls ->
  length (published v0) = S (length (published v)) /\
  on_map_updates Time elapsed_sec v0 calls = Some v0.
Proof.
  intros H0 Hpub Hall.
  destruct (on_map_update_call_cases _ _ _ H0) as [[Hr _] | [_ (msg & Hp & Ht & Hrate & _)]];
    [congruence|].
  split; [rewrite Hp, length_app; cbn; lia|].
  induction Hall as [|c calls Hc _ IH]; [reflexivity|].
  cbn [on_map_updates]. unfold on_map_update_call at 1, on_map_update.
  rewrite Ht, Hrate, Hc. exact IH.
Qed.

(** X26.  Over any sequence of calls the viewer keeps its publishing
    period and the messages it had published, in their order; it adds at
    most one message per call, each of them carrying the load time, the
    width, the height and the cells of one of the calls; and a sequence
    that adds no message leaves the viewer as it was. *)
Theorem on_map_updates_history (calls : list (MapUpdate Time)) :
  forall v v' : Viewer Time,
  on_map_updates Time elapsed_sec v calls = Some v' ->
  map_publishing_rate v' = map_publishing_rate v /\
  exists msgs,
    published v' = published v ++ msgs /\
    (length msgs <= length calls)%nat /\
    (msgs = [] -> v' = v) /\
    Forall (fun msg => Exists (fun c => map_load_time msg = now_load c /\
                                        info_width msg = width (update_map c) /\
                                        info_height msg = height (update_map c) /\
                                        push_cells (cells (update_map c)) = Some (data msg))
                              calls) msgs.
Proof.
  induction calls as [|c calls IH]; intros v v' H.
  - injection H as <-. split; [reflexivity|]. exists []. rewrite app_nil_r.
    repeat split; [cbn; lia | constructor].
  - cbn [on_map_updates] in H.
    destruct (on_map_update_call Time elapsed_sec v c) as [v1|] eqn:E1; [|discriminate].
    destruct (IH _ _ H) as (Hrate & msgs & Hp & Hlen & Hnil & Hall).
    assert (Hall' : Forall (fun msg => Exists (fun c0 => map_load_time msg = now_load c0 /\
                                        info_width msg = width (update_map c0) /\
                                        info_height msg = height (update_map c0) /\
                                        push_cells (cells (update_map c0)) = Some (data msg))
                              (c :: calls)) msgs).
    { eapply Forall_impl; [|exact Hall]. intros msg Hm. now apply Exists_cons_tl. }
    destruct (on_map_update_call_cases _ _ _ E1)
      as [[_ ->] | [_ (msg & Hp1 & Ht1 & Hrate1 & Hl & Hw & Hh & Hd)]].
    + split; [assumption|]. exists msgs. repeat split; try assumption. cbn; lia.
    + split; [congruence|]. exists (msg :: msgs).
      rewrite Hp, Hp1, <- app_assoc. repeat split; [cbn; lia | discriminate |].
      constructor; [|assumption]. apply Exists_cons_hd. repeat split; assumption.
Qed.

End RunFacts.

(** Three calls at seconds [10], [11] and [12] on a viewer with a period
    of five seconds: the first publishes, the next two do not. *)
Lemma on_map_updates_burst_witness :
  let v := {| published := []; last_pub_time := 0;
              map_publishing_rate := of_Z 5 |} in
  let map := {| width := 1; height := 1; scale := one;
                map_center_x := 0; map_center_y := 0;
                cells := [[ {| value := one |} ]] |} in
  let call t := {| RvizGridViewerRun.now_start := t; RvizGridViewerRun.now_load := t;
                   RvizGridViewerRun.now_done := t;
                   RvizGridViewerRun.update_map := map |} in
  let v0 := {| published := [ {| map_load_time := 10; info_width := 1;
                                 info_height := 1; data := [100] |} ];
               last_pub_time := 10;
               map_publishing_rate := of_Z 5 |} in
  length (published v0) = S (length (published v)) /\
  RvizGridViewerRun.on_map_updates Z (fun a b => of_Z (a - b)) v0 [call 11; call 12]
    = Some v0.
Proof.
  intros v map call v0.
  apply (on_map_updates_burst Z (fun a b => of_Z (a - b)) v v0 (call 10) [call 11; call 12]).
  - reflexivity.
  - reflexivity.
  - repeat constructor.
Defined.

Lemma on_map_updates_history_witness :
  let v := {| published := []; last_pub_time := 0;
              map_publishing_rate := of_Z 5 |} in
  let map := {| width := 1; height := 1; scale := one;
                map_center_x := 0; map_center_y := 0;
                cells := [[ {| value := one |} ]] |} in
  let call t := {| RvizGridViewerRun.now_start := t; RvizGridViewerRun.now_load := t;
                   RvizGridViewerRun.now_done := t;
                   RvizGridViewerRun.update_map := map |} in
  let v' := {| published := [ {| map_load_time := 10; info_width := 1;
                                 info_height := 1; data := [100] |} ];
               last_pub_time := 10;
               map_publishing_rate := of_Z 5 |} in
  map_publishing_rate v' = map_publishing_rate v /\
  exists msgs,
    published v' = published v ++ msgs /\
    (length msgs <= 2)%nat /\
    (msgs = [] -> v' = v) /\
    Forall (fun msg => Exists (fun c => map_load_time msg = RvizGridViewerRun.now_load c /\
                                        info_width msg = width (RvizGridViewerRun.update_map c) /\
                                        info_height msg = height (RvizGridViewerRun.update_map c) /\
                                        push_cells (cells (RvizGridViewerRun.update_map c))
                                          = Some (data msg))
                              [call 10; call 11]) msgs.
Proof.
  intros v map call v'.
  apply (on_map_updates_history Z (fun a b => of_Z (a - b)) [call 10; call 11] v v').
  reflexivity.
Defined.

(* ================================================================== *)
(** * Properties: the scan generator and the fixture *)
(* ================================================================== *)

Section GeneratorFacts.
Import RobotPoseModel PlainGridMap LaserScanGenerator FlatWall LaserScanGeneratorTest.
Local Open Scope R_scope.

(** ** The march of a ray *)

Lemma first_hit_unique m pose a r1 r2 :
  first_hit m pose a r1 -> first_hit m pose a r2 -> r1 = r2.
Proof.
  intros [(c1 & Ho1 & [Hp1 _]) Hmin1] [(c2 & Ho2 & [Hp2 _]) Hmin2].
  apply Rle_antisym; [exact (Hmin1 c2 r2 Ho2 Hp2) | exact (Hmin2 c1 r1 Ho1 Hp1)].
Qed.

Lemma beam_outcome_unique m pose max_range beta o1 o2 :
  beam_outcome m pose max_range beta o1 ->
  beam_outcome m pose max_range beta o2 -> o1 = o2.
Proof.
  intros H1 H2. destruct H1 as [r1 Hh1 Hr1 | Hm1], H2 as [r2 Hh2 Hr2 | Hm2].
  - now rewrite (first_hit_unique _ _ _ _ _ Hh1 Hh2).
  - specialize (Hm2 _ Hh1). lra.
  - specialize (Hm1 _ Hh2). lra.
  - reflexivity.
Qed.

Lemma generate_2D_laser_scan_unique m pose max_range beams pts1 :
  generate_2D_laser_scan m pose max_range beams pts1 ->
  forall pts2, generate_2D_laser_scan m pose max_range beams pts2 -> pts1 = pts2.
Proof.
  induction 1 as [| beta beams sp pts Ho _ IH | beta beams pts Ho _ IH];
    intros pts2 H2; inversion H2; subst.
  - reflexivity.
  - f_equal; [| now apply IH].
    match goal with H : beam_outcome _ _ _ _ (Some _) |- _ =>
      pose proof (beam_outcome_unique _ _ _ _ _ _ Ho H) as E end.
    congruence.
  - match goal with H : beam_outcome _ _ _ _ None |- _ =>
      pose proof (beam_outcome_unique _ _ _ _ _ _ Ho H) as E end.
    discriminate.
  - match goal with H : beam_outcome _ _ _ _ (Some _) |- _ =>
      pose proof (beam_outcome_unique _ _ _ _ _ _ Ho H) as E end.
    discriminate.
  - now apply IH.
Qed.

(** The sensor lies in the closed square of its own cell. *)
Lemma world_to_cell_in_cell m wx wy :
  0 < scale m -> in_cell m (world_to_cell m wx wy) (wx, wy).
Proof.
  intros Hs. unfold in_cell, world_to_cell. cbn [fst snd].
  pose proof (Zfloor_bound (wx / scale m)) as [Hx1 Hx2].
  pose proof (Zfloor_bound (wy / scale m)) as [Hy1 Hy2].
  assert (Ex : wx = wx / scale m * scale m) by (field; lra).
  assert (Ey : wy = wy / scale m * scale m) by (field; lra).
  repeat split.
  - rewrite Ex at 2. apply Rmult_le_compat_r; lra.
  - rewrite Ex at 1. apply Rmult_le_compat_r; lra.
  - rewrite Ey at 2. apply Rmult_le_compat_r; lra.
  - rewrite Ey at 1. apply Rmult_le_compat_r; lra.
Qed.

Lemma ray_point_0 pose a : ray_point pose a 0 = (x pose, y pose).
Proof. unfold ray_point. f_equal; ring. Qed.

(** A sensor inside an occupied cell: the march stops where it starts. *)
Lemma first_hit_at_origin m pose a :
  0 < scale m ->
  occupied m (world_to_cell m (x pose) (y pose)) ->
  first_hit m pose a 0.
Proof.
  intros Hs Hocc. split.
  - exists (world_to_cell m (x pose) (y pose)). split; [assumption|]. split.
    + split; [lra|]. rewrite ray_point_0. now apply world_to_cell_in_cell.
    + intros t' [Ht' _]. exact Ht'.
  - intros c t _ [Ht _]. exact Ht.
Qed.

(** C4.  A sensor placed in a cell whose value is fully occupied: whatever
    the beams and the (non-negative) maximal range, the scan has one point
    per beam, in the order of the beams, each of range [0]. *)
Theorem scan_inside_obstacle m pose max_range beams :
  0 < scale m -> 0 <= max_range ->
  occupied m (world_to_cell m (x pose) (y pose)) ->
  forall points,
    generate_2D_laser_scan m pose max_range beams points <->
    points = List.map (fun beta => {| range := 0; angle := beta; is_occupied := true |})
                      beams.
Proof.
  intros Hs Hmax Hocc.
  assert (Hgen : generate_2D_laser_scan m pose max_range beams
            (List.map (fun beta => {| range := 0; angle := beta; is_occupied := true |})
                      beams)).
  { induction beams as [|beta beams IH]; cbn [List.map]; constructor; trivial.
    constructor; [now apply first_hit_at_origin | assumption]. }
  intros points. split.
  - intros H. exact (generate_2D_laser_scan_unique _ _ _ _ _ H _ Hgen).
  - intros ->. exact Hgen.
Qed.

(** ** Flat walls *)

Lemma in_cell_coord ax m c p :
  in_cell m c p ->
  IZR (cell_coord ax c) * scale m <= coord ax p <= (IZR (cell_coord ax c) + 1) * scale m.
Proof. unfold in_cell. destruct ax; cbn; tauto. Qed.

Lemma coord_ray_point ax pose a t :
  coord ax (ray_point pose a t) = coord ax (x pose, y pose) + t * dir_cos ax a.
Proof. destruct ax; reflexivity. Qed.

Lemma arrival_mult m pose a w :
  dir_cos (wall_axis w) a <> 0 ->
  arrival m pose a w * dir_cos (wall_axis w) a =
  wall_plane m w - coord (wall_axis w) (x pose, y pose).
Proof. intros Hc. unfold arrival. field. exact Hc. Qed.

(** A point of the ray in a cell behind the face is at least as far as the
    arrival on the plane. *)
Lemma behind_not_before m pose a w c t :
  0 < scale m -> dir_cos (wall_axis w) a <> 0 ->
  passes_through m pose a c t -> behind w a c ->
  arrival m pose a w <= t.
Proof.
  intros Hs Hc [Ht Hin] Hb.
  pose proof (arrival_mult m pose a w Hc) as Hr.
  apply (in_cell_coord (wall_axis w)) in Hin. rewrite coord_ray_point in Hin.
  unfold behind in Hb. unfold wall_plane in Hr.
  set (r := arrival m pose a w) in *. set (d := dir_cos (wall_axis w) a) in *.
  set (o := coord (wall_axis w) (x pose, y pose)) in *.
  destruct (Rlt_dec 0 d) as [Hpos|Hneg].
  - apply IZR_le in Hb.
    assert (IZR (wall_line w) * scale m <= IZR (cell_coord (wall_axis w) c) * scale m)
      by (apply Rmult_le_compat_r; lra).
    assert (r * d <= t * d) by lra.
    apply Rmult_le_reg_r with d; assumption.
  - assert (Hd : d < 0) by lra.
    assert (Hb' : (cell_coord (wall_axis w) c + 1 <= wall_line w)%Z) by lia.
    apply IZR_le in Hb'. rewrite plus_IZR in Hb'.
    assert ((IZR (cell_coord (wall_axis w) c) + 1) * scale m <= IZR (wall_line w) * scale m)
      by (apply Rmult_le_compat_r; lra).
    assert (t * d <= r * d) by lra.
    destruct (Rle_dec r t) as [|Hn]; [assumption|].
    exfalso. assert (Htr : t < r) by lra.
    assert (0 < (r - t) * (- d)) by (apply Rmult_lt_0_compat; lra).
    lra.
Qed.

Lemma struck_cell_behind m pose a w : behind w a (struck_cell m pose a w).
Proof.
  unfold behind, struck_cell.
  destruct (Rlt_dec 0 (dir_cos (wall_axis w) a)); destruct (wall_axis w); cbn; lia.
Qed.

Lemma struck_cell_passes m pose a w :
  0 < scale m -> dir_cos (wall_axis w) a <> 0 -> 0 <= arrival m pose a w ->
  passes_through m pose a (struck_cell m pose a w) (arrival m pose a w).
Proof.
  intros Hs Hc Hr. split; [assumption|].
  pose proof (arrival_mult m pose a w Hc) as Hm.
  assert (Hplane : coord (wall_axis w) (ray_point pose a (arrival m pose a w)) = wall_plane m w).
  { rewrite coord_ray_point. lra. }
  set (p := ray_point pose a (arrival m pose a w)) in *.
  pose proof (Zfloor_bound (coord (other_axis (wall_axis w)) p / scale m)) as [Hf1 Hf2].
  set (q := coord (other_axis (wall_axis w)) p) in *.
  assert (Eq : q = q / scale m * scale m) by (field; lra).
  assert (Hq1 : IZR (Zfloor (q / scale m)) * scale m <= q)
    by (rewrite Eq at 2; apply Rmult_le_compat_r; lra).
  assert (Hq2 : q <= (IZR (Zfloor (q / scale m)) + 1) * scale m)
    by (rewrite Eq at 1; apply Rmult_le_compat_r; lra).
  assert (Hcol : forall col : Z,
             col = (if Rlt_dec 0 (dir_cos (wall_axis w) a)
                    then wall_line w else (wall_line w - 1)%Z) ->
             IZR col * scale m <= wall_plane m w <= (IZR col + 1) * scale m).
  { intros col ->. unfold wall_plane.
    destruct (Rlt_dec 0 (dir_cos (wall_axis w) a)).
    - split; [lra|]. nra.
    - rewrite minus_IZR. split; [nra | lra]. }
  specialize (Hcol _ eq_refl).
  unfold struck_cell, in_cell. fold p. fold q.
  unfold q, coord, other_axis in *.
  destruct (wall_axis w); cbn [make_cell fst snd] in *; rewrite <- Hplane in Hcol;
    cbn [coord] in Hcol; tauto.
Qed.

(** The march of a beam that strikes a wall stops on the face. *)
Lemma first_hit_on_wall m pose a w :
  0 < scale m -> strikes m pose a w ->
  first_hit m pose a (arrival m pose a w).
Proof.
  intros Hs (Hc & Hr & Hocc & Hfree). split.
  - exists (struck_cell m pose a w). split; [assumption|]. split.
    + now apply struck_cell_passes.
    + intros t' Ht'. eapply behind_not_before; try eassumption.
      apply struck_cell_behind.
  - intros c t Ho Hp. eapply behind_not_before; try eassumption.
    now apply (Hfree c t).
Qed.

Lemma arrival_perpendicular m pose a w :
  dir_cos (wall_axis w) a <> 0 -> 0 <= arrival m pose a w ->
  arrival m pose a w = perpendicular_distance m pose w / cos_incidence w a.
Proof.
  intros Hc Hr. unfold perpendicular_distance, cos_incidence.
  pose proof (arrival_mult m pose a w Hc) as Hm.
  rewrite <- Hm, Rabs_mult, (Rabs_pos_eq _ Hr).
  field. now apply Rabs_no_R0.
Qed.

(** ** The map of the fixture *)

(** The cecum: a block of 30 by 30 cells whose top ten rows and whose left
    and right ten columns are walls. *)
Lemma map_occupied (cx cy : Z) :
  occupied map (cx, cy) <->
  (0 <= cx <= 29 /\ -29 <= cy <= 0 /\ (-9 <= cy \/ cx <= 9 \/ 20 <= cx))%Z.
Proof.
  unfold occupied, map, patch_map_with_cecum, apply_text_raster, Patch_Scale.
  cbn [cell_value fst snd].
  destruct (Z.leb_spec 0 cx) as [Hx|Hx]; destruct (Z.leb_spec cy 0) as [Hy|Hy];
    cbn [andb]; try (split; [intros H; lra | intros H; lia]).
  unfold raster_char.
  pose proof (Z.div_mod (- cy) 10 ltac:(lia)) as Dy.
  pose proof (Z.mod_pos_bound (- cy) 10 ltac:(lia)) as My.
  pose proof (Z.div_mod cx 10 ltac:(lia)) as Dx.
  pose proof (Z.mod_pos_bound cx 10 ltac:(lia)) as Mx.
  assert (Hi : (- cy / 10 = 0 /\ -9 <= cy \/ - cy / 10 = 1 /\ -19 <= cy <= -10 \/
                - cy / 10 = 2 /\ -29 <= cy <= -20 \/ 3 <= - cy / 10 /\ cy <= -30)%Z) by lia.
  assert (Hj : (cx / 10 = 0 /\ cx <= 9 \/ cx / 10 = 1 /\ 10 <= cx <= 19 \/
                cx / 10 = 2 /\ 20 <= cx <= 29 \/ 3 <= cx / 10 /\ 30 <= cx)%Z) by lia.
  assert (Hrow : forall i : Z, (3 <= i)%Z ->
            nth_error Cecum_Corridor_Map_Patch (Z.to_nat i) = None).
  { intros i H3. apply nth_error_None. cbn. lia. }
  assert (Hcol : forall (line : string) (j : Z), (3 <= j)%Z ->
            In line Cecum_Corridor_Map_Patch -> String.get (Z.to_nat j) line = None).
  { intros line j H3 Hin.
    destruct (Z.to_nat j) as [|[|[|n]]] eqn:E; try lia.
    cbn in Hin. destruct Hin as [<-|[<-|[<-|[]]]]; reflexivity. }
  destruct Hi as [[-> Hi]|[[-> Hi]|[[-> Hi]|[Hi Hi']]]].
  4: { rewrite (Hrow _ Hi). split; [intros H; lra | intros H; exfalso; lia]. }
  all: destruct Hj as [[-> Hj]|[[-> Hj]|[[-> Hj]|[Hj Hj']]]].
  all: change (Z.to_nat 0) with 0%nat; change (Z.to_nat 1) with 1%nat;
       change (Z.to_nat 2) with 2%nat.
  all: try (cbn; split; [intros H; try lra; lia | intros H; try lra; exfalso; lia]).
  all: cbn [nth_error Cecum_Corridor_Map_Patch];
       rewrite (Hcol _ _ Hj) by (cbn; auto);
       split; [intros H; lra | intros H; exfalso; lia].
Qed.

Lemma map_scale : scale map = 1.
Proof. reflexivity. Qed.

(** ** Integer cells against real coordinates *)

Lemma cell_below (z k : Z) (r : R) : IZR z <= r -> r < IZR k -> (z < k)%Z.
Proof. intros H1 H2. apply lt_IZR. lra. Qed.

Lemma cell_above (z k : Z) (r : R) : r <= IZR z + 1 -> IZR k < r -> (k <= z)%Z.
Proof.
  intros H1 H2. assert (k < z + 1)%Z; [|lia].
  apply lt_IZR. rewrite plus_IZR. lra.
Qed.

(** The bounds of a cell of the fixture's map that the ray passes through. *)
Lemma passes_through_map pose a cx cy t :
  passes_through map pose a (cx, cy) t ->
  0 <= t /\
  IZR cx <= x pose + t * cos a <= IZR cx + 1 /\
  IZR cy <= y pose + t * sin a <= IZR cy + 1.
Proof.
  unfold passes_through, in_cell, ray_point. cbn [fst snd]. rewrite map_scale.
  intros (Ht & [H1 H2] & [H3 H4]). repeat split; lra.
Qed.

(** ** Axis-parallel beams from the left of the cecum entrance *)

Section LeftOfCecumEntrance.
Variable pose : RobotPose.
Hypothesis Hx : x pose = 21 / 2.
Hypothesis Hy : y pose = - 57 / 2.




End LeftOfCecumEntrance.

(** ** The scan from the left of the cecum entrance *)


(** The beams of a scanner that lie below [max_angle]: the first [n], when
    the field of view is between [n - 1] and [n] steps wide. *)
Lemma beams_below_max_angle (p : LaserScannerParams) (n : nat) :
  0 < angle_step p ->
  INR n * angle_step p - angle_step p < 2 * max_angle p <= INR n * angle_step p ->
  forall k : nat,
    - max_angle p + INR k * angle_step p < max_angle p <-> (k < n)%nat.
Proof.
  intros Hs [H1 H2] k. split.
  - intros Hk. apply INR_lt. nra.
  - intros Hk. apply lt_INR in Hk. 
    assert (INR k + 1 <= INR n).
    { rewrite <- S_INR. apply le_INR. apply INR_lt in Hk. lia. }
    nra.
Qed.

(** The four beams of the fixture's scanner. *)
Lemma lsg_beam_angles :
  beam_angles lsg 4 = [deg2rad (-180); deg2rad (-90); deg2rad 0; deg2rad 90].
Proof.
  unfold beam_angles, lsg, deg2rad. cbn [seq List.map max_angle angle_step INR].
  repeat (apply (f_equal2 (@cons R)); [lra|]). reflexivity.
Qed.

Lemma point_eqb_refl c : point_eqb c c = true.
Proof. unfold point_eqb. now rewrite !Z.eqb_refl. Qed.

(** The [insideObstacle4beams] test of the fixture: four points of range
    [0], the expected ones. *)
Lemma scan_inside_obstacle_witness :
  generate_2D_laser_scan insideObstacle4beams.map rpose_initial (max_range lsg)
    (beam_angles lsg 4) insideObstacle4beams.Expected_SPs.
Proof.
  apply (proj2 (scan_inside_obstacle insideObstacle4beams.map rpose_initial
                  (max_range lsg) (beam_angles lsg 4)
                  ltac:(cbn; unfold Map_Scale; lra) ltac:(cbn; lra)
                  ltac:(unfold occupied, insideObstacle4beams.map, observe_occupied;
                        cbn [cell_value]; unfold world_to_cell; cbn [scale];
                        now rewrite point_eqb_refl)
                  insideObstacle4beams.Expected_SPs)).
  rewrite lsg_beam_angles. reflexivity.
Defined.









(** ** Oblique incidence *)

(** The outcome of a beam that strikes a flat wall within the maximal range. *)
Lemma flat_wall_outcome m pose max_range beta w :
  0 < scale m ->
  strikes m pose (theta pose + beta) w ->
  perpendicular_distance m pose w / cos_incidence w (theta pose + beta) <= max_range ->
  forall o,
    beam_outcome m pose max_range beta o <->
    o = Some {| range := perpendicular_distance m pose w
                         / cos_incidence w (theta pose + beta);
                angle := beta; is_occupied := true |}.
Proof.
  intros Hs Hstr Hmax.
  pose proof (first_hit_on_wall m pose _ w Hs Hstr) as Hhit.
  destruct Hstr as (Hc & Hr & _).
  rewrite (arrival_perpendicular _ _ _ _ Hc Hr) in Hhit.
  assert (Hout : beam_outcome m pose max_range beta
                   (Some {| range := perpendicular_distance m pose w
                                     / cos_incidence w (theta pose + beta);
                            angle := beta; is_occupied := true |}))
    by (apply beam_hit; assumption).
  intros o. split.
  - intros Ho. exact (beam_outcome_unique _ _ _ _ _ _ Ho Hout).
  - intros ->. exact Hout.
Qed.

(** Measured to the middle of the struck row of cells instead of its face,
    the quotient moves by half a cell over the cosine. *)
Lemma half_cell_over_cos (d s ci : R) :
  0 < s -> 0 < ci ->
  Rabs ((d + s / 2) / ci - d / ci) * ci <= s / 2.
Proof.
  intros Hs Hci.
  replace ((d + s / 2) / ci - d / ci) with (s / 2 / ci) by (field; lra).
  rewrite Rabs_pos_eq.
  - right. field. lra.
  - apply Rmult_le_pos; [lra | left; now apply Rinv_0_lt_compat].
Qed.

(** The cosine of 45 degrees. *)
Lemma cos_PI4_facts : 0 < cos (PI / 4) /\ 2 * (cos (PI / 4) * cos (PI / 4)) = 1 /\
                      sin (PI / 4) = cos (PI / 4).
Proof.
  assert (Hs : sin (PI / 4) = cos (PI / 4)) by (rewrite sin_PI4, cos_PI4; reflexivity).
  pose proof (sin2_cos2 (PI / 4)) as H. unfold Rsqr in H. rewrite Hs in H.
  repeat split; [| lra | exact Hs].
  rewrite cos_PI4. apply Rdiv_lt_0_compat; [lra | apply sqrt_lt_R0; lra].
Qed.

(** The cosine of 30 degrees. *)
Lemma cos_PI6_facts : 0 < cos (PI / 6) /\ 4 * (cos (PI / 6) * cos (PI / 6)) = 3 /\
                      sin (PI / 6) = 1 / 2.
Proof.
  pose proof (sin2_cos2 (PI / 6)) as H. unfold Rsqr in H. rewrite sin_PI6 in H.
  repeat split; [| lra | exact sin_PI6].
  rewrite cos_PI6. apply Rdiv_lt_0_compat; [apply sqrt_lt_R0; lra | lra].
Qed.

(** ** The oblique beams of the fixture *)

Lemma end_right_pose :
  x rightOfCecumEndFacingLeftBot45deg4beams.rpose = 39 / 2 /\
  y rightOfCecumEndFacingLeftBot45deg4beams.rpose = - 19 / 2 /\
  theta rightOfCecumEndFacingLeftBot45deg4beams.rpose + deg2rad 0 = PI / 4 + PI.
Proof.
  unfold rightOfCecumEndFacingLeftBot45deg4beams.rpose, prepare_robot_pose, pose_add,
    rightOfCecumEndFacingLeftBot45deg4beams.pose_delta, rpose_initial, deg2rad.
  cbn [x y theta d_x d_y d_theta]. rewrite map_scale. unfold Map_Scale.
  change (IZR ((Cecum_Free_X_Start + Cecum_Free_W) * Patch_Scale - 1)) with 19.
  change (IZR (Cecum_Free_Y_Start * Patch_Scale)) with (-10).
  repeat split; lra.
Qed.

Lemma end_left_pose :
  x leftOfCecumEndFacingRightBot30deg4beams.rpose = 21 / 2 /\
  y leftOfCecumEndFacingRightBot30deg4beams.rpose = - 19 / 2 /\
  theta leftOfCecumEndFacingRightBot30deg4beams.rpose + deg2rad 0 = - (PI / 6).
Proof.
  unfold leftOfCecumEndFacingRightBot30deg4beams.rpose, prepare_robot_pose, pose_add,
    leftOfCecumEndFacingRightBot30deg4beams.pose_delta, rpose_initial, deg2rad.
  cbn [x y theta d_x d_y d_theta]. rewrite map_scale. unfold Map_Scale.
  change (IZR (Cecum_Free_X_Start * Patch_Scale)) with 10.
  change (IZR (Cecum_Free_Y_Start * Patch_Scale)) with (-10).
  repeat split; lra.
Qed.

(** From the top right cell of the corridor, heading 225 degrees: the beam
    ahead crosses the corridor and strikes the left wall at 45 degrees. *)
Lemma strikes_left_wall_at_45 :
  strikes map rightOfCecumEndFacingLeftBot45deg4beams.rpose
    (theta rightOfCecumEndFacingLeftBot45deg4beams.rpose + deg2rad 0)
    {| wall_axis := AxisX; wall_line := 10 |}.
Proof.
  destruct end_right_pose as (Hx & Hy & Ha). rewrite Ha.
  destruct cos_PI4_facts as (Hk & Hk2 & Hsk).
  set (pose := rightOfCecumEndFacingLeftBot45deg4beams.rpose) in *. clearbody pose.
  set (k := cos (PI / 4)) in *.
  assert (Hc : cos (PI / 4 + PI) = - k) by apply neg_cos.
  assert (Hs : sin (PI / 4 + PI) = - k) by (rewrite neg_sin, Hsk; reflexivity).
  assert (Hr : arrival map pose (PI / 4 + PI) {| wall_axis := AxisX; wall_line := 10 |}
               = 19 / 2 / k).
  { unfold arrival, wall_plane. rewrite map_scale. cbn. rewrite Hc, Hx. field. lra. }
  assert (Hr0 : 0 <= 19 / 2 / k) by (apply Rmult_le_pos; [lra | left; now apply Rinv_0_lt_compat]).
  unfold strikes. cbn [wall_axis dir_cos]. rewrite Hr. repeat split.
  - rewrite Hc. lra.
  - exact Hr0.
  - unfold struck_cell. cbn [wall_axis wall_line dir_cos other_axis coord make_cell].
    rewrite Hr. unfold ray_point. cbn [snd]. rewrite Hs, Hy, map_scale.
    destruct (Rlt_dec 0 (cos (PI / 4 + PI))) as [H|_]; [rewrite Hc in H; lra|].
    replace ((-19 / 2 + 19 / 2 / k * - k) / 1) with (IZR (-19)) by (field; lra).
    rewrite ZfloorZ. apply map_occupied. lia.
  - intros [cx cy] t Ho Hp. unfold behind. cbn [wall_axis wall_line dir_cos cell_coord fst].
    destruct (Rlt_dec 0 (cos (PI / 4 + PI))) as [H|_]; [rewrite Hc in H; lra|].
    apply passes_through_map in Hp. rewrite Hc, Hs, Hx, Hy in Hp.
    destruct Hp as (Ht & [Hx1 Hx2] & [Hy1 Hy2]).
    assert (Hu : 0 <= t * k) by (apply Rmult_le_pos; lra).
    replace (t * - k) with (- (t * k)) in * by ring.
    set (u := t * k) in *.
    apply map_occupied in Ho.
    destruct (Z.lt_ge_cases cx 10) as [|Hge]; [assumption|exfalso].
    pose proof (IZR_le _ _ Hge) as Hge'.
    assert (cx < 20)%Z by (apply (cell_below _ _ _ Hx1); lra).
    assert (cy < -9)%Z by (apply (cell_below _ _ _ Hy1); lra).
    assert (-20 <= cy)%Z by (apply (cell_above _ _ _ Hy2); lra).
    lia.
Qed.

(** From the top left cell of the corridor, heading -30 degrees: the beam
    ahead crosses the corridor and strikes the right wall at 30 degrees. *)
Lemma strikes_right_wall_at_30 :
  strikes map leftOfCecumEndFacingRightBot30deg4beams.rpose
    (theta leftOfCecumEndFacingRightBot30deg4beams.rpose + deg2rad 0)
    {| wall_axis := AxisX; wall_line := 20 |}.
Proof.
  destruct end_left_pose as (Hx & Hy & Ha). rewrite Ha.
  destruct cos_PI6_facts as (Hk & Hk2 & Hsk).
  set (pose := leftOfCecumEndFacingRightBot30deg4beams.rpose) in *. clearbody pose.
  set (k := cos (PI / 6)) in *.
  assert (Hc : cos (- (PI / 6)) = k) by apply cos_neg.
  assert (Hs : sin (- (PI / 6)) = - (1 / 2)) by (rewrite sin_neg, Hsk; reflexivity).
  assert (Hk12 : 1 / 2 <= k) by nra.
  assert (Hr : arrival map pose (- (PI / 6)) {| wall_axis := AxisX; wall_line := 20 |}
               = 19 / 2 / k).
  { unfold arrival, wall_plane. rewrite map_scale. cbn. rewrite Hc, Hx. field. lra. }
  assert (Hr0 : 0 <= 19 / 2 / k) by (apply Rmult_le_pos; [lra | left; now apply Rinv_0_lt_compat]).
  assert (Hr1 : 19 / 2 / k <= 19).
  { assert (Hq : 19 / 2 / k * k = 19 / 2) by (field; lra). nra. }
  unfold strikes. cbn [wall_axis dir_cos]. rewrite Hr. repeat split.
  - rewrite Hc. lra.
  - exact Hr0.
  - unfold struck_cell. cbn [wall_axis wall_line dir_cos other_axis coord make_cell].
    rewrite Hr. unfold ray_point. cbn [snd]. rewrite Hs, Hy, map_scale.
    destruct (Rlt_dec 0 (cos (- (PI / 6)))) as [_|H]; [|rewrite Hc in H; lra].
    set (ystar := (-19 / 2 + 19 / 2 / k * - (1 / 2)) / 1).
    assert (Hy1 : -19 <= ystar <= - 19 / 2) by (unfold ystar; lra).
    pose proof (Zfloor_bound ystar) as [Hf1 Hf2].
    assert (Zfloor ystar < -9)%Z by (apply (cell_below _ _ _ Hf1); lra).
    assert (-20 <= Zfloor ystar)%Z by (apply (cell_above _ (-20)%Z ystar); lra).
    apply map_occupied. lia.
  - intros [cx cy] t Ho Hp. unfold behind. cbn [wall_axis wall_line dir_cos cell_coord fst].
    destruct (Rlt_dec 0 (cos (- (PI / 6)))) as [_|H]; [|rewrite Hc in H; lra].
    apply passes_through_map in Hp. rewrite Hc, Hs, Hx, Hy in Hp.
    destruct Hp as (Ht & [Hx1 Hx2] & [Hy1 Hy2]).
    apply map_occupied in Ho.
    destruct (Z.le_gt_cases 20 cx) as [|Hlt]; [assumption|exfalso].
    assert (Hlt' : (cx + 1 <= 20)%Z) by lia.
    apply IZR_le in Hlt'. rewrite plus_IZR in Hlt'.
    assert (Htk : t * k <= 19 / 2) by lra.
    assert (Ht19 : t <= 19) by nra.
    assert (10 <= cx)%Z by (apply (cell_above _ _ _ Hx2); nra).
    assert (cy < -9)%Z by (apply (cell_below _ _ _ Hy1); lra).
    assert (-20 <= cy)%Z by (apply (cell_above _ _ _ Hy2); lra).
    lia.
Qed.

Lemma left_wall_at_45_distance :
  perpendicular_distance map rightOfCecumEndFacingLeftBot45deg4beams.rpose
    {| wall_axis := AxisX; wall_line := 10 |} = 19 / 2 /\
  cos_incidence {| wall_axis := AxisX; wall_line := 10 |}
    (theta rightOfCecumEndFacingLeftBot45deg4beams.rpose + deg2rad 0) = cos (PI / 4).
Proof.
  destruct end_right_pose as (Hx & Hy & Ha). destruct cos_PI4_facts as (Hk & _ & _).
  unfold perpendicular_distance, cos_incidence, wall_plane.
  cbn [wall_axis wall_line dir_cos coord fst]. rewrite Ha, Hx, map_scale, neg_cos.
  split.
  - replace (10 * 1 - 39 / 2) with (- (19 / 2)) by lra.
    rewrite Rabs_Ropp. apply Rabs_pos_eq. lra.
  - rewrite Rabs_Ropp. apply Rabs_pos_eq. lra.
Qed.

Lemma right_wall_at_30_distance :
  perpendicular_distance map leftOfCecumEndFacingRightBot30deg4beams.rpose
    {| wall_axis := AxisX; wall_line := 20 |} = 19 / 2 /\
  cos_incidence {| wall_axis := AxisX; wall_line := 20 |}
    (theta leftOfCecumEndFacingRightBot30deg4beams.rpose + deg2rad 0) = cos (PI / 6).
Proof.
  destruct end_left_pose as (Hx & Hy & Ha). destruct cos_PI6_facts as (Hk & _ & _).
  unfold perpendicular_distance, cos_incidence, wall_plane.
  cbn [wall_axis wall_line dir_cos coord fst]. rewrite Ha, Hx, map_scale, cos_neg.
  split.
  - replace (20 * 1 - 21 / 2) with (19 / 2) by lra. apply Rabs_pos_eq. lra.
  - apply Rabs_pos_eq. lra.
Qed.

(** C5.  A beam that strikes a flat wall at incidence angle [alpha] from
    the normal of the wall, within the maximal range: the beam has exactly
    one outcome, a scan point whose range is the perpendicular distance to
    the face of the wall divided by [cos alpha]; so the range is within any
    tolerance of that quotient, and within half a cell over [cos alpha] of
    the quotient taken to the middle of the struck row of cells, which is
    the expectation and the tolerance of the fixture. *)
Theorem oblique_incidence_range m pose max_range beta w :
  0 < scale m ->
  strikes m pose (theta pose + beta) w ->
  perpendicular_distance m pose w / cos_incidence w (theta pose + beta) <= max_range ->
  let r := perpendicular_distance m pose w / cos_incidence w (theta pose + beta) in
  (forall o, beam_outcome m pose max_range beta o <->
             o = Some {| range := r; angle := beta; is_occupied := true |}) /\
  (forall sp tol, beam_outcome m pose max_range beta (Some sp) -> 0 <= tol ->
     Rabs (range sp - r) <= tol) /\
  (forall sp, beam_outcome m pose max_range beta (Some sp) ->
     Rabs ((perpendicular_distance m pose w + scale m / 2)
             / cos_incidence w (theta pose + beta) - range sp)
       * cos_incidence w (theta pose + beta) <= scale m / 2).
Proof.
  intros Hs Hstr Hmax r.
  pose proof (flat_wall_outcome m pose max_range beta w Hs Hstr Hmax) as Hout.
  fold r in Hout.
  assert (Hci : 0 < cos_incidence w (theta pose + beta)).
  { destruct Hstr as (Hc & _). unfold cos_incidence. now apply Rabs_pos_lt. }
  split; [exact Hout|]. split.
  - intros sp tol Ho Htol. apply Hout in Ho. inversion Ho. cbn [range].
    replace (r - r) with 0 by ring. rewrite Rabs_R0. exact Htol.
  - intros sp Ho. apply Hout in Ho. inversion Ho. cbn [range]. unfold r.
    now apply half_cell_over_cos.
Qed.

(** The beam ahead of the 45 degrees test of the fixture: incidence 45
    degrees on the left wall, 9.5 cells away. *)
Lemma oblique_incidence_range_witness :
  beam_outcome map rightOfCecumEndFacingLeftBot45deg4beams.rpose (max_range lsg)
    (deg2rad 0)
    (Some {| range := 19 / 2 / cos (PI / 4); angle := deg2rad 0;
             is_occupied := true |}).
Proof.
  destruct left_wall_at_45_distance as [Hd Hci].
  rewrite <- Hd, <- Hci.
  apply (proj1 (oblique_incidence_range map rightOfCecumEndFacingLeftBot45deg4beams.rpose
                  (max_range lsg) (deg2rad 0) {| wall_axis := AxisX; wall_line := 10 |}
                  ltac:(rewrite map_scale; lra) strikes_left_wall_at_45
                  ltac:(rewrite Hd, Hci; destruct cos_PI4_facts as (Hk & Hk2 & _);
                        cbn [max_range lsg];
                        assert (Hq : 19 / 2 / cos (PI / 4) * cos (PI / 4) = 19 / 2)
                          by (field; lra);
                        nra))).
  reflexivity.
Defined.

(** Both oblique tests of the fixture accept the beam ahead: the expected
    range is [10 / cos], the returned one [9.5 / cos], the tolerance
    [0.5 / cos]. *)
Lemma oblique_beams_within_fixture_tolerance :
  (forall sp,
      beam_outcome map rightOfCecumEndFacingLeftBot45deg4beams.rpose (max_range lsg)
        (deg2rad 0) (Some sp) ->
      check_scan_point rightOfCecumEndFacingLeftBot45deg4beams.rpose
        (SP (IZR Cecum_Free_W * rightOfCecumEndFacingLeftBot45deg4beams.scale
             / cos (deg2rad 45)) (deg2rad 0))
        sp sp_err_default) /\
  (forall sp,
      beam_outcome map leftOfCecumEndFacingRightBot30deg4beams.rpose (max_range lsg)
        (deg2rad 0) (Some sp) ->
      check_scan_point leftOfCecumEndFacingRightBot30deg4beams.rpose
        (SP (IZR Cecum_Free_W * leftOfCecumEndFacingRightBot30deg4beams.scale
             / cos (deg2rad 30)) (deg2rad 0))
        sp sp_err_default).
Proof.
  split; intros sp Ho.
  - destruct left_wall_at_45_distance as [Hd Hci].
    destruct cos_PI4_facts as (Hk & Hk2 & _).
    destruct end_right_pose as (_ & _ & Ha).
    assert (Hmax : perpendicular_distance map rightOfCecumEndFacingLeftBot45deg4beams.rpose
                     {| wall_axis := AxisX; wall_line := 10 |}
                   / cos_incidence {| wall_axis := AxisX; wall_line := 10 |}
                       (theta rightOfCecumEndFacingLeftBot45deg4beams.rpose + deg2rad 0)
                   <= max_range lsg).
    { rewrite Hd, Hci. cbn [max_range lsg].
      assert (Hq : 19 / 2 / cos (PI / 4) * cos (PI / 4) = 19 / 2) by (field; lra). nra. }
    pose proof (flat_wall_outcome map _ (max_range lsg) (deg2rad 0)
                  {| wall_axis := AxisX; wall_line := 10 |}
                  ltac:(rewrite map_scale; lra) strikes_left_wall_at_45 Hmax) as Hout.
    destruct (Hout (Some sp)) as [Hfw _]. specialize (Hfw Ho).
    rewrite Hd, Hci in Hfw. injection Hfw as Hsp. subst sp.
    pose proof (half_cell_over_cos (19 / 2) 1 (cos (PI / 4)) ltac:(lra) Hk) as Htol.
    unfold check_scan_point, near, sp_err_default, SP,
      rightOfCecumEndFacingLeftBot45deg4beams.scale, Map_Scale.
    cbn [range angle] in *. rewrite map_scale, Ha, neg_cos, Rabs_Ropp.
    rewrite (Rabs_pos_eq (cos (PI / 4))) by lra.
    replace (deg2rad 45) with (PI / 4) by (unfold deg2rad; lra).
    split.
    + replace (deg2rad 0 - deg2rad 0) with 0 by ring. rewrite Rabs_R0. lra.
    + rewrite (Rabs_pos_eq (1 / 2)) by lra.
      replace (IZR Cecum_Free_W * (1 * IZR Patch_Scale) / cos (PI / 4))
        with ((19 / 2 + 1 / 2) / cos (PI / 4))
        by (unfold Cecum_Free_W, Patch_Scale; field; lra).
      exact Htol.
  - destruct right_wall_at_30_distance as [Hd Hci].
    destruct cos_PI6_facts as (Hk & Hk2 & _).
    destruct end_left_pose as (_ & _ & Ha).
    assert (Hmax : perpendicular_distance map leftOfCecumEndFacingRightBot30deg4beams.rpose
                     {| wall_axis := AxisX; wall_line := 20 |}
                   / cos_incidence {| wall_axis := AxisX; wall_line := 20 |}
                       (theta leftOfCecumEndFacingRightBot30deg4beams.rpose + deg2rad 0)
                   <= max_range lsg).
    { rewrite Hd, Hci. cbn [max_range lsg].
      assert (Hq : 19 / 2 / cos (PI / 6) * cos (PI / 6) = 19 / 2) by (field; lra). nra. }
    pose proof (flat_wall_outcome map _ (max_range lsg) (deg2rad 0)
                  {| wall_axis := AxisX; wall_line := 20 |}
                  ltac:(rewrite map_scale; lra) strikes_right_wall_at_30 Hmax) as Hout.
    destruct (Hout (Some sp)) as [Hfw _]. specialize (Hfw Ho).
    rewrite Hd, Hci in Hfw. injection Hfw as Hsp. subst sp.
    pose proof (half_cell_over_cos (19 / 2) 1 (cos (PI / 6)) ltac:(lra) Hk) as Htol.
    unfold check_scan_point, near, sp_err_default, SP,
      leftOfCecumEndFacingRightBot30deg4beams.scale, Map_Scale.
    cbn [range angle] in *. rewrite map_scale, Ha, cos_neg.
    rewrite (Rabs_pos_eq (cos (PI / 6))) by lra.
    replace (deg2rad 30) with (PI / 6) by (unfold deg2rad; lra).
    split.
    + replace (deg2rad 0 - deg2rad 0) with 0 by ring. rewrite Rabs_R0. lra.
    + rewrite (Rabs_pos_eq (1 / 2)) by lra.
      replace (IZR Cecum_Free_W * (1 * IZR Patch_Scale) / cos (PI / 6))
        with ((19 / 2 + 1 / 2) / cos (PI / 6))
        by (unfold Cecum_Free_W, Patch_Scale; field; lra).
      exact Htol.
Qed.

(** ** The test of the cecum centre *)

Lemma cecum_center_pose :
  x cecumCenterFacingDown8beams240FoW.rpose = 31 / 2 /\
  y cecumCenterFacingDown8beams240FoW.rpose = - 39 / 2 /\
  theta cecumCenterFacingDown8beams240FoW.rpose = - (PI / 2).
Proof.
  unfold cecumCenterFacingDown8beams240FoW.rpose, prepare_robot_pose, pose_add,
    cecumCenterFacingDown8beams240FoW.pose_delta, rpose_initial, deg2rad.
  cbn [x y theta d_x d_y d_theta]. rewrite map_scale. unfold Map_Scale.
  change (IZR (Cecum_Patch_W * Patch_Scale)) with 30.
  change (IZR (Cecum_Free_Y_Start * Patch_Scale
               - Int32.div (Cecum_Free_H * Patch_Scale) 2)) with (-20).
  repeat split; lra.
Qed.

(** The fixture itself writes the step as [270 / 8] on [int]: [33] and not
    [33.75] degrees; it lists eight expected points, for the beams
    [-135 + 33 k] degrees with [k] in 0..3 and 5..8, and the beam that it
    leaves out, [k = 4], is at [-3] degrees. *)
Lemma cecum_center_angle_step :
  cecumCenterFacingDown8beams240FoW.A_Step = 33 /\
  angle_step cecumCenterFacingDown8beams240FoW.lsgen = deg2rad 33 /\
  max_angle cecumCenterFacingDown8beams240FoW.lsgen = deg2rad 135 /\
  angle_step cecumCenterFacingDown8beams240FoW.lsgen <> deg2rad (135 / 4) /\
  deg2rad (-135 + 4 * cecumCenterFacingDown8beams240FoW.A_Step) = deg2rad (-3) /\
  deg2rad (-3) <> 0 /\
  List.length cecumCenterFacingDown8beams240FoW.Expected_SPs = 8%nat.
Proof.
  assert (HA : cecumCenterFacingDown8beams240FoW.A_Step = 33) by reflexivity.
  pose proof PI_RGT_0 as Hpi.
  split; [exact HA|]. split; [reflexivity|]. split; [reflexivity|].
  split; [|split; [|split; [|reflexivity]]].
  - cbn [angle_step cecumCenterFacingDown8beams240FoW.lsgen].
    change (IZR (Int32.div 270 8)) with 33. unfold deg2rad. lra.
  - rewrite HA. f_equal. lra.
  - unfold deg2rad. lra.
Qed.

Import CecumCenterScenario.

(** Up to [5 pi / 16] from the normal, the tangent stays below [19 / 11]. *)
Lemma steep_beam_bound (x : R) :
  - (5 * PI / 16) <= x <= 5 * PI / 16 ->
  0 < cos x /\ 11 * Rabs (sin x) <= 19 * cos x.
Proof.
  pose proof PI_RGT_0 as Hpi. pose proof PI_4 as Hpi4.
  assert (Hpos : forall z, 0 <= z <= 5 * PI / 16 ->
                  0 < cos z /\ 0 <= sin z /\ 11 * sin z <= 19 * cos z).
  { intros z [Hz0 Hz1].
    set (u := PI / 16).
    assert (Hu : 0 < u) by (unfold u; lra).
    assert (Hsu : 0 < sin u /\ sin u < 1 / 4).
    { split; [apply sin_gt_0; unfold u; lra|].
      pose proof (sin_lt_x u Hu). unfold u in *. lra. }
    assert (Hcu : 0 < cos u) by (apply cos_gt_0; unfold u; lra).
    pose proof (sin2_cos2 u) as Hsc. unfold Rsqr in Hsc.
    assert (H415 : 15 * sin u <= 4 * cos u) by nra.
    assert (Hk : 0 < cos (PI / 4) /\ sin (PI / 4) = cos (PI / 4)).
    { split; [apply cos_gt_0; lra | rewrite sin_PI4, cos_PI4; reflexivity]. }
    destruct Hk as [Hk Hsk].
    assert (E5 : 5 * PI / 16 = PI / 4 + u) by (unfold u; lra).
    assert (Hs5 : sin (5 * PI / 16) = cos (PI / 4) * (cos u + sin u)).
    { rewrite E5, sin_plus, Hsk. ring. }
    assert (Hc5 : cos (5 * PI / 16) = cos (PI / 4) * (cos u - sin u)).
    { rewrite E5, cos_plus, Hsk. ring. }
    assert (H5 : 0 < cos (5 * PI / 16) /\ 11 * sin (5 * PI / 16) <= 19 * cos (5 * PI / 16)).
    { rewrite Hs5, Hc5. split; nra. }
    assert (Hsz : sin z <= sin (5 * PI / 16)) by (apply sin_incr_1; lra).
    assert (Hcz : cos (5 * PI / 16) <= cos z) by (apply cos_decr_1; lra).
    assert (0 <= sin z) by (apply sin_ge_0; lra).
    repeat split; lra. }
  intros [H1 H2]. destruct (Rle_dec 0 x) as [H0|H0].
  - destruct (Hpos x ltac:(lra)) as (Hc & Hs & Hb). split; [exact Hc|].
    rewrite Rabs_pos_eq by exact Hs. exact Hb.
  - destruct (Hpos (- x) ltac:(lra)) as (Hc & Hs & Hb).
    rewrite cos_neg in Hc, Hb. rewrite sin_neg in Hs, Hb. split; [exact Hc|].
    rewrite Rabs_left1 by lra. exact Hb.
Qed.

(** Up to [pi / 3] from the normal, the tangent stays below [19 / 9]. *)
Lemma steep_beam_bound_right (x : R) :
  - (PI / 3) <= x <= PI / 3 ->
  1 / 2 <= cos x /\ 9 * Rabs (sin x) <= 19 * cos x.
Proof.
  pose proof PI_RGT_0 as Hpi.
  assert (Hpos : forall z, 0 <= z <= PI / 3 ->
                  1 / 2 <= cos z /\ 0 <= sin z /\ 9 * sin z <= 19 * cos z).
  { intros z [Hz0 Hz1].
    assert (Hcz : cos (PI / 3) <= cos z) by (apply cos_decr_1; lra).
    rewrite cos_PI3 in Hcz.
    assert (Hs : 0 <= sin z) by (apply sin_ge_0; lra).
    pose proof (sin2_cos2 z) as Hsc. unfold Rsqr in Hsc.
    repeat split; [lra | exact Hs | nra]. }
  intros [H1 H2]. destruct (Rle_dec 0 x) as [H0|H0].
  - destruct (Hpos x ltac:(lra)) as (Hc & Hs & Hb). split; [exact Hc|].
    rewrite Rabs_pos_eq by exact Hs. exact Hb.
  - destruct (Hpos (- x) ltac:(lra)) as (Hc & Hs & Hb).
    rewrite cos_neg in Hc, Hb. rewrite sin_neg in Hs, Hb. split; [exact Hc|].
    rewrite Rabs_left1 by lra. exact Hb.
Qed.

Section CecumCenter.
Variable pose : RobotPose.
Hypothesis Hx : x pose = 31 / 2.
Hypothesis Hy : y pose = - 39 / 2.

Lemma center_distances :
  perpendicular_distance map pose left_wall = 11 / 2 /\
  perpendicular_distance map pose right_wall = 9 / 2.
Proof.
  unfold perpendicular_distance, wall_plane, left_wall, right_wall.
  cbn [wall_axis wall_line coord fst]. rewrite Hx, map_scale. split.
  - replace (10 * 1 - 31 / 2) with (- (11 / 2)) by lra.
    rewrite Rabs_Ropp. apply Rabs_pos_eq. lra.
  - replace (20 * 1 - 31 / 2) with (9 / 2) by lra. apply Rabs_pos_eq. lra.
Qed.

(** A beam towards the left, not steeper than [19 / 11], strikes the left
    wall between the open end of the corridor and its closed end. *)
Lemma strikes_left_wall (a : R) :
  cos a < 0 -> 11 * Rabs (sin a) <= 19 * - cos a ->
  strikes map pose a left_wall.
Proof.
  intros Hc Hb. unfold left_wall. set (k := - cos a) in *. assert (Hk : 0 < k) by (unfold k; lra).
  assert (Hca : cos a = - k) by (unfold k; ring).
  assert (Hsa : -19 * k <= 11 * sin a <= 19 * k).
  { revert Hb. unfold Rabs. destruct (Rcase_abs (sin a)); lra. }
  set (r := 11 / 2 / k).
  assert (Hrk : r * k = 11 / 2) by (unfold r; field; lra).
  assert (Hr0 : 0 <= r) by (unfold r; apply Rmult_le_pos; [lra | left; now apply Rinv_0_lt_compat]).
  assert (Hr : arrival map pose a {| wall_axis := AxisX; wall_line := 10 |} = r).
  { unfold arrival, wall_plane, r. rewrite map_scale. cbn. rewrite Hca, Hx. field. lra. }
  assert (Hrs : -19 / 2 <= r * sin a <= 19 / 2) by nra.
  unfold strikes. cbn [wall_axis dir_cos]. rewrite Hr. repeat split.
  - lra.
  - exact Hr0.
  - unfold struck_cell. cbn [wall_axis wall_line dir_cos other_axis coord make_cell].
    rewrite Hr. unfold ray_point. cbn [snd]. rewrite Hy, map_scale.
    destruct (Rlt_dec 0 (cos a)) as [H|_]; [lra|].
    set (ystar := (-39 / 2 + r * sin a) / 1).
    assert (Hy1 : -29 <= ystar <= -10) by (unfold ystar; lra).
    pose proof (Zfloor_bound ystar) as [Hf1 Hf2].
    assert (Zfloor ystar < -9)%Z by (apply (cell_below _ _ _ Hf1); lra).
    assert (-29 <= Zfloor ystar)%Z.
    { destruct (Z.le_gt_cases (-29) (Zfloor ystar)) as [|Hlt]; [assumption|exfalso].
      assert (Hle : (Zfloor ystar + 1 <= -29)%Z) by lia.
      apply IZR_le in Hle. rewrite plus_IZR in Hle. lra. }
    apply map_occupied. lia.
  - intros [cx cy] t Ho Hp. unfold behind. cbn [wall_axis wall_line dir_cos cell_coord fst].
    destruct (Rlt_dec 0 (cos a)) as [H|_]; [lra|].
    apply passes_through_map in Hp. rewrite Hca, Hx, Hy in Hp.
    destruct Hp as (Ht & [Hx1 Hx2] & [Hy1 Hy2]).
    apply map_occupied in Ho.
    destruct (Z.lt_ge_cases cx 10) as [|Hge]; [assumption|exfalso].
    pose proof (IZR_le _ _ Hge) as Hge'.
    assert (Htk : t * k <= 11 / 2) by lra.
    assert (Hts : 11 * (t * sin a) <= 19 * (t * k)) by nra.
    assert (cx < 20)%Z by (apply (cell_below _ _ _ Hx1); nra).
    assert (cy < -9)%Z by (apply (cell_below _ _ _ Hy1); lra).
    lia.
Qed.

(** The same towards the right. *)
Lemma strikes_right_wall (a : R) :
  0 < cos a -> 9 * Rabs (sin a) <= 19 * cos a ->
  strikes map pose a right_wall.
Proof.
  intros Hk Hb. unfold right_wall. set (k := cos a) in *.
  assert (Hsa : -19 * k <= 9 * sin a <= 19 * k).
  { revert Hb. unfold Rabs. destruct (Rcase_abs (sin a)); lra. }
  set (r := 9 / 2 / k).
  assert (Hrk : r * k = 9 / 2) by (unfold r; field; lra).
  assert (Hr0 : 0 <= r) by (unfold r; apply Rmult_le_pos; [lra | left; now apply Rinv_0_lt_compat]).
  assert (Hr : arrival map pose a {| wall_axis := AxisX; wall_line := 20 |} = r).
  { unfold arrival, wall_plane, r. rewrite map_scale. cbn. fold k. rewrite Hx. field. lra. }
  assert (Hrs : -19 / 2 <= r * sin a <= 19 / 2) by nra.
  unfold strikes. cbn [wall_axis dir_cos]. rewrite Hr. fold k. repeat split.
  - lra.
  - exact Hr0.
  - unfold struck_cell. cbn [wall_axis wall_line dir_cos other_axis coord make_cell].
    rewrite Hr. unfold ray_point. cbn [snd]. rewrite Hy, map_scale. fold k.
    destruct (Rlt_dec 0 k) as [_|H]; [|lra].
    set (ystar := (-39 / 2 + r * sin a) / 1).
    assert (Hy1 : -29 <= ystar <= -10) by (unfold ystar; lra).
    pose proof (Zfloor_bound ystar) as [Hf1 Hf2].
    assert (Zfloor ystar < -9)%Z by (apply (cell_below _ _ _ Hf1); lra).
    assert (-29 <= Zfloor ystar)%Z.
    { destruct (Z.le_gt_cases (-29) (Zfloor ystar)) as [|Hlt]; [assumption|exfalso].
      assert (Hle : (Zfloor ystar + 1 <= -29)%Z) by lia.
      apply IZR_le in Hle. rewrite plus_IZR in Hle. lra. }
    apply map_occupied. lia.
  - intros [cx cy] t Ho Hp. unfold behind. cbn [wall_axis wall_line dir_cos cell_coord fst].
    fold k. destruct (Rlt_dec 0 k) as [_|H]; [|lra].
    apply passes_through_map in Hp. fold k in Hp. rewrite Hx, Hy in Hp.
    destruct Hp as (Ht & [Hx1 Hx2] & [Hy1 Hy2]).
    apply map_occupied in Ho.
    destruct (Z.le_gt_cases 20 cx) as [|Hlt]; [assumption|exfalso].
    assert (Hlt' : (cx + 1 <= 20)%Z) by lia.
    apply IZR_le in Hlt'. rewrite plus_IZR in Hlt'.
    assert (Htk : t * k <= 9 / 2) by lra.
    assert (Hts : 9 * (t * sin a) <= 19 * (t * k)) by nra.
    assert (10 <= cx)%Z by (apply (cell_above _ _ _ Hx2); nra).
    assert (cy < -9)%Z by (apply (cell_below _ _ _ Hy1); lra).
    lia.
Qed.

(** A beam of the left half of the fan: [x] is its angle to the normal of
    the left wall. *)
Lemma center_left_beam (beta x : R) :
  theta pose + beta = x - PI -> - (5 * PI / 16) <= x <= 5 * PI / 16 ->
  strikes map pose (theta pose + beta) left_wall /\
  cos_incidence left_wall (theta pose + beta) = cos x /\
  perpendicular_distance map pose left_wall
    / cos_incidence left_wall (theta pose + beta) <= 15.
Proof.
  intros Ha Hrange. destruct (steep_beam_bound x Hrange) as [Hc Hb].
  assert (Hca : cos (theta pose + beta) = - cos x).
  { rewrite Ha, cos_minus, cos_PI, sin_PI. ring. }
  assert (Hsa : sin (theta pose + beta) = - sin x).
  { rewrite Ha, sin_minus, cos_PI, sin_PI. ring. }
  assert (Hci : cos_incidence left_wall (theta pose + beta) = cos x).
  { unfold cos_incidence. cbn [left_wall wall_axis dir_cos]. rewrite Hca, Rabs_Ropp.
    apply Rabs_pos_eq. lra. }
  split; [|split; [exact Hci|]].
  - apply strikes_left_wall; rewrite Hca, ?Hsa, ?Rabs_Ropp; lra.
  - rewrite Hci, (proj1 center_distances).
    pose proof (sin2_cos2 x) as Hsc. unfold Rsqr in Hsc.
    assert (Hs2 : 121 * (sin x * sin x) <= 361 * (cos x * cos x)).
    { assert (E : sin x * sin x = Rabs (sin x) * Rabs (sin x))
        by (unfold Rabs; destruct (Rcase_abs (sin x)); ring).
      rewrite E. pose proof (Rabs_pos (sin x)). nra. }
    assert (Hc13 : 11 / 30 <= cos x) by nra.
    assert (Hq : 11 / 2 / cos x * cos x = 11 / 2) by (field; lra).
    nra.
Qed.

(** A beam of the right half of the fan. *)
Lemma center_right_beam (beta x : R) :
  theta pose + beta = x -> - (PI / 3) <= x <= PI / 3 ->
  strikes map pose (theta pose + beta) right_wall /\
  cos_incidence right_wall (theta pose + beta) = cos x /\
  perpendicular_distance map pose right_wall
    / cos_incidence right_wall (theta pose + beta) <= 15.
Proof.
  intros Ha Hrange. destruct (steep_beam_bound_right x Hrange) as [Hc Hb].
  rewrite Ha.
  assert (Hci : cos_incidence right_wall x = cos x).
  { unfold cos_incidence. cbn [right_wall wall_axis dir_cos]. apply Rabs_pos_eq. lra. }
  split; [|split; [exact Hci|]].
  - apply strikes_right_wall; lra.
  - rewrite Hci, (proj2 center_distances).
    assert (Hq : 9 / 2 / cos x * cos x = 9 / 2) by (field; lra).
    nra.
Qed.

(** A beam steeply down the corridor leaves it by its open end. *)
Lemma no_hit_steeply_down (a r : R) :
  sin a < 0 -> 19 * Rabs (cos a) < 9 * - sin a -> ~ first_hit map pose a r.
Proof.
  intros Hs Hb [((cx & cy) & Ho & [Hp _]) _].
  apply passes_through_map in Hp. rewrite Hx, Hy in Hp.
  destruct Hp as (Ht & [Hx1 Hx2] & [Hy1 Hy2]).
  apply map_occupied in Ho.
  assert (Hc : -9 * - sin a < 19 * cos a < 9 * - sin a).
  { revert Hb. unfold Rabs. destruct (Rcase_abs (cos a)); lra. }
  assert (Hrs : 0 <= r * - sin a) by (apply Rmult_le_pos; lra).
  assert (cy < -19)%Z by (apply (cell_below _ _ _ Hy1); lra).
  assert (Hcy : -29 <= IZR cy) by (apply IZR_le; lia).
  assert (Hts : r * - sin a <= 19 / 2) by lra.
  assert (Htc : -9 / 2 < r * cos a < 9 / 2) by nra.
  assert (cx < 20)%Z by (apply (cell_below _ _ _ Hx1); lra).
  assert (10 <= cx)%Z by (apply (cell_above _ _ _ Hx2); lra).
  lia.
Qed.

End CecumCenter.






Lemma fixture_beams :
  let fb (k : R) := deg2rad (-135 + k * cecumCenterFacingDown8beams240FoW.A_Step) in
  beam_angles cecumCenterFacingDown8beams240FoW.lsgen 9
  = [fb 0; fb 1; fb 2; fb 3; fb 4; fb 5; fb 6; fb 7; fb 8] /\
  (forall k, theta cecumCenterFacingDown8beams240FoW.rpose + fb k
             = deg2rad (-225 + 33 * k)).
Proof.
  intros fb. destruct cecum_center_pose as (_ & _ & Hth).
  assert (HA : cecumCenterFacingDown8beams240FoW.A_Step = 33) by reflexivity.
  split.
  - unfold beam_angles, fb, cecumCenterFacingDown8beams240FoW.lsgen.
    cbn [seq List.map INR max_angle angle_step]. rewrite HA.
    change (IZR (Int32.div 270 8)) with 33. change (IZR (Int32.div 270 2)) with 135.
    unfold deg2rad.
    repeat (apply (f_equal2 (@cons R)); [lra|]). reflexivity.
  - intros k. unfold fb. rewrite Hth, HA. unfold deg2rad. lra.
Qed.

(** Run as the fixture runs it, with the step of [33] degrees and the nine
    beams below [max_angle], the generator returns eight points, at the
    angles of the eight points that the fixture expects: the beams 0 to 3
    strike the left wall, the beams 5 to 8 the right wall, and the beam 4,
    at [-3] degrees, leaves the corridor by its open end. *)
Lemma cecum_center_fixture_run :
  let pose := cecumCenterFacingDown8beams240FoW.rpose in
  let flsgen := cecumCenterFacingDown8beams240FoW.lsgen in
  let fb (k : R) := deg2rad (-135 + k * cecumCenterFacingDown8beams240FoW.A_Step) in
  let hit (w : Wall) (k : R) :=
    SP (perpendicular_distance map pose w / cos_incidence w (theta pose + fb k)) (fb k) in
  let returned := [hit left_wall 0; hit left_wall 1; hit left_wall 2; hit left_wall 3;
                   hit right_wall 5; hit right_wall 6; hit right_wall 7; hit right_wall 8] in
  (forall k : nat,
      - max_angle flsgen + INR k * angle_step flsgen < max_angle flsgen <-> (k < 9)%nat) /\
  (forall points,
      generate_2D_laser_scan map pose (max_range flsgen) (beam_angles flsgen 9) points <->
      points = returned) /\
  beam_outcome map pose (max_range flsgen) (fb 4) None /\
  List.map angle returned = List.map angle cecumCenterFacingDown8beams240FoW.Expected_SPs /\
  List.length returned = List.length cecumCenterFacingDown8beams240FoW.Expected_SPs.
Proof.
  intros pose flsgen fb hit returned.
  destruct cecum_center_pose as (Hx & Hy & Hth). fold pose in Hx, Hy, Hth.
  assert (Hbeams : beam_angles flsgen 9
                   = [fb 0; fb 1; fb 2; fb 3; fb 4; fb 5; fb 6; fb 7; fb 8])
    by apply fixture_beams.
  assert (Hdir : forall k, theta pose + fb k = deg2rad (-225 + 33 * k))
    by apply fixture_beams.
  pose proof PI_RGT_0 as Hpi.
  assert (Hscale : 0 < scale map) by (rewrite map_scale; lra).
  assert (HL : forall k, In k [0; 1; 2; 3] ->
             beam_outcome map pose (max_range flsgen) (fb k) (Some (hit left_wall k))).
  { intros k Hk.
    destruct (center_left_beam pose Hx Hy (fb k) (deg2rad (-45 + 33 * k))) as (Hs & _ & Hm).
    - rewrite Hdir. unfold deg2rad. lra.
    - unfold deg2rad. cbn [In] in Hk. destruct Hk as [<-|[<-|[<-|[<-|[]]]]]; lra.
    - apply (proj2 (flat_wall_outcome map pose (max_range flsgen) (fb k) left_wall
                      Hscale Hs Hm _)). reflexivity. }
  assert (HR : forall k, In k [5; 6; 7; 8] ->
             beam_outcome map pose (max_range flsgen) (fb k) (Some (hit right_wall k))).
  { intros k Hk.
    destruct (center_right_beam pose Hx Hy (fb k) (deg2rad (-225 + 33 * k))) as (Hs & _ & Hm).
    - apply Hdir.
    - unfold deg2rad. cbn [In] in Hk. destruct Hk as [<-|[<-|[<-|[<-|[]]]]]; lra.
    - apply (proj2 (flat_wall_outcome map pose (max_range flsgen) (fb k) right_wall
                      Hscale Hs Hm _)). reflexivity. }
  assert (Hmiss : beam_outcome map pose (max_range flsgen) (fb 4) None).
  { apply beam_miss. intros r Hr. exfalso. revert Hr. rewrite Hdir.
    replace (deg2rad (-225 + 33 * 4)) with (- (PI / 2 + PI / 60)) by (unfold deg2rad; lra).
    set (u := PI / 60).
    assert (Hu : 0 < u) by (unfold u; lra).
    pose proof PI_4 as Hpi4.
    assert (Hsu : 0 < sin u /\ sin u < 1 / 15).
    { split; [apply sin_gt_0; unfold u; lra|].
      pose proof (sin_lt_x u Hu). unfold u in *. lra. }
    assert (Hcu : 0 < cos u) by (apply cos_gt_0; unfold u; lra).
    pose proof (sin2_cos2 u) as Hsc. unfold Rsqr in Hsc.
    assert (Hc9 : 9 / 10 <= cos u) by nra.
    apply (no_hit_steeply_down pose Hx Hy).
    - rewrite sin_neg, sin_plus, sin_PI2, cos_PI2. lra.
    - rewrite cos_neg, sin_neg, cos_plus, sin_plus, sin_PI2, cos_PI2.
      replace (0 * cos u - 1 * sin u) with (- sin u) by ring.
      rewrite Rabs_Ropp, Rabs_pos_eq by lra. lra. }
  assert (Hgen : generate_2D_laser_scan map pose (max_range flsgen)
                   (beam_angles flsgen 9) returned).
  { rewrite Hbeams. unfold returned.
    do 4 (apply scan_hit; [apply HL; cbn; tauto|]).
    apply scan_miss; [exact Hmiss|].
    do 4 (apply scan_hit; [apply HR; cbn; tauto|]).
    apply scan_done. }
  split; [|split; [|split; [exact Hmiss|split; [|reflexivity]]]].
  - apply beams_below_max_angle; unfold flsgen, cecumCenterFacingDown8beams240FoW.lsgen;
      cbn [angle_step max_angle INR];
      change (IZR (Int32.div 270 8)) with 33; change (IZR (Int32.div 270 2)) with 135;
      unfold deg2rad; lra.
  - intros points. split.
    + intros H. exact (generate_2D_laser_scan_unique _ _ _ _ _ H _ Hgen).
    + intros ->. exact Hgen.
  - reflexivity.
Qed.

End GeneratorFacts.
